(** * vector.h: RawMemory<T> and Vector<T>

    A shallow embedding of the two class templates of [vector.h] and the
    properties of the container stated in its specification.

    The embedding keeps what the C++ code manipulates:
    - storage blocks obtained from [operator new], as lists of cells that
      are either raw or hold a live object of the element type;
    - pointers [T*] as a block and an offset (or [nullptr]);
    - [RawMemory<T>] and [Vector<T>] objects as records of their data
      members, the vectors living in an object store and being named by
      their index ([this]);
    - exceptions of the element type: every element operation that may throw
      consults a fuse, so that any such operation can be the one that
      throws; destructors never throw;
    - stack unwinding: the destructor of a local [RawMemory] or [Vector] is
      run on the exceptional path as on the normal one.

    Conventions of the model: a count of elements is a [nat].
    [RawMemory::Allocate] multiplies the count it is given by [sizeof(T)] in
    a 64-bit [size_t], and that product wraps as in the code, so that
    [Reserve], [Resize] and the sized constructor are modelled for every
    argument.  The arithmetic on the number of elements a vector holds
    (its double, its successor, the byte count of a block sized from it) is
    exact: those elements are objects in memory.  [operator new] always
    succeeds and returns a block never seen before.  A constructor argument
    is a value of the caller; [Insert_by_ref] models an argument that
    refers to an object in memory. *)

From stdpp Require Import base list.

Set Default Proof Using "Type".

(** ** The element type

    What the templates ask of [T]: the traits tested by
    [MoveDataIfPossibleOrCopyInstead], the values produced by default and
    value initialisation, and the state a move leaves its source in. *)
Class Element (T : Type) := {
  (* std::is_nothrow_move_constructible_v<T> *)
  nothrow_move_constructible : bool;
  (* std::is_copy_constructible_v<T> *)
  copy_constructible : bool;
  (* std::is_nothrow_move_assignable_v<T> *)
  nothrow_move_assignable : bool;
  (* the object built by default initialisation, [new (p) T] *)
  default_init : T;
  (* the object built by value initialisation, [new (p) T()] *)
  value_init : T;
  (* the valid state in which a move constructor or move assignment
     leaves the object it moved from *)
  moved_from : T → T;
  (* sizeof(T), in bytes *)
  sizeof_T : positive
}.

Section Model.
Context {T : Type} {E : Element T}.

(** ** Memory *)

(* A slot of a storage block: raw bytes, or a live object. *)
Inductive cell := Raw | Live (x : T).

(* A block returned by [operator new].  [frees] counts the calls of
   [operator delete] on it: 0 while the block is allocated, 1 once it has
   been released, more when it has been released again (a double free). *)
Record block := Block { cells : list cell; frees : nat }.

(* T* *)
Inductive ptr := nullptr | Addr (b : nat) (i : nat).

Global Instance ptr_eq_dec : EqDecision ptr.
Proof. solve_decision. Defined.

(* p + k *)
Definition ptr_add (p : ptr) (k : nat) : ptr :=
  match p with
  | nullptr => nullptr
  | Addr b i => Addr b (i + k)
  end.

(* p - k; no pointer lies before the start of a block *)
Definition ptr_sub (p : ptr) (k : nat) : option ptr :=
  match p with
  | nullptr => if k =? 0 then Some nullptr else None
  | Addr b i => if k <=? i then Some (Addr b (i - k)) else None
  end.

(* std::distance(first, last) for two pointers into the same block *)
Definition distance (first last : ptr) : option nat :=
  match first, last with
  | nullptr, nullptr => Some 0
  | Addr b i, Addr b' j =>
      if (b =? b') && (i <=? j) then Some (j - i) else None
  | _, _ => None
  end.

(* The data members of RawMemory<T>. *)
Record RawMemory := mkRawMemory { buffer_ : ptr; capacity_ : nat }.

(* The data members of Vector<T>. *)
Record Vector := mkVector { data_ : RawMemory; size_ : nat }.

(* The machine: the blocks handed out so far (a block is named by its
   index), the Vector objects in existence (named likewise), the fuse, and
   the number of element operations (constructions, assignments,
   destructions) carried out so far.

   [fuse = Some k]: the next [k] element operations that may throw succeed
   and the one after them throws; [fuse = None]: nothing throws. *)
Record machine := Machine {
  heap : list block;
  vecs : list Vector;
  fuse : option nat;
  elem_ops : nat
}.

(** ** Computations: state, exceptions, undefined behaviour *)

Inductive result (A : Type) :=
  | Return (a : A) (m : machine)   (* normal completion *)
  | Throw (m : machine)            (* an exception is under way *)
  | Fault.                         (* undefined behaviour or abort *)
Global Arguments Return {A} a m.
Global Arguments Throw {A} m.
Global Arguments Fault {A}.

Definition M (A : Type) : Type := machine → result A.

Definition ret {A} (a : A) : M A := λ m, Return a m.

Definition bind {A B} (c : M A) (k : A → M B) : M B :=
  λ m, match c m with
       | Return a m' => k a m'
       | Throw m' => Throw m'
       | Fault => Fault
       end.

Definition throw {A} : M A := λ m, Throw m.
Definition fault {A} : M A := λ _, Fault.

(* try { c } catch (...) { h } *)
Definition try_catch {A} (c : M A) (h : M A) : M A :=
  λ m, match c m with
       | Throw m' => h m'
       | r => r
       end.

(* [c], and when an exception leaves it, [cleanup] on the way out: the
   destructors run by stack unwinding, or a catch block that rethrows. *)
Definition unwinding {A} (c : M A) (cleanup : M unit) : M A :=
  try_catch c (bind cleanup (λ _, throw)).

Definition of_option {A} (o : option A) : M A :=
  match o with
  | Some a => ret a
  | None => fault
  end.

End Model.

Global Arguments cell T : clear implicits.
Global Arguments block T : clear implicits.
Global Arguments machine T : clear implicits.
Global Arguments result T A : clear implicits.
Global Arguments M T A : clear implicits.

Declare Scope cxx_scope.
Delimit Scope cxx_scope with cxx.
Notation "'do' x <- c ; k" := (bind c (λ x, k))
  (at level 10, x name, c at level 100, k at level 200,
   format "'[v' 'do'  x  <-  c ; '/' k ']'") : cxx_scope.
Notation "c ;; k" := (bind c (λ _, k))
  (at level 100, k at level 200, right associativity,
   format "'[v' c  ;; '/' k ']'") : cxx_scope.
Open Scope cxx_scope.

Section Library.
Context {T : Type} {E : Element T}.

Local Abbreviation cell := (cell T).
Local Abbreviation block := (block T).
Local Abbreviation machine := (machine T).
Local Abbreviation M := (M T).

(** ** Primitive operations on the machine *)

(* An element operation was carried out. *)
Definition count_op : M unit :=
  λ m, Return () (Machine (heap m) (vecs m) (fuse m) (S (elem_ops m))).

(* A point at which the element type may throw. *)
Definition may_throw : M unit :=
  λ m, match fuse m with
       | None => Return () m
       | Some (S k) => Return () (Machine (heap m) (vecs m) (Some k) (elem_ops m))
       | Some 0 => Throw (Machine (heap m) (vecs m) None (elem_ops m))
       end.

(* The slot [p] designates; there is none behind [nullptr], outside a
   block, or in a block that has been released. *)
Definition load (p : ptr) : M cell :=
  λ m, match p with
       | nullptr => Fault
       | Addr b i =>
           match heap m !! b with
           | Some (Block cs 0) =>
               match cs !! i with
               | Some c => Return c m
               | None => Fault
               end
           | _ => Fault
           end
       end.

Definition store (p : ptr) (c : cell) : M unit :=
  λ m, match p with
       | nullptr => Fault
       | Addr b i =>
           match heap m !! b with
           | Some (Block cs 0) =>
               if decide (i < length cs)
               then Return () (Machine (<[b := Block (<[i := c]> cs) 0]> (heap m))
                                       (vecs m) (fuse m) (elem_ops m))
               else Fault
           | _ => Fault
           end
       end.

(* a new block of [n] raw slots, at an address never seen before *)
Definition new_block (n : nat) : M ptr :=
  λ m, Return (Addr (length (heap m)) 0)
         (Machine (heap m ++ [Block (replicate n Raw) 0]) (vecs m) (fuse m) (elem_ops m)).

(* SIZE_MAX + 1, for a 64-bit size_t: 2^64 *)
Definition size_modulus : N := 18446744073709551616.

(* n * sizeof(T), computed in size_t *)
Definition byte_count (n : nat) : N :=
  ((N.of_nat n * Npos sizeof_T) mod size_modulus)%N.

(* operator new(size): storage of [size] bytes, which has room for
   [size / sizeof(T)] objects of type [T]; for [size = 0] the pointer
   returned is not null and no object can be built behind it *)
Definition operator_new (size : N) : M ptr :=
  new_block (N.to_nat (size / Npos sizeof_T)).

(* operator delete(p): nothing for [nullptr]; otherwise [p] must be the
   start of a block, which is released *)
Definition operator_delete (p : ptr) : M unit :=
  λ m, match p with
       | nullptr => Return () m
       | Addr b 0 =>
           match heap m !! b with
           | Some (Block cs k) =>
               Return () (Machine (<[b := Block cs (S k)]> (heap m))
                                  (vecs m) (fuse m) (elem_ops m))
           | None => Fault
           end
       | Addr _ (S _) => Fault
       end.

(** ** Operations on one element *)

(* the value of the live object at [p] *)
Definition read (p : ptr) : M T :=
  do c <- load p;
  match c with
  | Live x => ret x
  | Raw => fault
  end.

(* an object holding [x] comes to life in the raw slot [p] *)
Definition emplace_at (p : ptr) (x : T) : M unit :=
  do c <- load p;
  match c with
  | Raw => store p (Live x);; count_op
  | Live _ => fault
  end.

(* the live object at [p] takes the value [x] *)
Definition overwrite (p : ptr) (x : T) : M unit :=
  do c <- load p;
  match c with
  | Live _ => store p (Live x);; count_op
  | Raw => fault
  end.

(* new (p) T(args...), where [x] is the object the constructor builds
   from [args...] when it does not throw *)
Definition construct_at (p : ptr) (x : T) : M unit :=
  may_throw;;
  emplace_at p x.

(* new (dst) T(src[0]): copy construction from the object at [src] *)
Definition copy_construct_at (dst src : ptr) : M unit :=
  do x <- read src;
  may_throw;;
  emplace_at dst x.

(* new (dst) T(std::move(src[0])): move construction *)
Definition move_construct_at (dst src : ptr) : M unit :=
  do x <- read src;
  (if nothrow_move_constructible then ret () else may_throw);;
  emplace_at dst x;;
  overwrite src (moved_from x).

(* dst[0] = src[0]: copy assignment *)
Definition copy_assign (dst src : ptr) : M unit :=
  do x <- read src;
  may_throw;;
  overwrite dst x.

(* dst[0] = std::move(src[0]): move assignment *)
Definition move_assign (dst src : ptr) : M unit :=
  do x <- read src;
  (if nothrow_move_assignable then ret () else may_throw);;
  overwrite dst x;;
  overwrite src (moved_from x).

(* dst[0] = T(args...): the temporary is built, moved into the object at
   [dst] and destroyed *)
Definition assign_temporary (dst : ptr) (x : T) : M unit :=
  may_throw;;
  count_op;;
  unwinding
    ((if nothrow_move_assignable then ret () else may_throw);;
     overwrite dst x)
    count_op;;
  count_op.

(* std::destroy_at(p) *)
Definition destroy_at (p : ptr) : M unit :=
  do c <- load p;
  match c with
  | Live _ => store p Raw;; count_op
  | Raw => fault
  end.

(** ** The algorithms of <memory> and <algorithm> used by the vector *)

(* std::destroy_n(first, n) *)
Fixpoint destroy_n (first : ptr) (n : nat) : M unit :=
  match n with
  | 0 => ret ()
  | S n' => destroy_at first;; destroy_n (ptr_add first 1) n'
  end.

(* std::uninitialized_copy_n(first, n, d_first): when a copy throws, the
   objects built so far are destroyed and the exception goes on *)
Fixpoint uninitialized_copy_n (first : ptr) (n : nat) (d_first : ptr) : M unit :=
  match n with
  | 0 => ret ()
  | S n' =>
      copy_construct_at d_first first;;
      unwinding (uninitialized_copy_n (ptr_add first 1) n' (ptr_add d_first 1))
                (destroy_at d_first)
  end.

(* std::uninitialized_move_n(first, n, d_first): as above; the sources
   already moved from stay moved from *)
Fixpoint uninitialized_move_n (first : ptr) (n : nat) (d_first : ptr) : M unit :=
  match n with
  | 0 => ret ()
  | S n' =>
      move_construct_at d_first first;;
      unwinding (uninitialized_move_n (ptr_add first 1) n' (ptr_add d_first 1))
                (destroy_at d_first)
  end.

(* std::uninitialized_default_construct_n(first, n) *)
Fixpoint uninitialized_default_construct_n (first : ptr) (n : nat) : M unit :=
  match n with
  | 0 => ret ()
  | S n' =>
      construct_at first default_init;;
      unwinding (uninitialized_default_construct_n (ptr_add first 1) n')
                (destroy_at first)
  end.

(* std::uninitialized_value_construct_n(first, n) *)
Fixpoint uninitialized_value_construct_n (first : ptr) (n : nat) : M unit :=
  match n with
  | 0 => ret ()
  | S n' =>
      construct_at first value_init;;
      unwinding (uninitialized_value_construct_n (ptr_add first 1) n')
                (destroy_at first)
  end.

(* std::copy_n(first, n, result) *)
Fixpoint copy_n (first : ptr) (n : nat) (result : ptr) : M unit :=
  match n with
  | 0 => ret ()
  | S n' => copy_assign result first;; copy_n (ptr_add first 1) n' (ptr_add result 1)
  end.

(* the loop of std::move(first, last, d_first), [n] elements to go *)
Fixpoint move_loop (first : ptr) (n : nat) (d_first : ptr) : M unit :=
  match n with
  | 0 => ret ()
  | S n' => move_assign d_first first;; move_loop (ptr_add first 1) n' (ptr_add d_first 1)
  end.

(* std::move(first, last, d_first) *)
Definition std_move (first last d_first : ptr) : M unit :=
  do n <- of_option (distance first last);
  move_loop first n d_first.

(* the loop of std::move_backward(first, last, d_last), [n] elements to
   go: both pointers step back, then the element is move-assigned *)
Fixpoint move_backward_loop (n : nat) (last d_last : ptr) : M unit :=
  match n with
  | 0 => ret ()
  | S n' =>
      do last' <- of_option (ptr_sub last 1);
      do d_last' <- of_option (ptr_sub d_last 1);
      move_assign d_last' last';;
      move_backward_loop n' last' d_last'
  end.

(* std::move_backward(first, last, d_last) *)
Definition move_backward (first last d_last : ptr) : M unit :=
  do n <- of_option (distance first last);
  move_backward_loop n last d_last.

End Library.

Section Classes.
Context {T : Type} {E : Element T}.

Local Abbreviation machine := (machine T).
Local Abbreviation M := (M T).

(** ** The object store *)

(* the data members of the Vector object [v] *)
Definition get_vector (v : nat) : M Vector :=
  λ m, match vecs m !! v with
       | Some r => Return r m
       | None => Fault
       end.

Definition set_vector (v : nat) (r : Vector) : M unit :=
  λ m, if decide (v < length (vecs m))
       then Return () (Machine (heap m) (<[v := r]> (vecs m)) (fuse m) (elem_ops m))
       else Fault.

(* the member data_ of [v] is assigned *)
Definition set_data (v : nat) (d : RawMemory) : M unit :=
  do r <- get_vector v;
  set_vector v (mkVector d (size_ r)).

(* the member size_ of [v] is assigned *)
Definition set_size (v : nat) (n : nat) : M unit :=
  do r <- get_vector v;
  set_vector v (mkVector (data_ r) n).

(* a new Vector object with the given members comes into existence *)
Definition new_vector (r : Vector) : M nat :=
  λ m, Return (length (vecs m))
         (Machine (heap m) (vecs m ++ [r]) (fuse m) (elem_ops m)).

(* the storage of the local object [v], the youngest one, goes away *)
Definition end_of_scope (v : nat) : M unit :=
  λ m, if decide (S v = length (vecs m))
       then Return () (Machine (heap m) (take v (vecs m)) (fuse m) (elem_ops m))
       else Fault.

(* a - b on size_t, for a >= b; below zero the C++ value wraps around to an
   enormous count, which no buffer can satisfy *)
Definition size_sub (a b : nat) : M nat :=
  if b <=? a then ret (a - b) else fault.

(** ** RawMemory<T> *)

(* RawMemory::Allocate *)
Definition RawMemory_Allocate (n : nat) : M ptr :=
  if negb (n =? 0) then operator_new (byte_count n) else ret nullptr.

(* RawMemory::Deallocate *)
Definition RawMemory_Deallocate (buf : ptr) : M unit :=
  operator_delete buf.

(* RawMemory() = default *)
Definition RawMemory_default : RawMemory := mkRawMemory nullptr 0.

(* explicit RawMemory(size_t capacity) *)
Definition RawMemory_new (capacity : nat) : M RawMemory :=
  do buf <- RawMemory_Allocate capacity;
  ret (mkRawMemory buf capacity).

(* RawMemory<T> new_data(count) where the vector computes [count] from the
   number of elements it holds: that number, twice that number, or 1.
   Those elements are objects in memory, and [count * sizeof(T)] is taken
   not to wrap (it would only for elements filling half of the address
   space): the block has [count] slots.  Where the product does not wrap
   this is [RawMemory_new] ([RawMemory_new_for_elements]). *)
Definition RawMemory_for_elements (count : nat) : M RawMemory :=
  do buf <- (if negb (count =? 0) then new_block count else ret nullptr);
  ret (mkRawMemory buf count).

(* ~RawMemory() *)
Definition RawMemory_dtor (r : RawMemory) : M unit :=
  RawMemory_Deallocate (buffer_ r).

(* RawMemory::operator+ *)
Definition RawMemory_plus (r : RawMemory) (offset : nat) : ptr :=
  ptr_add (buffer_ r) offset.

(* RawMemory::operator[], as the address of the slot referred to *)
Definition RawMemory_at (r : RawMemory) (index : nat) : ptr :=
  ptr_add (buffer_ r) index.

(* RawMemory::Swap: the two objects after the exchange *)
Definition RawMemory_Swap (a b : RawMemory) : RawMemory * RawMemory :=
  (mkRawMemory (buffer_ b) (capacity_ b), mkRawMemory (buffer_ a) (capacity_ a)).

(* RawMemory::GetAddress *)
Definition GetAddress (r : RawMemory) : ptr := buffer_ r.

(* RawMemory::Capacity *)
Definition RawMemory_Capacity (r : RawMemory) : nat := capacity_ r.

(** ** Vector<T> *)

(* Vector::Size *)
Definition Size (r : Vector) : nat := size_ r.

(* Vector::Capacity *)
Definition Capacity (r : Vector) : nat := RawMemory_Capacity (data_ r).

(* Vector::begin *)
Definition begin (r : Vector) : ptr := GetAddress (data_ r).

(* Vector::end *)
Definition end_ (r : Vector) : ptr := ptr_add (GetAddress (data_ r)) (size_ r).

(* Vector::operator[], as the address of the element referred to *)
Definition Vector_at (r : Vector) (index : nat) : ptr :=
  RawMemory_at (data_ r) index.

(* Vector::Swap *)
Definition Swap (this other : nat) : M unit :=
  do a <- get_vector this;
  do b <- get_vector other;
  let '(da, db) := RawMemory_Swap (data_ a) (data_ b) in
  set_data this da;;
  set_data other db;;
  set_size this (size_ b);;
  set_size other (size_ a).

(* Vector() = default *)
Definition Vector_default : M nat :=
  new_vector (mkVector RawMemory_default 0).

(* explicit Vector(size_t size) *)
Definition Vector_sized (size : nat) : M nat :=
  do d <- RawMemory_new size;
  unwinding (uninitialized_value_construct_n (GetAddress d) size)
            (RawMemory_dtor d);;
  new_vector (mkVector d size).

(* Vector(const Vector& other) *)
Definition Vector_copy (other : nat) : M nat :=
  do o <- get_vector other;
  do d <- RawMemory_for_elements (size_ o);
  unwinding (uninitialized_copy_n (GetAddress (data_ o)) (size_ o) (GetAddress d))
            (RawMemory_dtor d);;
  new_vector (mkVector d (size_ o)).

(* Vector(Vector&& other) noexcept *)
Definition Vector_move (other : nat) : M nat :=
  do this <- new_vector (mkVector RawMemory_default 0);
  Swap this other;;
  ret this.

(* ~Vector(), followed by the destructor of the member data_ *)
Definition Vector_dtor (this : nat) : M unit :=
  do r <- get_vector this;
  destroy_n (GetAddress (data_ r)) (size_ r);;
  RawMemory_dtor (data_ r).

(* Vector& operator=(const Vector& other) *)
Definition copy_assignment (this other : nat) : M unit :=
  do r <- get_vector this;
  do o <- get_vector other;
  (if RawMemory_Capacity (data_ r) <? size_ o then
     do temp <- Vector_copy other;
     Swap this temp;;
     Vector_dtor temp;;
     end_of_scope temp
   else
     copy_n (GetAddress (data_ o)) (Size r `min` Size o) (GetAddress (data_ r));;
     if Size o <? Size r then
       destroy_n (RawMemory_plus (data_ r) (Size o)) (Size r - Size o)
     else if Size r <? Size o then
       uninitialized_copy_n (ptr_add (GetAddress (data_ o)) (Size r))
                            (Size o - Size r)
                            (ptr_add (GetAddress (data_ r)) (Size r))
     else ret ());;
  do o' <- get_vector other;
  set_size this (Size o').

(* Vector& operator=(Vector&& rhs) noexcept *)
Definition move_assignment (this rhs : nat) : M unit :=
  Swap this rhs.

(* Vector::MoveDataIfPossibleOrCopyInstead *)
Definition MoveDataIfPossibleOrCopyInstead (input_it : ptr) (n : nat) (output_it : ptr)
  : M unit :=
  if nothrow_move_constructible || negb copy_constructible
  then uninitialized_move_n input_it n output_it
  else uninitialized_copy_n input_it n output_it.

(* Vector::Reserve *)
Definition Reserve (this : nat) (new_capacity : nat) : M unit :=
  do r <- get_vector this;
  if new_capacity <=? RawMemory_Capacity (data_ r) then ret ()
  else
    do new_data <- RawMemory_new new_capacity;
    unwinding
      (MoveDataIfPossibleOrCopyInstead (GetAddress (data_ r)) (Size r) (GetAddress new_data))
      (RawMemory_dtor new_data);;
    destroy_n (GetAddress (data_ r)) (size_ r);;
    let '(d, new_data') := RawMemory_Swap (data_ r) new_data in
    set_data this d;;
    RawMemory_dtor new_data'.

(* Vector::Resize *)
Definition Resize (this : nat) (new_size : nat) : M unit :=
  Reserve this new_size;;
  do r <- get_vector this;
  (if new_size <? size_ r then
     destroy_n (RawMemory_plus (data_ r) new_size) (size_ r - new_size)
   else if size_ r <? new_size then
     uninitialized_default_construct_n (RawMemory_plus (data_ r) (size_ r))
                                       (new_size - size_ r)
   else ret ());;
  set_size this new_size.

(* Vector::PopBack *)
Definition PopBack (this : nat) : M unit :=
  do r <- get_vector this;
  if size_ r =? 0 then fault   (* assert(size_ > 0) *)
  else
    set_size this (size_ r - 1);;
    destroy_at (RawMemory_plus (data_ r) (size_ r - 1)).

(* Vector::EmplaceBack; [x] is the object T(args...) builds.  The result
   is the address of the element the returned reference designates. *)
Definition EmplaceBack (this : nat) (x : T) : M ptr :=
  do r <- get_vector this;
  (if size_ r =? RawMemory_Capacity (data_ r) then
     let temp_size := if size_ r =? 0 then 1 else size_ r * 2 in
     do new_data <- RawMemory_for_elements temp_size;
     unwinding
       (construct_at (ptr_add (GetAddress new_data) (size_ r)) x;;
        MoveDataIfPossibleOrCopyInstead (GetAddress (data_ r)) (Size r) (GetAddress new_data))
       (RawMemory_dtor new_data);;
     destroy_n (GetAddress (data_ r)) (size_ r);;
     let '(d, new_data') := RawMemory_Swap (data_ r) new_data in
     set_data this d;;
     RawMemory_dtor new_data'
   else
     construct_at (ptr_add (GetAddress (data_ r)) (size_ r)) x);;
  set_size this (S (size_ r));;
  do r' <- get_vector this;
  ret (RawMemory_at (data_ r') (size_ r' - 1)).

(* Vector::PushBack *)
Definition PushBack (this : nat) (value : T) : M unit :=
  EmplaceBack this value;; ret ().

(* Vector::InsertWithRealloc *)
Definition InsertWithRealloc (this : nat) (pos : ptr) (x : T) : M ptr :=
  do r <- get_vector this;
  do dist <- of_option (distance (begin r) pos);
  let temp_size := if size_ r =? 0 then 1 else size_ r * 2 in
  do new_data <- RawMemory_for_elements temp_size;
  do new_data' <-
    try_catch
      (construct_at (ptr_add (GetAddress new_data) dist) x;;
       MoveDataIfPossibleOrCopyInstead (GetAddress (data_ r)) dist (GetAddress new_data);;
       do rest <- size_sub (size_ r) dist;
       MoveDataIfPossibleOrCopyInstead (ptr_add (GetAddress (data_ r)) dist) rest
         (ptr_add (ptr_add (GetAddress new_data) dist) 1);;
       destroy_n (GetAddress (data_ r)) (size_ r);;
       let '(d, nd) := RawMemory_Swap (data_ r) new_data in
       set_data this d;;
       set_size this (S (size_ r));;
       ret nd)
      (* catch (...): std::destroy_at(std::addressof(new_data)) *)
      (RawMemory_dtor new_data;; ret new_data);
  do r' <- get_vector this;
  let result := RawMemory_at (data_ r') dist in
  (* new_data goes out of scope *)
  RawMemory_dtor new_data';;
  ret result.

(* Vector::InsertWithoutRealloc *)
Definition InsertWithoutRealloc (this : nat) (pos : ptr) (x : T) : M ptr :=
  do r <- get_vector this;
  do dist <- of_option (distance (begin r) pos);
  let it := RawMemory_at (data_ r) dist in
  (if decide (pos = nullptr ∨ pos = end_ r) then
     construct_at (end_ r) x
   else
     do last <- of_option (ptr_sub (end_ r) 1);
     move_construct_at (end_ r) last;;
     move_backward it last (end_ r);;
     assign_temporary it x);;
  set_size this (S (size_ r));;
  ret it.

(* Vector::Emplace *)
Definition Emplace (this : nat) (p : ptr) (x : T) : M ptr :=
  do r <- get_vector this;
  if size_ r =? Capacity r
  then InsertWithRealloc this p x
  else InsertWithoutRealloc this p x.

(* Vector::Insert, for both overloads: the element is built from [value] *)
Definition Insert (this : nat) (pos : ptr) (value : T) : M ptr :=
  Emplace this pos value.

(* Vector::Erase *)
Definition Erase (this : nat) (p : ptr) : M ptr :=
  do r <- get_vector this;
  if decide (begin r = end_ r) then ret p
  else
    std_move (ptr_add p 1) (end_ r) p;;
    PopBack this;;
    ret p.

End Classes.


(** * Specification vocabulary *)

Section Vocabulary.
Context {T : Type} {E : Element T}.

Local Abbreviation cell := (cell T).
Local Abbreviation block := (block T).

(* The slots of an arena of capacity [cap] whose live elements are [xs]:
   slots [0, size) hold the elements in order, slots [size, capacity) are
   raw. *)
Definition arena (cap : nat) (xs : list T) : list cell :=
  (Live <$> xs) ++ replicate (cap - length xs) Raw.

(* The count [n] can be multiplied by [sizeof(T)] in [size_t]: the product
   that [RawMemory::Allocate] computes does not wrap. *)
Definition no_wrap (n : nat) : Prop :=
  (N.of_nat n * Npos sizeof_T < size_modulus)%N.

(* The number of slots of the block that [RawMemory(n)] allocates: [n]
   when the product does not wrap, fewer when it does. *)
Definition allocated (n : nat) : nat :=
  N.to_nat (byte_count n / Npos sizeof_T).

(* The computation [c] is never left by an exception. *)
Definition never_throws {A} (c : M T A) : Prop :=
  ∀ m m', c m ≠ Throw m'.

(* The representation invariant: in the heap [h], the Vector with members
   [r] is well formed and its element sequence is [xs]. *)
Definition holds (h : list block) (r : Vector) (xs : list T) : Prop :=
  size_ r = length xs ∧ length xs ≤ capacity_ (data_ r) ∧
  match buffer_ (data_ r) with
  | nullptr => capacity_ (data_ r) = 0
  | Addr b i => i = 0 ∧ h !! b = Some (Block (arena (capacity_ (data_ r)) xs) 0)
  end.

(* The heap once the block behind [p], of [cap] slots all raw again, has
   been released. *)
Definition released (p : ptr) (cap : nat) (h : list block) : list block :=
  match p with
  | nullptr => h
  | Addr b _ => <[b := Block (replicate cap Raw) 1]> h
  end.

(* the moved-from object the loop of [std::move] leaves in the last slot
   of its source range *)
Fixpoint left_behind (x0 : T) (xs : list T) : T :=
  match xs with
  | [] => x0
  | x :: xs' => left_behind (moved_from x) xs'
  end.

(* the object [std::move_backward] leaves in the first slot of its source
   range *)
Definition hole (z : T) (ys : list T) : T :=
  match ys with
  | [] => z
  | y :: _ => moved_from y
  end.

(* How a fuse [f] may stand, as [f'], after element operations that all
   succeeded: a fuse that never blows stays so, and operations that cannot
   throw do not consume it. *)
Definition spent (f f' : option nat) : Prop :=
  (f = None → f' = None) ∧ (nothrow_move_constructible = true → f' = f).

(* The fuse after one more fallible operation, when that one succeeds. *)
Definition tick (f : option nat) : option (option nat) :=
  match f with
  | None => Some None
  | Some (S k) => Some (Some k)
  | Some 0 => None
  end.

(* PushBack of each element of [xs] in turn *)
Fixpoint push_all (this : nat) (xs : list T) : M T unit :=
  match xs with
  | [] => ret ()
  | x :: xs' => PushBack this x;; push_all this xs'
  end.

(* The capacity an append leaves, from the size and the capacity it finds:
   the rule of EmplaceBack. *)
Definition grow (size cap : nat) : nat :=
  if size =? cap then (if size =? 0 then 1 else size * 2) else cap.

(* the capacity after [n] more appends *)
Fixpoint capacity_run (size cap n : nat) : nat :=
  match n with
  | 0 => cap
  | S n' => capacity_run (S size) (grow size cap) n'
  end.

End Vocabulary.

(** * Element types and machines used as examples *)

(* An element type that copies and moves like [int]: nothing throws, a
   move leaves its source as it was.  Default and value initialisation
   both give 0, as for a class with a member initialiser [int v = 0]. *)
Definition int_element : Element nat := {|
  nothrow_move_constructible := true;
  copy_constructible := true;
  nothrow_move_assignable := true;
  default_init := 0;
  value_init := 0;
  moved_from := λ x, x;
  sizeof_T := 4
|}.

(* A class type that can be copied and whose copy constructor may throw;
   it declares no move operations, so that a move is a copy.  Its default
   constructor sets the value 0. *)
Definition copyable_element : Element nat := {|
  nothrow_move_constructible := false;
  copy_constructible := true;
  nothrow_move_assignable := false;
  default_init := 0;
  value_init := 0;
  moved_from := λ x, x;
  sizeof_T := 4
|}.

(* A move-only element type whose move constructor may throw and leaves 0
   in the object moved from. *)
Definition move_only_element : Element nat := {|
  nothrow_move_constructible := false;
  copy_constructible := false;
  nothrow_move_assignable := false;
  default_init := 0;
  value_init := 0;
  moved_from := λ _, 0;
  sizeof_T := 4
|}.

(* the members of a vector whose block is [b], of capacity [cap], with
   [size] elements *)
Definition vector_in (b cap size : nat) : Vector :=
  mkVector (mkRawMemory (Addr b 0) cap) size.

(* One vector, holding [1; 2] in a block of capacity 2.  The second
   fallible element operation from now on throws. *)
Definition full_pair : machine nat :=
  Machine [Block [Live 1; Live 2] 0] [vector_in 0 2 2] (Some 1) 0.

(* One vector, holding [1] in a block of capacity 1; the second fallible
   element operation throws. *)
Definition full_single : machine nat :=
  Machine [Block [Live 1] 0] [vector_in 0 1 1] (Some 1) 0.

(* The same vector when the first fallible element operation throws. *)
Definition full_single_now : machine nat :=
  Machine [Block [Live 1] 0] [vector_in 0 1 1] (Some 0) 0.

(* Two vectors: object 0 holds [1] and object 1 holds [2; 3]; nothing
   throws. *)
Definition two_vectors : machine nat :=
  Machine [Block [Live 1] 0; Block [Live 2; Live 3] 0]
          [vector_in 0 1 1; vector_in 1 2 2] None 0.

(* One vector, holding [1; 2; 3] in a block of capacity 4; nothing throws. *)
Definition roomy_triple : machine nat :=
  Machine [Block [Live 1; Live 2; Live 3; Raw] 0] [vector_in 0 4 3] None 0.

(* One default-constructed vector; nothing throws. *)
Definition empty_vector : machine nat :=
  Machine [] [mkVector RawMemory_default 0] None 0.

(* The example of the specification, for elements that hold a number and
   are default-constructed as 0: from empty, append 1, 2, 3; insert 10 at
   index 1; erase index 0; resize to 5. *)
Definition walkthrough_target : M nat nat :=
  do v <- Vector_default;
  PushBack (E := int_element) v 1;;
  PushBack (E := int_element) v 2;;
  PushBack (E := int_element) v 3;;
  do r <- get_vector v;
  Insert (E := int_element) v (ptr_add (begin r) 1) 10;;
  do r <- get_vector v;
  Erase (E := int_element) v (ptr_add (begin r) 0);;
  Resize (E := int_element) v 5;;
  ret v.

(* ... then copy-assign a source of six elements to it. *)
Definition walkthrough : M nat unit :=
  do v <- walkthrough_target;
  do s <- Vector_default;
  push_all (E := int_element) s [1; 2; 3; 4; 5; 6];;
  copy_assignment v s.

(* [full_pair] after a Reserve(4) in which the second move threw. *)
Definition full_pair_half_moved : machine nat :=
  Machine [Block [Live 0; Live 2] 0; Block [Raw; Raw; Raw; Raw] 1]
          [vector_in 0 2 2] None 3.

(* [two_vectors] after the move assignment of object 1 to object 0. *)
Definition two_vectors_exchanged : machine nat :=
  Machine [Block [Live 1] 0; Block [Live 2; Live 3] 0]
          [vector_in 1 2 2; vector_in 0 1 1] None 0.

(* The machine [walkthrough_target] ends in, started with nothing. *)
Definition walkthrough_target_end : machine nat :=
  Machine [Block [Raw] 1; Block [Raw; Raw] 1; Block [Raw; Raw; Raw; Raw] 1;
           Block [Live 10; Live 2; Live 3; Live 0; Live 0] 0]
          [vector_in 3 5 5] None 37.

(* The machine [walkthrough] ends in, started with nothing. *)
Definition walkthrough_end : machine nat :=
  Machine [Block [Raw] 1; Block [Raw; Raw] 1; Block [Raw; Raw; Raw; Raw] 1;
           Block [Raw; Raw; Raw; Raw; Raw] 1;
           Block [Raw] 1; Block [Raw; Raw] 1; Block [Raw; Raw; Raw; Raw] 1;
           Block [Live 1; Live 2; Live 3; Live 4; Live 5; Live 6; Raw; Raw] 0;
           Block [Live 1; Live 2; Live 3; Live 4; Live 5; Live 6] 0]
          [vector_in 8 6 6; vector_in 7 8 6] None 75.

(** * More of vector.h *)

Section MoreCode.
Context {T : Type} {E : Element T}.

Local Abbreviation M := (M T).

(* RawMemory(RawMemory&& other) noexcept: the new object starts out as a
   default-constructed one and swaps with [other].  The pair is the new
   object and [other] afterwards. *)
Definition RawMemory_move (other : RawMemory) : RawMemory * RawMemory :=
  RawMemory_Swap RawMemory_default other.

(* RawMemory& operator=(RawMemory&& other) noexcept *)
Definition RawMemory_move_assign (this other : RawMemory) : RawMemory * RawMemory :=
  RawMemory_Swap this other.

(* Vector::cbegin and Vector::cend *)
Definition cbegin (r : Vector) : ptr := GetAddress (data_ r).
Definition cend (r : Vector) : ptr := ptr_add (GetAddress (data_ r)) (size_ r).

(* dst[0] = T(value), for an argument [const T& value] that refers to the
   object at [value]: the temporary is a copy of what that object holds
   when the statement runs. *)
Definition assign_copy_of (dst value : ptr) : M unit :=
  do x <- read value;
  assign_temporary dst x.

(* Vector::InsertWithRealloc, instantiated for one argument [const T&]
   that refers to the object at [value] *)
Definition InsertWithRealloc_by_ref (this : nat) (pos value : ptr) : M ptr :=
  do r <- get_vector this;
  do dist <- of_option (distance (begin r) pos);
  let temp_size := if size_ r =? 0 then 1 else size_ r * 2 in
  do new_data <- RawMemory_for_elements temp_size;
  do new_data' <-
    try_catch
      (copy_construct_at (ptr_add (GetAddress new_data) dist) value;;
       MoveDataIfPossibleOrCopyInstead (GetAddress (data_ r)) dist (GetAddress new_data);;
       do rest <- size_sub (size_ r) dist;
       MoveDataIfPossibleOrCopyInstead (ptr_add (GetAddress (data_ r)) dist) rest
         (ptr_add (ptr_add (GetAddress new_data) dist) 1);;
       destroy_n (GetAddress (data_ r)) (size_ r);;
       let '(d, nd) := RawMemory_Swap (data_ r) new_data in
       set_data this d;;
       set_size this (S (size_ r));;
       ret nd)
      (RawMemory_dtor new_data;; ret new_data);
  do r' <- get_vector this;
  let result := RawMemory_at (data_ r') dist in
  RawMemory_dtor new_data';;
  ret result.

(* Vector::InsertWithoutRealloc, instantiated likewise *)
Definition InsertWithoutRealloc_by_ref (this : nat) (pos value : ptr) : M ptr :=
  do r <- get_vector this;
  do dist <- of_option (distance (begin r) pos);
  let it := RawMemory_at (data_ r) dist in
  (if decide (pos = nullptr ∨ pos = end_ r) then
     copy_construct_at (end_ r) value
   else
     do last <- of_option (ptr_sub (end_ r) 1);
     move_construct_at (end_ r) last;;
     move_backward it last (end_ r);;
     assign_copy_of it value);;
  set_size this (S (size_ r));;
  ret it.

(* Vector::Insert(const_iterator pos, const T& value), which is
   Emplace(pos, value), for [value] referring to the object at [value] *)
Definition Insert_by_ref (this : nat) (pos value : ptr) : M ptr :=
  do r <- get_vector this;
  if size_ r =? Capacity r
  then InsertWithRealloc_by_ref this pos value
  else InsertWithoutRealloc_by_ref this pos value.

End MoreCode.

(* One vector of [int], holding [1; 2; 3; 4] in a block of capacity 6;
   nothing throws. *)
Definition roomy_four : machine nat :=
  Machine [Block [Live 1; Live 2; Live 3; Live 4; Raw; Raw] 0] [vector_in 0 6 4] None 0.

(* Two vectors: object 0 holds [1; 2; 3] in a block of capacity 4, object 1
   holds [7; 8] in a block of capacity 2; nothing throws. *)
Definition roomy_and_pair : machine nat :=
  Machine [Block [Live 1; Live 2; Live 3; Raw] 0; Block [Live 7; Live 8] 0]
          [vector_in 0 4 3; vector_in 1 2 2] None 0.
(** * Properties *)

(** ** Running computations *)

Section Running.
Context {T : Type} {E : Element T}.

Local Abbreviation M := (M T).

Lemma bind_Return {A B} (c : M A) (k : A → M B) m a m' :
  c m = Return a m' → bind c k m = k a m'.
Proof. unfold bind. by intros ->. Qed.

Lemma bind_Throw {A B} (c : M A) (k : A → M B) m m' :
  c m = Throw m' → bind c k m = Throw m'.
Proof. unfold bind. by intros ->. Qed.

Lemma bind_assoc {A B C} (c : M A) (k1 : A → M B) (k2 : B → M C) m :
  bind (bind c k1) k2 m = bind c (λ a, bind (k1 a) k2) m.
Proof. unfold bind. by destruct (c m). Qed.

Lemma unwinding_Return {A} (c : M A) cleanup m a m' :
  c m = Return a m' → unwinding c cleanup m = Return a m'.
Proof. unfold unwinding, try_catch. by intros ->. Qed.

Lemma unwinding_Throw {A} (c : M A) cleanup m m1 m2 :
  c m = Throw m1 → cleanup m1 = Return () m2 → unwinding c cleanup m = Throw m2.
Proof. unfold unwinding, try_catch, bind, throw. by intros -> ->. Qed.

Lemma try_catch_Return {A} (c h : M A) m a m' :
  c m = Return a m' → try_catch c h m = Return a m'.
Proof. unfold try_catch. by intros ->. Qed.

Lemma try_catch_Throw {A} (c h : M A) m m' :
  c m = Throw m' → try_catch c h m = h m'.
Proof. unfold try_catch. by intros ->. Qed.

End Running.

(* [exec by tac]: the first command of the computation on the left of the
   goal returns, as [tac] shows; go on with the rest. *)
Tactic Notation "exec" "by" tactic3(tac) :=
  rewrite ?bind_assoc;
  first
    [ erewrite bind_Return; [ | solve [tac | apply unwinding_Return; tac] ]
    | erewrite unwinding_Return; [ | solve [tac] ] ];
  cbv beta iota.

(* the length of a list of slots or of blocks *)
Ltac len :=
  repeat first
    [ rewrite length_insert | rewrite length_app | rewrite length_fmap
    | rewrite length_replicate | rewrite length_take | rewrite length_drop
    | rewrite length_cons ];
  cbn [length]; try lia.

(* a lookup in a heap built from inserts and appended blocks *)
Ltac heap_lookup :=
  repeat first
    [ eassumption
    | reflexivity
    | rewrite list_lookup_insert_eq by (len; eauto using lookup_lt_Some with lia)
    | rewrite list_lookup_insert_ne by (first [ done | lia ])
    | rewrite lookup_app_l by (len; eauto using lookup_lt_Some with lia)
    | rewrite list_lookup_middle by (len; lia) ].

(** ** Slots *)

Section Slots.
Context {T : Type} {E : Element T}.

Local Abbreviation cell := (cell T).
Local Abbreviation block := (block T).

Implicit Types (h : list block) (vs : list Vector) (f : option nat).
Implicit Types (pre post cs : list cell) (xs ys : list T) (x y z : T).
Implicit Types (b i j n w : nat).

Lemma insert_middle {A} (l1 l2 : list A) (a a' : A) :
  <[length l1 := a']> (l1 ++ a :: l2) = l1 ++ a' :: l2.
Proof.
  replace (length l1) with (length l1 + 0) by lia.
  by rewrite insert_app_r.
Qed.

Lemma snoc_middle {A} (l1 l2 : list A) (a : A) :
  l1 ++ a :: l2 = (l1 ++ [a]) ++ l2.
Proof. by rewrite <- app_assoc. Qed.

Lemma lookup_block_lt h b (B : block) : h !! b = Some B → b < length h.
Proof. apply lookup_lt_Some. Qed.

Lemma load_middle h vs f w b i pre c post :
  h !! b = Some (Block (pre ++ c :: post) 0) → i = length pre →
  load (Addr b i) (Machine h vs f w) = Return c (Machine h vs f w).
Proof.
  intros Hb ->. unfold load. cbn. rewrite Hb.
  by rewrite list_lookup_middle.
Qed.

Lemma store_middle h vs f w b i pre c c' post :
  h !! b = Some (Block (pre ++ c :: post) 0) → i = length pre →
  store (Addr b i) c' (Machine h vs f w)
  = Return () (Machine (<[b := Block (pre ++ c' :: post) 0]> h) vs f w).
Proof.
  intros Hb ->. unfold store. cbn. rewrite Hb.
  rewrite decide_True; [by rewrite insert_middle|].
  rewrite length_app. cbn. lia.
Qed.

Lemma read_middle h vs f w b i pre x post :
  h !! b = Some (Block (pre ++ Live x :: post) 0) → i = length pre →
  read (Addr b i) (Machine h vs f w) = Return x (Machine h vs f w).
Proof.
  intros Hb Hi. unfold read.
  exec by (eapply load_middle; eauto). done.
Qed.

Lemma emplace_at_middle h vs f w b i pre x post :
  h !! b = Some (Block (pre ++ Raw :: post) 0) → i = length pre →
  emplace_at (Addr b i) x (Machine h vs f w)
  = Return () (Machine (<[b := Block (pre ++ Live x :: post) 0]> h) vs f (S w)).
Proof.
  intros Hb Hi. unfold emplace_at.
  exec by (eapply load_middle; eauto).
  exec by (eapply store_middle; eauto). done.
Qed.

Lemma overwrite_middle h vs f w b i pre x y post :
  h !! b = Some (Block (pre ++ Live y :: post) 0) → i = length pre →
  overwrite (Addr b i) x (Machine h vs f w)
  = Return () (Machine (<[b := Block (pre ++ Live x :: post) 0]> h) vs f (S w)).
Proof.
  intros Hb Hi. unfold overwrite.
  exec by (eapply load_middle; eauto).
  exec by (eapply store_middle; eauto). done.
Qed.

Lemma destroy_at_middle h vs f w b i pre x post :
  h !! b = Some (Block (pre ++ Live x :: post) 0) → i = length pre →
  destroy_at (Addr b i) (Machine h vs f w)
  = Return () (Machine (<[b := Block (pre ++ Raw :: post) 0]> h) vs f (S w)).
Proof.
  intros Hb Hi. unfold destroy_at.
  exec by (eapply load_middle; eauto).
  exec by (eapply store_middle; eauto). done.
Qed.

Lemma may_throw_calm h vs w :
  may_throw (Machine h vs None w) = Return () (Machine h vs None w).
Proof. done. Qed.

Lemma may_throw_later h vs k w :
  may_throw (Machine h vs (Some (S k)) w) = Return () (Machine h vs (Some k) w).
Proof. done. Qed.

Lemma may_throw_now h vs w :
  may_throw (Machine h vs (Some 0) w) = Throw (Machine h vs None w).
Proof. done. Qed.

Lemma construct_at_middle h vs w b i pre x post :
  h !! b = Some (Block (pre ++ Raw :: post) 0) → i = length pre →
  construct_at (Addr b i) x (Machine h vs None w)
  = Return () (Machine (<[b := Block (pre ++ Live x :: post) 0]> h) vs None (S w)).
Proof.
  intros Hb Hi. unfold construct_at.
  exec by apply may_throw_calm.
  by eapply emplace_at_middle.
Qed.

Lemma may_throw_tick h vs f w :
  may_throw (Machine h vs f w)
  = match tick f with
    | Some f' => Return () (Machine h vs f' w)
    | None => Throw (Machine h vs None w)
    end.
Proof. by destruct f as [[|k]|]. Qed.

Lemma construct_at_tick h vs f w b i pre x post :
  h !! b = Some (Block (pre ++ Raw :: post) 0) → i = length pre →
  construct_at (Addr b i) x (Machine h vs f w)
  = match tick f with
    | Some f' => Return () (Machine (<[b := Block (pre ++ Live x :: post) 0]> h) vs f' (S w))
    | None => Throw (Machine h vs None w)
    end.
Proof.
  intros Hb Hi. unfold construct_at, bind at 1. rewrite may_throw_tick.
  destruct (tick f); [|done].
  by eapply emplace_at_middle.
Qed.

End Slots.

(** ** Ranges of slots *)

Section Ranges.
Context {T : Type} {E : Element T}.

Local Abbreviation cell := (cell T).
Local Abbreviation block := (block T).

Implicit Types (h : list block) (vs : list Vector) (f : option nat).
Implicit Types (pre post cs : list cell) (xs ys : list T) (x y z : T).
Implicit Types (b i j n w : nat).

Lemma destroy_n_range xs : ∀ h vs f w b i pre post,
  h !! b = Some (Block (pre ++ (Live <$> xs) ++ post) 0) → i = length pre →
  destroy_n (Addr b i) (length xs) (Machine h vs f w)
  = Return () (Machine (<[b := Block (pre ++ replicate (length xs) Raw ++ post) 0]> h)
                       vs f (length xs + w)).
Proof.
  induction xs as [|x xs IH]; intros h vs f w b i pre post Hb Hi; cbn.
  - unfold ret. by rewrite list_insert_id.
  - cbn in Hb.
    exec by (eapply destroy_at_middle; eauto).
    rewrite (IH _ _ _ _ _ _ (pre ++ [Raw]) post).
    + rewrite list_insert_insert_eq, <- snoc_middle.
      do 3 f_equal. lia.
    + rewrite <- snoc_middle. heap_lookup.
    + len.
Qed.


Lemma copy_construct_at_calm h vs w bs bd i j pre post pre' post' x :
  h !! bs = Some (Block (pre ++ Live x :: post) 0) → i = length pre →
  h !! bd = Some (Block (pre' ++ Raw :: post') 0) → j = length pre' →
  copy_construct_at (Addr bd j) (Addr bs i) (Machine h vs None w)
  = Return () (Machine (<[bd := Block (pre' ++ Live x :: post') 0]> h) vs None (S w)).
Proof.
  intros. unfold copy_construct_at.
  exec by (eapply read_middle; eauto).
  exec by apply may_throw_calm.
  by eapply emplace_at_middle.
Qed.

Lemma copy_construct_at_later h vs k w bs bd i j pre post pre' post' x :
  h !! bs = Some (Block (pre ++ Live x :: post) 0) → i = length pre →
  h !! bd = Some (Block (pre' ++ Raw :: post') 0) → j = length pre' →
  copy_construct_at (Addr bd j) (Addr bs i) (Machine h vs (Some (S k)) w)
  = Return () (Machine (<[bd := Block (pre' ++ Live x :: post') 0]> h) vs (Some k) (S w)).
Proof.
  intros. unfold copy_construct_at.
  exec by (eapply read_middle; eauto).
  exec by apply may_throw_later.
  by eapply emplace_at_middle.
Qed.

Lemma copy_construct_at_now h vs w bs bd i j pre post x :
  h !! bs = Some (Block (pre ++ Live x :: post) 0) → i = length pre →
  copy_construct_at (Addr bd j) (Addr bs i) (Machine h vs (Some 0) w)
  = Throw (Machine h vs None w).
Proof.
  intros. unfold copy_construct_at.
  exec by (eapply read_middle; eauto).
  by erewrite bind_Throw; [|apply may_throw_now].
Qed.

(* What [uninitialized_copy_n] comes to for each state of the fuse: with
   fewer than [n] fallible operations left, the copies made are destroyed
   again and the exception leaves the heap as it was. *)
Lemma uninitialized_copy_n_range xs : ∀ h vs f w bs bd i j pre post pre' post',
  bs ≠ bd →
  h !! bs = Some (Block (pre ++ (Live <$> xs) ++ post) 0) → i = length pre →
  h !! bd = Some (Block (pre' ++ replicate (length xs) Raw ++ post') 0) → j = length pre' →
  uninitialized_copy_n (Addr bs i) (length xs) (Addr bd j) (Machine h vs f w)
  = let h' := <[bd := Block (pre' ++ (Live <$> xs) ++ post') 0]> h in
    match f with
    | None => Return () (Machine h' vs None (length xs + w))
    | Some k =>
        if decide (k < length xs)
        then Throw (Machine h vs None (2 * k + w))
        else Return () (Machine h' vs (Some (k - length xs)) (length xs + w))
    end.
Proof.
  induction xs as [|x xs IH];
    intros h vs f w bs bd i j pre post pre' post' Hne Hs Hi Hd Hj;
    cbn [uninitialized_copy_n length ptr_add]; cbn zeta.
  - unfold ret. rewrite list_insert_id by done.
    destruct f as [k|]; [|done].
    rewrite decide_False by lia. do 3 f_equal. lia.
  - cbn in Hs, Hd.
    destruct f as [[|k]|].
    + rewrite decide_True by lia.
      erewrite bind_Throw; [|eapply copy_construct_at_now; eauto].
      do 2 f_equal.
    + exec by (eapply copy_construct_at_later; eauto).
      unfold unwinding, try_catch.
      rewrite (IH _ _ (Some k) _ _ _ _ _ (pre ++ [Live x]) post (pre' ++ [Live x]) post');
        [| done | rewrite <- snoc_middle; heap_lookup | len
         | rewrite <- snoc_middle; heap_lookup | len ].
      cbn zeta. destruct (decide (k < length xs)).
      * rewrite decide_True by lia.
        erewrite bind_Return; [| eapply destroy_at_middle; [heap_lookup | done] ].
        rewrite list_insert_insert_eq, list_insert_id by done.
        unfold throw. do 2 f_equal. lia.
      * rewrite decide_False by lia.
        rewrite list_insert_insert_eq, <- snoc_middle.
        do 2 f_equal. lia.
    + exec by (eapply copy_construct_at_calm; eauto).
      unfold unwinding, try_catch.
      rewrite (IH _ _ None _ _ _ _ _ (pre ++ [Live x]) post (pre' ++ [Live x]) post');
        [| done | rewrite <- snoc_middle; heap_lookup | len
         | rewrite <- snoc_middle; heap_lookup | len ].
      cbn zeta.
      rewrite list_insert_insert_eq, <- snoc_middle.
      do 2 f_equal. lia.
Qed.


Lemma may_throw_unless (g : bool) h vs f w :
  g = true ∨ f = None →
  (if g then ret () else may_throw) (Machine h vs f w) = Return () (Machine h vs f w).
Proof. intros [-> | ->]; [done | by destruct g]. Qed.

Lemma move_construct_at_middle h vs f w bs bd i j pre post pre' post' x :
  bs ≠ bd →
  nothrow_move_constructible = true ∨ f = None →
  h !! bs = Some (Block (pre ++ Live x :: post) 0) → i = length pre →
  h !! bd = Some (Block (pre' ++ Raw :: post') 0) → j = length pre' →
  move_construct_at (Addr bd j) (Addr bs i) (Machine h vs f w)
  = Return () (Machine (<[bd := Block (pre' ++ Live x :: post') 0]>
                         (<[bs := Block (pre ++ Live (moved_from x) :: post) 0]> h))
                       vs f (S (S w))).
Proof.
  intros Hne Hf Hs Hi Hd Hj. unfold move_construct_at.
  exec by (eapply read_middle; eauto).
  exec by (by apply may_throw_unless).
  exec by (eapply emplace_at_middle; eauto).
  erewrite overwrite_middle; [| heap_lookup | done].
  by rewrite list_insert_insert_ne.
Qed.

Lemma uninitialized_move_n_range xs : ∀ h vs f w bs bd i j pre post pre' post',
  bs ≠ bd →
  nothrow_move_constructible = true ∨ f = None →
  h !! bs = Some (Block (pre ++ (Live <$> xs) ++ post) 0) → i = length pre →
  h !! bd = Some (Block (pre' ++ replicate (length xs) Raw ++ post') 0) → j = length pre' →
  uninitialized_move_n (Addr bs i) (length xs) (Addr bd j) (Machine h vs f w)
  = Return () (Machine (<[bd := Block (pre' ++ (Live <$> xs) ++ post') 0]>
                         (<[bs := Block (pre ++ (Live <$> (moved_from <$> xs)) ++ post) 0]> h))
                       vs f (2 * length xs + w)).
Proof.
  induction xs as [|x xs IH];
    intros h vs f w bs bd i j pre post pre' post' Hne Hf Hs Hi Hd Hj;
    cbn [uninitialized_move_n length ptr_add fmap list_fmap app].
  - unfold ret. assert (bd < length h) by eauto using lookup_lt_Some.
    rewrite (list_insert_id (<[bs := _]> h) bd); [by rewrite list_insert_id|].
    heap_lookup.
  - cbn in Hs, Hd.
    exec by (eapply move_construct_at_middle; eauto).
    unfold unwinding, try_catch.
    rewrite (IH _ _ f _ _ _ _ _ (pre ++ [Live (moved_from x)]) post (pre' ++ [Live x]) post');
      [| done | done | rewrite <- snoc_middle; heap_lookup | len
       | rewrite <- snoc_middle; heap_lookup | len ].
    rewrite <- !snoc_middle.
    rewrite (list_insert_insert_ne _ bs bd) by done.
    rewrite list_insert_insert_eq.
    rewrite list_insert_insert_eq.
    do 2 f_equal. lia.
Qed.

Lemma uninitialized_default_construct_n_range n : ∀ h vs w b i pre post,
  h !! b = Some (Block (pre ++ replicate n Raw ++ post) 0) → i = length pre →
  uninitialized_default_construct_n (Addr b i) n (Machine h vs None w)
  = Return () (Machine (<[b := Block (pre ++ (Live <$> replicate n default_init) ++ post) 0]> h)
                       vs None (n + w)).
Proof.
  induction n as [|n IH]; intros h vs w b i pre post Hb Hi;
    cbn [uninitialized_default_construct_n replicate ptr_add fmap list_fmap app].
  - unfold ret. by rewrite list_insert_id.
  - cbn in Hb.
    exec by (eapply construct_at_middle; eauto).
    unfold unwinding, try_catch.
    rewrite (IH _ _ _ _ _ (pre ++ [Live default_init]) post);
      [| rewrite <- snoc_middle; heap_lookup | len ].
    rewrite list_insert_insert_eq, <- snoc_middle.
    do 2 f_equal. lia.
Qed.

Lemma move_assign_down h vs f w b i i' pre post x y :
  nothrow_move_assignable = true ∨ f = None →
  h !! b = Some (Block (pre ++ Live y :: Live x :: post) 0) →
  i = length pre → i' = S i →
  move_assign (Addr b i) (Addr b i') (Machine h vs f w)
  = Return () (Machine (<[b := Block (pre ++ Live x :: Live (moved_from x) :: post) 0]> h)
                       vs f (S (S w))).
Proof.
  intros Hf Hb Hi Hi'. unfold move_assign.
  exec by (eapply (read_middle _ _ _ _ _ _ (pre ++ [Live y]));
           [rewrite <- snoc_middle; eauto | len]).
  exec by (by apply may_throw_unless).
  exec by (eapply overwrite_middle; eauto).
  erewrite (overwrite_middle _ _ _ _ _ _ (pre ++ [Live x]));
    [| rewrite <- snoc_middle; heap_lookup | len ].
  by rewrite list_insert_insert_eq, <- snoc_middle.
Qed.

Lemma move_assign_up h vs f w b i i' pre post x y :
  nothrow_move_assignable = true ∨ f = None →
  h !! b = Some (Block (pre ++ Live x :: Live y :: post) 0) →
  i = length pre → i' = S i →
  move_assign (Addr b i') (Addr b i) (Machine h vs f w)
  = Return () (Machine (<[b := Block (pre ++ Live (moved_from x) :: Live x :: post) 0]> h)
                       vs f (S (S w))).
Proof.
  intros Hf Hb Hi Hi'. unfold move_assign.
  exec by (eapply read_middle; eauto).
  exec by (by apply may_throw_unless).
  exec by (eapply (overwrite_middle _ _ _ _ _ _ (pre ++ [Live x]));
           [rewrite <- snoc_middle; eauto | len]).
  erewrite overwrite_middle; [| rewrite <- snoc_middle; heap_lookup | done ].
  by rewrite list_insert_insert_eq.
Qed.

Lemma move_loop_range xs : ∀ h vs f w b i i' pre post x0,
  nothrow_move_assignable = true ∨ f = None →
  h !! b = Some (Block (pre ++ Live x0 :: (Live <$> xs) ++ post) 0) →
  i = length pre → i' = S i →
  move_loop (Addr b i') (length xs) (Addr b i) (Machine h vs f w)
  = Return () (Machine (<[b := Block (pre ++ (Live <$> xs) ++ Live (left_behind x0 xs) :: post) 0]> h)
                       vs f (2 * length xs + w)).
Proof.
  induction xs as [|x xs IH]; intros h vs f w b i i' pre post x0 Hf Hb Hi Hi';
    cbn [move_loop length ptr_add fmap list_fmap app left_behind].
  - unfold ret. by rewrite list_insert_id.
  - cbn in Hb.
    exec by (eapply move_assign_down; eauto).
    rewrite (IH _ _ _ _ _ (i + 1) _ (pre ++ [Live x]) post (moved_from x));
      [| done | rewrite <- snoc_middle; heap_lookup | len | lia ].
    rewrite list_insert_insert_eq, <- snoc_middle.
    do 2 f_equal. lia.
Qed.

Lemma move_backward_loop_range ys : ∀ h vs f w b i i' pre post z,
  nothrow_move_assignable = true ∨ f = None →
  h !! b = Some (Block (pre ++ (Live <$> ys) ++ Live z :: post) 0) →
  i = length pre + length ys → i' = S i →
  move_backward_loop (length ys) (Addr b i) (Addr b i') (Machine h vs f w)
  = Return () (Machine (<[b := Block (pre ++ Live (hole z ys) :: (Live <$> ys) ++ post) 0]> h)
                       vs f (2 * length ys + w)).
Proof.
  induction ys as [|y ys IH] using rev_ind; intros h vs f w b i i' pre post z Hf Hb Hi Hi'.
  - cbn. unfold ret. by rewrite list_insert_id.
  - rewrite length_app. cbn [length].
    replace (length ys + 1) with (S (length ys)) by lia.
    cbn [move_backward_loop].
    rewrite length_app in Hi. cbn in Hi.
    rewrite fmap_app, <- app_assoc in Hb. cbn in Hb.
    assert (ptr_sub (Addr b i) 1 = Some (Addr b (length pre + length ys))) as Hp.
    { cbn. destruct i; [lia|]. cbn. do 2 f_equal. lia. }
    assert (ptr_sub (Addr b i') 1 = Some (Addr b i)) as Hp'.
    { subst i'. cbn. do 2 f_equal. lia. }
    rewrite Hp, Hp'. cbn [of_option].
    rewrite (bind_Return _ _ _ _ _ eq_refl).
    rewrite (bind_Return _ _ _ _ _ eq_refl).
    exec by (eapply (move_assign_up _ _ _ _ _ _ _ (pre ++ (Live <$> ys)));
             [done | rewrite <- app_assoc; eauto | len | lia ]).
    rewrite (IH _ _ _ _ _ _ i pre (Live y :: post) (moved_from y));
      [| done | rewrite <- app_assoc; heap_lookup | done | lia ].
    rewrite list_insert_insert_eq.
    rewrite fmap_app, <- app_assoc. cbn [fmap list_fmap app].
    do 2 f_equal; [|lia]. do 4 f_equal.
    by destruct ys.
Qed.

End Ranges.

(** ** The object store and RawMemory *)

Section Objects.
Context {T : Type} {E : Element T}.

Local Abbreviation cell := (cell T).
Local Abbreviation block := (block T).

Implicit Types (h : list block) (vs : list Vector) (f : option nat).
Implicit Types (xs ys : list T) (x y z : T) (r : Vector) (d : RawMemory).
Implicit Types (b i j n w v : nat).

Lemma get_vector_ok h vs f w v r :
  vs !! v = Some r →
  get_vector v (Machine h vs f w) = Return r (Machine h vs f w).
Proof. intros Hv. unfold get_vector. cbn. by rewrite Hv. Qed.

Lemma set_vector_ok h vs f w v r r' :
  vs !! v = Some r →
  set_vector v r' (Machine h vs f w) = Return () (Machine h (<[v := r']> vs) f w).
Proof.
  intros Hv. unfold set_vector. cbn.
  by rewrite decide_True by eauto using lookup_lt_Some.
Qed.

Lemma set_data_ok h vs f w v r d :
  vs !! v = Some r →
  set_data v d (Machine h vs f w)
  = Return () (Machine h (<[v := mkVector d (size_ r)]> vs) f w).
Proof.
  intros Hv. unfold set_data.
  exec by (by apply get_vector_ok).
  by eapply set_vector_ok.
Qed.

Lemma set_size_ok h vs f w v r n :
  vs !! v = Some r →
  set_size v n (Machine h vs f w)
  = Return () (Machine h (<[v := mkVector (data_ r) n]> vs) f w).
Proof.
  intros Hv. unfold set_size.
  exec by (by apply get_vector_ok).
  by eapply set_vector_ok.
Qed.

Lemma allocated_no_wrap n : no_wrap n → allocated n = n.
Proof.
  unfold no_wrap, allocated, byte_count. intros Hn.
  rewrite N.mod_small by done.
  rewrite N.div_mul by done.
  apply Nat2N.id.
Qed.

(* The constructor [RawMemory(n)] for [n] other than 0: a block at a new
   address, of as many slots as fit in the bytes requested. *)
Lemma RawMemory_new_allocated h vs f w n :
  n ≠ 0 →
  RawMemory_new n (Machine h vs f w)
  = Return (mkRawMemory (Addr (length h) 0) n)
           (Machine (h ++ [Block (replicate (allocated n) Raw) 0]) vs f w).
Proof.
  intros Hn. unfold RawMemory_new, RawMemory_Allocate.
  by destruct n.
Qed.

Lemma RawMemory_new_ok h vs f w n :
  n ≠ 0 → no_wrap n →
  RawMemory_new n (Machine h vs f w)
  = Return (mkRawMemory (Addr (length h) 0) n)
           (Machine (h ++ [Block (replicate n Raw) 0]) vs f w).
Proof.
  intros Hn Hfit. rewrite RawMemory_new_allocated by done.
  by rewrite allocated_no_wrap.
Qed.

Lemma RawMemory_new_zero h vs f w :
  RawMemory_new 0 (Machine h vs f w)
  = Return (mkRawMemory nullptr 0) (Machine h vs f w).
Proof. done. Qed.

Lemma RawMemory_for_elements_ok h vs f w n :
  n ≠ 0 →
  RawMemory_for_elements n (Machine h vs f w)
  = Return (mkRawMemory (Addr (length h) 0) n)
           (Machine (h ++ [Block (replicate n Raw) 0]) vs f w).
Proof.
  intros Hn. unfold RawMemory_for_elements.
  by destruct n.
Qed.

Lemma RawMemory_for_elements_zero h vs f w :
  RawMemory_for_elements 0 (Machine h vs f w)
  = Return (mkRawMemory nullptr 0) (Machine h vs f w).
Proof. done. Qed.

(* Where [n * sizeof(T)] does not wrap, the constructor allocates [n]
   slots. *)
Lemma RawMemory_new_for_elements n (m : machine T) :
  no_wrap n → RawMemory_new n m = RawMemory_for_elements n m.
Proof.
  intros Hn. destruct m as [h vs f w].
  destruct (decide (n = 0)) as [-> | Hne]; [done|].
  by rewrite RawMemory_new_ok, RawMemory_for_elements_ok.
Qed.

Lemma RawMemory_dtor_block h vs f w b cap cs k :
  h !! b = Some (Block cs k) →
  RawMemory_dtor (mkRawMemory (Addr b 0) cap) (Machine h vs f w)
  = Return () (Machine (<[b := Block cs (S k)]> h) vs f w).
Proof.
  intros Hb. unfold RawMemory_dtor, RawMemory_Deallocate, operator_delete. cbn.
  by rewrite Hb.
Qed.

Lemma RawMemory_dtor_null h vs f w cap :
  RawMemory_dtor (mkRawMemory nullptr cap) (Machine h vs f w)
  = Return () (Machine h vs f w).
Proof. done. Qed.

(* Swap exchanges the members of the two objects and touches nothing else;
   the statement covers [this = other]. *)
Lemma Swap_ok h vs f w v o (a c : Vector) :
  vs !! v = Some a → vs !! o = Some c →
  Swap v o (Machine h vs f w)
  = Return () (Machine h (<[o := a]> (<[v := c]> vs)) f w).
Proof.
  intros Hv Ho. unfold Swap.
  assert (v < length vs) by eauto using lookup_lt_Some.
  assert (o < length vs) by eauto using lookup_lt_Some.
  exec by (by apply get_vector_ok).
  exec by (by apply get_vector_ok).
  destruct a as [[ba ca] sa], c as [[bc cc] sc]. cbn [RawMemory_Swap data_ size_ buffer_ capacity_].
  exec by (by eapply set_data_ok).
  destruct (decide (v = o)) as [<- | Hne].
  - assert (bc = ba ∧ cc = ca ∧ sc = sa) as (-> & -> & ->) by (split_and!; congruence).
    exec by (eapply set_data_ok; heap_lookup).
    exec by (eapply set_size_ok; heap_lookup).
    erewrite set_size_ok by heap_lookup.
    by rewrite !list_insert_insert_eq.
  - exec by (eapply set_data_ok; heap_lookup).
    exec by (eapply set_size_ok; heap_lookup).
    erewrite set_size_ok by heap_lookup.
    cbn. do 2 f_equal.
    rewrite (list_insert_insert_ne _ v o) by done.
    by rewrite !list_insert_insert_eq.
Qed.

Lemma holds_inv h buf cap sz xs :
  holds h (mkVector (mkRawMemory buf cap) sz) xs →
  sz = length xs ∧ length xs ≤ cap ∧
  ((buf = nullptr ∧ cap = 0 ∧ xs = []) ∨
   (∃ b, buf = Addr b 0 ∧ b < length h ∧ h !! b = Some (Block (arena cap xs) 0))).
Proof.
  intros (Hsz & Hle & Hbuf). cbn in *. split_and!; [done..|].
  destruct buf as [|b i].
  - left. subst cap. destruct xs; [done | cbn in Hle; lia].
  - right. destruct Hbuf as [-> Hb]. eauto using lookup_lt_Some.
Qed.

End Objects.

(** ** Reallocation *)

Section Reallocation.
Context {T : Type} {E : Element T}.

Local Abbreviation cell := (cell T).
Local Abbreviation block := (block T).

Implicit Types (h : list block) (vs : list Vector) (f : option nat).
Implicit Types (pre post : list cell) (xs ys : list T) (x y z : T) (r : Vector).
Implicit Types (b i j n w v : nat).

Lemma MoveData_zero (p q : ptr) (m : machine T) :
  MoveDataIfPossibleOrCopyInstead p 0 q m = Return () m.
Proof. unfold MoveDataIfPossibleOrCopyInstead. by destruct (_ || _). Qed.

(* The two ways a transfer of elements into a new block ends, for an
   element type that cannot throw when moved or that can be copied.
   Either it returns: the destination holds the elements, the source slots
   stay live (moved from or not).  Or a copy throws: the heap is as before
   the transfer. *)
Lemma MoveData_outcome xs h vs f w bs bd i j pre post pre' post' :
  bs ≠ bd →
  nothrow_move_constructible = true ∨ copy_constructible = true ∨ f = None →
  h !! bs = Some (Block (pre ++ (Live <$> xs) ++ post) 0) → i = length pre →
  h !! bd = Some (Block (pre' ++ replicate (length xs) Raw ++ post') 0) → j = length pre' →
  (∃ ys f' w', length ys = length xs ∧ spent f f' ∧
     MoveDataIfPossibleOrCopyInstead (Addr bs i) (length xs) (Addr bd j) (Machine h vs f w)
     = Return () (Machine (<[bd := Block (pre' ++ (Live <$> xs) ++ post') 0]>
                            (<[bs := Block (pre ++ (Live <$> ys) ++ post) 0]> h))
                          vs f' w'))
  ∨ (∃ w', f ≠ None ∧ nothrow_move_constructible = false ∧
     MoveDataIfPossibleOrCopyInstead (Addr bs i) (length xs) (Addr bd j) (Machine h vs f w)
     = Throw (Machine h vs None w')).
Proof.
  intros Hne Hf Hs Hi Hd Hj. unfold MoveDataIfPossibleOrCopyInstead.
  destruct (nothrow_move_constructible || negb copy_constructible) eqn:Hsel.
  - left. exists (moved_from <$> xs), f, (2 * length xs + w).
    split_and!; [by rewrite length_fmap | done | ].
    apply uninitialized_move_n_range; try done.
    destruct nothrow_move_constructible, copy_constructible;
      cbn in Hsel; try discriminate; destruct Hf as [?|[?|?]]; auto; discriminate.
  - apply orb_false_iff in Hsel as [Hnt _].
    rewrite (uninitialized_copy_n_range xs _ _ f _ _ _ _ _ pre post pre' post') by done.
    cbn zeta.
    destruct f as [k|]; [destruct (decide (k < length xs))|].
    + right. eauto.
    + left. exists xs, (Some (k - length xs)), (length xs + w).
      rewrite (list_insert_id h bs) by done.
      split_and!; [done | split; [done | by rewrite Hnt] | done].
    + left. exists xs, None, (length xs + w).
      rewrite (list_insert_id h bs) by done. split_and!; done.
Qed.

(* The two ways [Reserve] ends when it has to reallocate: with the
   elements in a new block of exactly [n] slots and the old block emptied
   and released, or, a copy having thrown, with every block and every
   Vector as before, the new block emptied and released. *)
Lemma Reserve_outcome h vs f w v r xs n :
  vs !! v = Some r → holds h r xs →
  capacity_ (data_ r) < n → no_wrap n →
  nothrow_move_constructible = true ∨ copy_constructible = true ∨ f = None →
  (∃ f' w', spent f f' ∧
    Reserve v n (Machine h vs f w)
    = Return () (Machine (released (buffer_ (data_ r)) (capacity_ (data_ r))
                                   (h ++ [Block (arena n xs) 0]))
                         (<[v := mkVector (mkRawMemory (Addr (length h) 0) n) (size_ r)]> vs)
                         f' w'))
  ∨ (∃ w', f ≠ None ∧ nothrow_move_constructible = false ∧
    Reserve v n (Machine h vs f w)
    = Throw (Machine (h ++ [Block (replicate n Raw) 1]) vs None w')).
Proof.
  intros Hv Hr Hn Hfit Hf. destruct r as [[buf cap] sz]. cbn in Hn |- *.
  apply holds_inv in Hr as (-> & Hle & [(-> & -> & ->) | (b & -> & Hlt & Hb)]).
  - left. exists f, w. split; [done|]. unfold Reserve.
    exec by (by apply get_vector_ok).
    cbn [data_ RawMemory_Capacity capacity_ size_ Size buffer_ GetAddress length].
    rewrite (proj2 (Nat.leb_gt _ _)) by lia.
    exec by (apply RawMemory_new_ok; [lia | done]).
    exec by (apply MoveData_zero).
    cbn [destroy_n].
    exec by reflexivity.
    cbn [RawMemory_Swap buffer_ capacity_].
    exec by (by eapply set_data_ok).
    unfold arena. cbn. by rewrite Nat.sub_0_r.
  - set (h1 := h ++ [Block (replicate n Raw) 0]).
    assert (h1 !! b = Some (Block ([] ++ (Live <$> xs) ++ replicate (cap - length xs) Raw) 0))
      as Hs by (subst h1; heap_lookup).
    assert (h1 !! length h
            = Some (Block ([] ++ replicate (length xs) Raw ++ replicate (n - length xs) Raw) 0))
      as Hd.
    { subst h1. cbn [app]. rewrite <- replicate_add.
      replace (length xs + (n - length xs)) with n by lia. heap_lookup. }
    destruct (MoveData_outcome xs h1 vs f w b (length h) 0 0 _ _ _ _
                ltac:(lia) Hf Hs eq_refl Hd eq_refl)
      as [(ys & f' & w' & Hys & Hsp & Hmove) | (w' & Hsome & Hnt & Hmove)].
    + left. exists f', (length ys + w'). split; [done|]. unfold Reserve.
      exec by (by apply get_vector_ok).
      cbn [data_ RawMemory_Capacity capacity_ size_ Size buffer_ GetAddress].
      rewrite (proj2 (Nat.leb_gt _ _)) by lia.
      exec by (apply RawMemory_new_ok; [lia | done]).
      cbn [buffer_ GetAddress].
      exec by exact Hmove.
      rewrite <- Hys.
      exec by (eapply (destroy_n_range ys _ _ _ _ _ _ []); [subst h1; heap_lookup | done]).
      cbn [RawMemory_Swap buffer_ capacity_].
      exec by (by eapply set_data_ok).
      erewrite RawMemory_dtor_block by (subst h1; heap_lookup).
      cbn [released app size_]. rewrite Hys. do 2 f_equal.
      rewrite !list_insert_insert_eq.
      rewrite (list_insert_insert_ne _ b (length h)) by lia.
      rewrite list_insert_insert_eq.
      rewrite (list_insert_insert_ne _ (length h) b) by lia.
      subst h1. rewrite (insert_middle h []).
      rewrite <- replicate_add. unfold arena.
      do 3 f_equal. lia.
    + right. exists w'. split_and!; [done..|]. unfold Reserve.
      exec by (by apply get_vector_ok).
      cbn [data_ RawMemory_Capacity capacity_ size_ Size buffer_ GetAddress].
      rewrite (proj2 (Nat.leb_gt _ _)) by lia.
      exec by (apply RawMemory_new_ok; [lia | done]).
      cbn [buffer_ GetAddress].
      erewrite bind_Throw; [done|].
      eapply unwinding_Throw; [exact Hmove|].
      erewrite RawMemory_dtor_block by (subst h1; heap_lookup).
      subst h1. rewrite (insert_middle h []). cbn [app].
      rewrite <- replicate_add.
      by replace (length xs + (n - length xs)) with n by lia.
Qed.

Lemma spent_calm f f' :
  nothrow_move_constructible = true ∨ f = None → spent f f' → f' = f.
Proof. intros [Hnt | ->] [H1 H2]; [by apply H2 | by rewrite H1]. Qed.

(* The data members of [this] and the heap after a reallocation to
   capacity [n] during which nothing throws. *)
Lemma Reserve_grow h vs f w v r xs n :
  vs !! v = Some r → holds h r xs →
  capacity_ (data_ r) < n → no_wrap n →
  nothrow_move_constructible = true ∨ f = None →
  ∃ w',
    Reserve v n (Machine h vs f w)
    = Return () (Machine (released (buffer_ (data_ r)) (capacity_ (data_ r))
                                   (h ++ [Block (arena n xs) 0]))
                         (<[v := mkVector (mkRawMemory (Addr (length h) 0) n) (size_ r)]> vs)
                         f w').
Proof.
  intros Hv Hr Hn Hfit Hf.
  assert (nothrow_move_constructible = true ∨ copy_constructible = true ∨ f = None)
    as Hf' by tauto.
  destruct (Reserve_outcome h vs f w v r xs n Hv Hr Hn Hfit Hf')
    as [(f' & w' & Hsp & Hrun) | (w' & Hsome & Hnt & _)].
  - rewrite (spent_calm f f' Hf Hsp) in Hrun. eauto.
  - destruct Hf; congruence.
Qed.

Lemma Reserve_noop h vs f w v r n :
  vs !! v = Some r → n ≤ capacity_ (data_ r) →
  Reserve v n (Machine h vs f w) = Return () (Machine h vs f w).
Proof.
  intros Hv Hn. unfold Reserve.
  exec by (by apply get_vector_ok).
  unfold RawMemory_Capacity. by rewrite (proj2 (Nat.leb_le _ _)) by lia.
Qed.

End Reallocation.
(** ** Reserve for every request, also one whose byte count wraps *)

Section AnyRequest.
Context {T : Type} {E : Element T}.

Local Abbreviation cell := (cell T).
Local Abbreviation block := (block T).
Local Abbreviation M := (M T).

Implicit Types (h : list block) (vs : list Vector) (f : option nat).
Implicit Types (cs pre post : list cell) (xs ys : list T) (x y z : T) (r : Vector).
Implicit Types (b i j n w v : nat) (p q : ptr).

Lemma bind_Fault {A B} (c : M A) (k : A → M B) m :
  c m = Fault → bind c k m = Fault.
Proof. unfold bind. by intros ->. Qed.

Lemma unwinding_Fault {A} (c : M A) cleanup m :
  c m = Fault → unwinding c cleanup m = Fault.
Proof. unfold unwinding, try_catch. by intros ->. Qed.

(* How a sequence can end with an exception. *)
Lemma bind_Throw_inv {A B} (c : M A) (k : A → M B) m m' :
  bind c k m = Throw m' →
  c m = Throw m' ∨ ∃ a m1, c m = Return a m1 ∧ k a m1 = Throw m'.
Proof.
  unfold bind. destruct (c m) as [a m1| m1 |]; [eauto | | done].
  intros [= ->]. by left.
Qed.

Lemma unwinding_Throw_inv {A} (c : M A) cleanup m m' :
  unwinding c cleanup m = Throw m' →
  ∃ m1 m2, c m = Throw m1 ∧
    ((cleanup m1 = Return () m2 ∧ m' = m2) ∨ (cleanup m1 = Throw m' ∧ m2 = m1)).
Proof.
  unfold unwinding, try_catch, bind, throw.
  destruct (c m) as [a m1| m1 |]; [done | | done].
  destruct (cleanup m1) as [[] m2| m2 |] eqn:Hc; [| | done].
  - intros [= <-]. exists m1, m2. split; [done|]. by left.
  - intros [= <-]. exists m1, m1. split; [done|]. by right.
Qed.

(** What cannot throw *)

Lemma never_throws_bind {A B} (c : M A) (k : A → M B) :
  never_throws c → (∀ a, never_throws (k a)) → never_throws (bind c k).
Proof.
  intros Hc Hk m m' Hrun.
  apply bind_Throw_inv in Hrun as [Hrun | (a & m1 & _ & Hrun)].
  - by apply Hc in Hrun.
  - by apply Hk in Hrun.
Qed.

Lemma never_throws_ret {A} (a : A) : never_throws (ret a : M A).
Proof. by intros m m'. Qed.

Lemma never_throws_fault {A} : never_throws (fault : M A).
Proof. by intros m m'. Qed.

Lemma never_throws_count_op : never_throws (count_op : M unit).
Proof. by intros m m'. Qed.

Lemma never_throws_load p : never_throws (load p : M cell).
Proof. intros m m'. unfold load. by repeat case_match. Qed.

Lemma never_throws_store p (c : cell) : never_throws (store p c).
Proof. intros m m'. unfold store. by repeat case_match. Qed.

Lemma never_throws_read p : never_throws (read p : M T).
Proof.
  apply never_throws_bind; [apply never_throws_load|].
  intros [|x]; [apply never_throws_fault | apply never_throws_ret].
Qed.

Lemma never_throws_emplace_at p x : never_throws (emplace_at p x).
Proof.
  apply never_throws_bind; [apply never_throws_load|].
  intros [|y]; [|apply never_throws_fault].
  apply never_throws_bind; [apply never_throws_store | intros; apply never_throws_count_op].
Qed.

Lemma never_throws_overwrite p x : never_throws (overwrite p x).
Proof.
  apply never_throws_bind; [apply never_throws_load|].
  intros [|y]; [apply never_throws_fault|].
  apply never_throws_bind; [apply never_throws_store | intros; apply never_throws_count_op].
Qed.

Lemma never_throws_destroy_at p : never_throws (destroy_at p : M unit).
Proof.
  apply never_throws_bind; [apply never_throws_load|].
  intros [|y]; [apply never_throws_fault|].
  apply never_throws_bind; [apply never_throws_store | intros; apply never_throws_count_op].
Qed.

Lemma never_throws_destroy_n n : ∀ p, never_throws (destroy_n p n : M unit).
Proof.
  induction n as [|n IH]; intros p; cbn [destroy_n]; [apply never_throws_ret|].
  apply never_throws_bind; [apply never_throws_destroy_at | intros; apply IH].
Qed.

Lemma never_throws_unwinding {A} (c : M A) cleanup :
  never_throws c → never_throws (unwinding c cleanup).
Proof.
  intros Hc m m' Hrun.
  apply unwinding_Throw_inv in Hrun as (m1 & m2 & Hrun & _). by apply Hc in Hrun.
Qed.

Lemma never_throws_get_vector v : never_throws (get_vector v : M Vector).
Proof. intros m m'. unfold get_vector. by case_match. Qed.

Lemma never_throws_set_vector v r : never_throws (set_vector v r : M unit).
Proof. intros m m'. unfold set_vector. by case_match. Qed.

Lemma never_throws_set_data v (d : RawMemory) : never_throws (set_data v d : M unit).
Proof.
  apply never_throws_bind; [apply never_throws_get_vector|].
  intros; apply never_throws_set_vector.
Qed.

Lemma never_throws_RawMemory_dtor (d : RawMemory) : never_throws (RawMemory_dtor d : M unit).
Proof.
  intros m m'. unfold RawMemory_dtor, RawMemory_Deallocate, operator_delete.
  by repeat case_match.
Qed.

(* A move constructor declared noexcept: the transfer by moves cannot
   throw. *)
Lemma never_throws_uninitialized_move_n n :
  nothrow_move_constructible = true → ∀ p q, never_throws (uninitialized_move_n p n q).
Proof.
  intros Hnt. induction n as [|n IH]; intros p q; cbn [uninitialized_move_n];
    [apply never_throws_ret|].
  apply never_throws_bind.
  - unfold move_construct_at. rewrite Hnt.
    apply never_throws_bind; [apply never_throws_read | intros x].
    apply never_throws_bind; [apply never_throws_ret | intros _].
    apply never_throws_bind; [apply never_throws_emplace_at | intros _].
    apply never_throws_overwrite.
  - intros _. apply never_throws_unwinding, IH.
Qed.

(** The transfer by copies: a throw leaves memory as it was *)

(* The ways one copy construction ends. *)
Lemma copy_construct_at_inv (dst src : ptr) h vs f w :
  match copy_construct_at dst src (Machine h vs f w) with
  | Throw m' => m' = Machine h vs None w
  | Return _ m2 =>
      ∃ b i cs x f', dst = Addr b i ∧ h !! b = Some (Block cs 0) ∧ cs !! i = Some Raw ∧
        m2 = Machine (<[b := Block (<[i := Live x]> cs) 0]> h) vs f' (S w)
  | Fault => True
  end.
Proof.
  unfold copy_construct_at, read, emplace_at, bind, load, may_throw, store, count_op, ret, fault.
  cbn [heap vecs fuse elem_ops].
  destruct src as [|bs i]; [done|].
  destruct (h !! bs) as [[cs [|k]]|]; [|done..].
  destruct (cs !! i) as [[|x]|]; [done | | done].
  destruct dst as [|b j];
    [by destruct f as [[|k]|] |].
  destruct f as [[|k]|]; cbn [heap vecs fuse elem_ops]; [done | |].
  - destruct (h !! b) as [[cd [|kd]]|] eqn:Hb; [|done..].
    destruct (cd !! j) as [[|y]|] eqn:Hj; [|done..].
    cbn [heap vecs fuse elem_ops]. rewrite Hb.
    rewrite decide_True by eauto using lookup_lt_Some.
    cbn [heap vecs fuse elem_ops]. eauto 10.
  - destruct (h !! b) as [[cd [|kd]]|] eqn:Hb; [|done..].
    destruct (cd !! j) as [[|y]|] eqn:Hj; [|done..].
    cbn [heap vecs fuse elem_ops]. rewrite Hb.
    rewrite decide_True by eauto using lookup_lt_Some.
    cbn [heap vecs fuse elem_ops]. eauto 10.
Qed.

(* Destroying the object that was just built in a raw slot gives the block
   back as it was. *)
Lemma destroy_at_undoes h vs f w b i cs x :
  h !! b = Some (Block cs 0) → cs !! i = Some Raw →
  destroy_at (Addr b i) (Machine (<[b := Block (<[i := Live x]> cs) 0]> h) vs f w)
  = Return () (Machine h vs f (S w)).
Proof.
  intros Hb Hi.
  assert (b < length h) by eauto using lookup_lt_Some.
  assert (i < length cs) by eauto using lookup_lt_Some.
  unfold destroy_at, bind, load. cbn [heap vecs fuse elem_ops].
  rewrite list_lookup_insert_eq by done.
  rewrite list_lookup_insert_eq by done.
  unfold store, count_op. cbn [heap vecs fuse elem_ops].
  rewrite list_lookup_insert_eq by done.
  rewrite decide_True by (by rewrite length_insert).
  cbn [heap vecs fuse elem_ops].
  rewrite !list_insert_insert_eq.
  by rewrite (list_insert_id cs), list_insert_id.
Qed.

Lemma uninitialized_copy_n_restores n : ∀ (first d : ptr) h vs f w m',
  uninitialized_copy_n first n d (Machine h vs f w) = Throw m' →
  heap m' = h ∧ vecs m' = vs.
Proof.
  induction n as [|n IH]; intros first d h vs f w m' Hrun; cbn [uninitialized_copy_n] in Hrun;
    [done|].
  pose proof (copy_construct_at_inv d first h vs f w) as Hone.
  apply bind_Throw_inv in Hrun as [Hrun | ([] & m1 & Hfirst & Hrun)].
  - rewrite Hrun in Hone. by subst m'.
  - rewrite Hfirst in Hone.
    destruct Hone as (b & i & cs & x & f' & -> & Hb & Hi & ->).
    apply unwinding_Throw_inv in Hrun as (m2 & m3 & Hrest & Hclean).
    destruct m2 as [h2 vs2 f2 w2].
    apply IH in Hrest as [Hh Hvs]. cbn in Hh, Hvs. subst h2 vs2.
    rewrite (destroy_at_undoes h vs f2 w2 b i cs x Hb Hi) in Hclean.
    destruct Hclean as [[[= <-] ->] | [? _]]; done.
Qed.

(** Reserve *)

(* When [Reserve(n)] has to reallocate and ends with an exception, for an
   element type that cannot throw when moved or that can be copied: every
   Vector and every block that existed is as before, and the block
   [RawMemory(n)] allocated is all raw again and released once.  That block
   has fewer than [n] slots when [n * sizeof(T)] wraps. *)
Lemma Reserve_throw_restores h vs f w v r n m' :
  vs !! v = Some r →
  capacity_ (data_ r) < n →
  nothrow_move_constructible = true ∨ copy_constructible = true →
  Reserve v n (Machine h vs f w) = Throw m' →
  vecs m' = vs ∧ heap m' = h ++ [Block (replicate (allocated n) Raw) 1].
Proof.
  intros Hv Hn Htraits Hrun. unfold Reserve in Hrun.
  rewrite (bind_Return _ _ _ _ _ (get_vector_ok h vs f w v r Hv)) in Hrun.
  unfold RawMemory_Capacity in Hrun.
  rewrite (proj2 (Nat.leb_gt _ _)) in Hrun by lia.
  rewrite (bind_Return _ _ _ _ _ (RawMemory_new_allocated h vs f w n ltac:(lia))) in Hrun.
  apply bind_Throw_inv in Hrun as [Hrun | ([] & m1 & _ & Hrest)].
  - apply unwinding_Throw_inv in Hrun as (m1 & m2 & Hmove & Hclean).
    assert (heap m1 = h ++ [Block (replicate (allocated n) Raw) 0] ∧ vecs m1 = vs)
      as [Hh1 Hvs1].
    { unfold MoveDataIfPossibleOrCopyInstead in Hmove.
      destruct (nothrow_move_constructible || negb copy_constructible) eqn:Hsel.
      - assert (nothrow_move_constructible = true) as Hnt.
        { destruct nothrow_move_constructible, copy_constructible;
            cbn in Hsel; try done; destruct Htraits; done. }
        by apply never_throws_uninitialized_move_n in Hmove.
      - by apply uninitialized_copy_n_restores in Hmove. }
    destruct m1 as [h1 vs1 f1 w1]. cbn in Hh1, Hvs1. subst h1 vs1.
    cbn [GetAddress buffer_] in Hclean.
    erewrite RawMemory_dtor_block in Hclean by heap_lookup.
    destruct Hclean as [[[= <-] ->] | [? _]]; [|done].
    cbn. split; [done|]. by rewrite (insert_middle h []).
  - exfalso. revert Hrest.
    apply never_throws_bind; [apply never_throws_destroy_n | intros _].
    destruct (RawMemory_Swap _ _) as [d nd].
    apply never_throws_bind; [apply never_throws_set_data | intros _].
    apply never_throws_RawMemory_dtor.
Qed.

(* A request whose byte count wraps to less than one element, on a vector
   that holds an element: the first element is transferred to a block
   without room for it. *)
Lemma Reserve_overrun h vs w v r x xs n :
  vs !! v = Some r → holds h r (x :: xs) →
  capacity_ (data_ r) < n → allocated n = 0 →
  Reserve v n (Machine h vs None w) = Fault.
Proof.
  intros Hv Hr Hn Hzero. destruct r as [[buf cap] sz].
  apply holds_inv in Hr as (-> & Hle & [(_ & _ & [=]) | (b & -> & Hlt & Hb)]).
  cbn in Hn. unfold Reserve.
  exec by (by apply get_vector_ok).
  cbn [data_ RawMemory_Capacity capacity_ size_ Size buffer_ GetAddress length].
  rewrite (proj2 (Nat.leb_gt _ _)) by lia.
  exec by (apply RawMemory_new_allocated; lia).
  rewrite Hzero. cbn [replicate GetAddress buffer_].
  apply bind_Fault, unwinding_Fault.
  assert (read (Addr b 0) (Machine (h ++ [Block [] 0]) vs None w)
          = Return x (Machine (h ++ [Block [] 0]) vs None w)) as Hread.
  { eapply (read_middle _ _ _ _ _ _ []); [|done].
    rewrite lookup_app_l by done. exact Hb. }
  assert (∀ w0, emplace_at (Addr (length h) 0) x (Machine (h ++ [Block [] 0]) vs None w0)
                = Fault) as Hfull.
  { intros w0. unfold emplace_at. apply bind_Fault.
    unfold load. cbn [heap]. by rewrite list_lookup_middle. }
  unfold MoveDataIfPossibleOrCopyInstead.
  destruct (_ || _); cbn [uninitialized_move_n uninitialized_copy_n];
    apply bind_Fault.
  - unfold move_construct_at.
    exec by exact Hread.
    exec by (by destruct nothrow_move_constructible).
    apply bind_Fault, Hfull.
  - unfold copy_construct_at.
    exec by exact Hread.
    exec by reflexivity.
    apply Hfull.
Qed.

Lemma Resize_overrun h vs w v r x xs n :
  vs !! v = Some r → holds h r (x :: xs) →
  capacity_ (data_ r) < n → allocated n = 0 →
  Resize v n (Machine h vs None w) = Fault.
Proof.
  intros Hv Hr Hn Hzero. unfold Resize.
  by apply bind_Fault, (Reserve_overrun _ _ _ _ r x xs).
Qed.

End AnyRequest.

(** ** Append *)

Section Append.
Context {T : Type} {E : Element T}.

Local Abbreviation cell := (cell T).
Local Abbreviation block := (block T).

Implicit Types (h : list block) (vs : list Vector) (f : option nat).
Implicit Types (pre post : list cell) (xs ys : list T) (x y z : T) (r : Vector).
Implicit Types (b i j n w v : nat).

(* the capacity EmplaceBack and InsertWithRealloc grow to *)
Lemma arena_snoc cap xs x :
  length xs < cap →
  arena cap (xs ++ [x]) = (Live <$> xs) ++ Live x :: replicate (cap - length xs - 1) Raw.
Proof.
  intros Hlt. unfold arena.
  rewrite fmap_app, <- app_assoc, length_app. cbn.
  do 3 f_equal. lia.
Qed.

Lemma arena_split cap xs :
  length xs < cap →
  arena cap xs = (Live <$> xs) ++ Raw :: replicate (cap - length xs - 1) Raw.
Proof.
  intros Hlt. unfold arena.
  destruct (cap - length xs) as [|k] eqn:Hk; [lia|].
  cbn. by rewrite Nat.sub_0_r.
Qed.

(* Append with room to spare: the element is built in slot [size]. *)
Lemma EmplaceBack_spare h vs w v r xs x :
  vs !! v = Some r → holds h r xs →
  size_ r < capacity_ (data_ r) →
  ∃ b, buffer_ (data_ r) = Addr b 0 ∧
    EmplaceBack v x (Machine h vs None w)
    = Return (Addr b (length xs))
             (Machine (<[b := Block (arena (capacity_ (data_ r)) (xs ++ [x])) 0]> h)
                      (<[v := mkVector (data_ r) (S (size_ r))]> vs)
                      None (S w)).
Proof.
  intros Hv Hr Hlt. destruct r as [[buf cap] sz]. cbn in Hlt |- *.
  apply holds_inv in Hr as (-> & Hle & [(-> & -> & ->) | (b & -> & Hb & Hcells)]);
    [cbn in Hlt; lia|].
  exists b. split; [done|]. unfold EmplaceBack.
  exec by (by apply get_vector_ok).
  cbn [data_ RawMemory_Capacity capacity_ size_ buffer_ GetAddress ptr_add].
  rewrite (proj2 (Nat.eqb_neq _ _)) by lia.
  rewrite arena_split in Hcells by done.
  exec by (eapply construct_at_middle; [done | len]).
  exec by (by eapply set_size_ok).
  exec by (apply get_vector_ok; heap_lookup).
  unfold ret, RawMemory_at. cbn. rewrite arena_snoc by done.
  do 2 f_equal. lia.
Qed.

(* Append on a full vector, for an element type that cannot throw when
   moved or that can be copied.  Either the elements end up in a new block
   of doubled capacity followed by the new one, the old block emptied and
   released; or an exception leaves every block and every Vector as
   before, the new block [B] released. *)
Lemma EmplaceBack_full h vs f w v r xs x :
  vs !! v = Some r → holds h r xs →
  size_ r = capacity_ (data_ r) →
  nothrow_move_constructible = true ∨ copy_constructible = true ∨ f = None →
  let cap' := if size_ r =? 0 then 1 else size_ r * 2 in
  (∃ f' w', (f = None → f' = None) ∧
    EmplaceBack v x (Machine h vs f w)
    = Return (Addr (length h) (length xs))
             (Machine (released (buffer_ (data_ r)) (capacity_ (data_ r))
                                (h ++ [Block (arena cap' (xs ++ [x])) 0]))
                      (<[v := mkVector (mkRawMemory (Addr (length h) 0) cap') (S (size_ r))]> vs)
                      f' w'))
  ∨ (∃ B w', f ≠ None ∧ frees B = 1 ∧
    EmplaceBack v x (Machine h vs f w) = Throw (Machine (h ++ [B]) vs None w')).
Proof.
  intros Hv Hr Hfull Hf cap'. destruct r as [[buf cap] sz]. cbn in Hfull, cap' |- *.
  apply holds_inv in Hr as (-> & Hle & [(-> & -> & ->) | (b & -> & Hb & Hcells)]).
  - (* no storage yet *)
    cbn in cap'. subst cap'.
    set (h1 := h ++ [Block [Raw] 0]).
    assert (h1 !! length h = Some (Block ([] ++ Raw :: []) 0)) as Hd
      by (subst h1; heap_lookup).
    pose proof (construct_at_tick h1 vs f w (length h) (0 + 0) [] x [] Hd eq_refl) as Hc.
    destruct (tick f) as [f'|] eqn:Hfuse.
    + left. exists f', (S w). split; [by intros ->; cbn in Hfuse; congruence|].
      unfold EmplaceBack.
      exec by (by apply get_vector_ok).
      cbn [data_ RawMemory_Capacity capacity_ size_ buffer_ GetAddress length Nat.eqb Size].
      exec by (by apply RawMemory_for_elements_ok).
      cbn [buffer_ GetAddress ptr_add].
      rewrite ?bind_assoc.
      erewrite (bind_Return (unwinding _ _));
        [| apply unwinding_Return; erewrite bind_Return; [apply MoveData_zero | exact Hc] ].
      cbn [destroy_n].
      exec by reflexivity.
      cbn [RawMemory_Swap buffer_ capacity_].
      exec by (by eapply set_data_ok).
      exec by (apply RawMemory_dtor_null).
      exec by (eapply set_size_ok; heap_lookup).
      exec by (apply get_vector_ok; heap_lookup).
      unfold ret, RawMemory_at. cbn. subst h1.
      by rewrite list_insert_insert_eq, (insert_middle h []).
    + right. exists (Block [Raw] 1), w. destruct f as [[|k]|]; try done.
      split_and!; [done..|]. unfold EmplaceBack.
      exec by (by apply get_vector_ok).
      cbn [data_ RawMemory_Capacity capacity_ size_ buffer_ GetAddress length Nat.eqb Size].
      exec by (by apply RawMemory_for_elements_ok).
      cbn [buffer_ GetAddress ptr_add].
      rewrite ?bind_assoc. erewrite bind_Throw; [done|].
      eapply unwinding_Throw; [erewrite bind_Throw; [done | exact Hc] |].
      erewrite RawMemory_dtor_block by (subst h1; heap_lookup).
      subst h1. by rewrite (insert_middle h []).
  - (* a full block *)
    subst cap.
    assert (cap' = 1 + length xs + if length xs =? 0 then 0 else length xs - 1) as Hcap'
      by (subst cap'; destruct (length xs); cbn; lia).
    set (tail := replicate (cap' - length xs - 1) (@Raw T)).
    set (h1 := h ++ [Block (replicate cap' Raw) 0]).
    assert (h1 !! length h = Some (Block (replicate (length xs) Raw ++ Raw :: tail) 0)) as Hd.
    { subst h1 tail.
      change (Raw :: replicate ?n Raw) with (replicate (S n) (@Raw T)).
      rewrite <- replicate_add.
      replace (length xs + S (cap' - length xs - 1)) with cap' by lia. heap_lookup. }
    pose proof (construct_at_tick h1 vs f w (length h) (0 + length xs) _ x _ Hd
                  ltac:(len)) as Hc.
    unfold arena in Hcells. rewrite Nat.sub_diag in Hcells. cbn [replicate] in Hcells.
    destruct (tick f) as [f1|] eqn:Hfuse.
    + set (h2 := <[length h := Block (replicate (length xs) Raw ++ Live x :: tail) 0]> h1) in Hc.
      assert (nothrow_move_constructible = true ∨ copy_constructible = true ∨ f1 = None)
        as Hf1.
      { destruct Hf as [?|[?|Hnone]]; [by left | by right; left |].
        subst f. cbn in Hfuse. right; right. congruence. }
      destruct (MoveData_outcome xs h2 vs f1 (S w) b (length h) 0 0 [] [] [] (Live x :: tail)
                  ltac:(lia) Hf1) as [(ys & f' & w' & Hys & Hsp & Hmove) | (w' & Hsome & Hnt & Hmove)];
        [subst h2 h1; heap_lookup | done | subst h2 h1; heap_lookup | done | |].
      * left. exists f', (length ys + w').
        split; [intros ->; cbn in Hfuse; destruct Hsp as [Hnone _]; apply Hnone; congruence|].
        unfold EmplaceBack.
        exec by (by apply get_vector_ok).
        cbn [data_ RawMemory_Capacity capacity_ size_ buffer_ GetAddress Size].
        rewrite Nat.eqb_refl. fold cap'.
        exec by (apply RawMemory_for_elements_ok; lia).
        cbn [buffer_ GetAddress ptr_add].
        rewrite ?bind_assoc.
      erewrite (bind_Return (unwinding _ _));
          [| apply unwinding_Return; erewrite bind_Return; [exact Hmove | exact Hc] ].
        rewrite <- Hys.
        exec by (eapply (destroy_n_range ys _ _ _ _ _ _ [] []); [subst h2 h1; heap_lookup | done]).
        cbn [RawMemory_Swap buffer_ capacity_].
        exec by (by eapply set_data_ok).
        exec by (eapply RawMemory_dtor_block; subst h2 h1; heap_lookup).
        exec by (eapply set_size_ok; heap_lookup).
        exec by (apply get_vector_ok; heap_lookup).
        unfold ret, RawMemory_at. cbn [released app size_ data_ buffer_ ptr_add].
        rewrite Hys. f_equal; [f_equal; lia|]. f_equal.
        -- rewrite !list_insert_insert_eq.
           rewrite (list_insert_insert_ne _ b (length h)) by lia.
           rewrite list_insert_insert_eq.
           rewrite (list_insert_insert_ne _ (length h) b) by lia.
           subst h2. rewrite list_insert_insert_eq. subst h1.
           rewrite (insert_middle h []).
           rewrite arena_snoc by lia. by rewrite app_nil_r.
        -- by rewrite list_insert_insert_eq.
      * right. exists (Block (replicate (length xs) Raw ++ Live x :: tail) 1), w'.
        split_and!; [intros ->; cbn in Hfuse; congruence | done |]. unfold EmplaceBack.
        exec by (by apply get_vector_ok).
        cbn [data_ RawMemory_Capacity capacity_ size_ buffer_ GetAddress Size].
        rewrite Nat.eqb_refl. fold cap'.
        exec by (apply RawMemory_for_elements_ok; lia).
        cbn [buffer_ GetAddress ptr_add].
        rewrite ?bind_assoc. erewrite bind_Throw; [done|].
        eapply unwinding_Throw;
          [erewrite bind_Return; [exact Hmove | exact Hc] |].
        erewrite RawMemory_dtor_block by (subst h2 h1; heap_lookup).
        subst h2. rewrite list_insert_insert_eq. subst h1.
        by rewrite (insert_middle h []).
    + right. exists (Block (replicate (length xs) Raw ++ Raw :: tail) 1), w.
      destruct f as [[|k]|]; try done.
      split_and!; [done..|]. unfold EmplaceBack.
      exec by (by apply get_vector_ok).
      cbn [data_ RawMemory_Capacity capacity_ size_ buffer_ GetAddress Size].
      rewrite Nat.eqb_refl. fold cap'.
      exec by (apply RawMemory_for_elements_ok; lia).
      cbn [buffer_ GetAddress ptr_add].
      rewrite ?bind_assoc. erewrite bind_Throw; [done|].
      eapply unwinding_Throw; [erewrite bind_Throw; [done | exact Hc] |].
      erewrite RawMemory_dtor_block by (subst h1; heap_lookup).
      subst h1. by rewrite (insert_middle h []).
Qed.

End Append.

Section Appends.
Context {T : Type} {E : Element T}.

Local Abbreviation cell := (cell T).
Local Abbreviation block := (block T).

Implicit Types (h : list block) (vs : list Vector) (f : option nat).
Implicit Types (pre post : list cell) (xs ys : list T) (x y z : T) (r : Vector).
Implicit Types (b i j n w v : nat).

Lemma released_lookup_new h (p : ptr) cap (B : block) :
  (∀ b i, p = Addr b i → b < length h) →
  released p cap (h ++ [B]) !! length h = Some B.
Proof.
  intros Hp. destruct p as [|b i]; cbn.
  - heap_lookup.
  - specialize (Hp b i eq_refl). heap_lookup.
Qed.

Lemma holds_buffer_lt h r xs b i :
  holds h r xs → buffer_ (data_ r) = Addr b i → b < length h.
Proof.
  intros (_ & _ & Hbuf) Hb. rewrite Hb in Hbuf.
  destruct Hbuf as [_ Hlook]. eauto using lookup_lt_Some.
Qed.

(* An append during which nothing throws. *)
Lemma EmplaceBack_calm h vs w v r xs x :
  vs !! v = Some r → holds h r xs →
  ∃ r' h' w',
    EmplaceBack v x (Machine h vs None w)
    = Return (Vector_at r' (length xs)) (Machine h' (<[v := r']> vs) None w') ∧
    holds h' r' (xs ++ [x]) ∧
    size_ r' = S (size_ r) ∧
    capacity_ (data_ r') = grow (size_ r) (capacity_ (data_ r)).
Proof.
  intros Hv Hr.
  assert (size_ r = length xs ∧ length xs ≤ capacity_ (data_ r)) as [Hsz Hle]
    by (destruct Hr as (? & ? & _); done).
  destruct (decide (size_ r = capacity_ (data_ r))) as [Hfull | Hspare].
  - destruct (EmplaceBack_full h vs None w v r xs x Hv Hr Hfull)
      as [(f' & w' & Hnone & Hrun) | (B & w' & Hsome & _)]; [by right; right | | done].
    rewrite (Hnone eq_refl) in Hrun.
    eexists (mkVector (mkRawMemory (Addr (length h) 0) _) (S (size_ r))), _, _.
    split; [exact Hrun|].
    unfold grow. rewrite <- Hfull, Nat.eqb_refl. split_and!; [| done..].
    split_and!; cbn.
    + rewrite length_app. cbn. lia.
    + rewrite length_app. cbn. destruct (size_ r); cbn; lia.
    + split; [done|]. apply released_lookup_new.
      intros b i. by apply holds_buffer_lt with xs.
  - destruct (EmplaceBack_spare h vs w v r xs x Hv Hr) as (b & Hbuf & Hrun); [lia|].
    eexists (mkVector (data_ r) (S (size_ r))), _, _. split.
    { rewrite Hrun. unfold Vector_at, RawMemory_at. cbn. by rewrite Hbuf. }
    unfold grow. rewrite (proj2 (Nat.eqb_neq _ _)) by done.
    split_and!; [| done..].
    split_and!; cbn.
    + rewrite length_app. cbn. lia.
    + rewrite length_app. cbn. lia.
    + rewrite Hbuf. split; [done|].
      apply list_lookup_insert_eq. by apply holds_buffer_lt with r xs 0.
Qed.

(* A run of appends during which nothing throws. *)
Lemma push_all_calm v xs : ∀ h vs w r ys,
  vs !! v = Some r → holds h r ys →
  ∃ r' h' w',
    push_all v xs (Machine h vs None w)
    = Return () (Machine h' (<[v := r']> vs) None w') ∧
    holds h' r' (ys ++ xs) ∧
    capacity_ (data_ r') = capacity_run (size_ r) (capacity_ (data_ r)) (length xs).
Proof.
  induction xs as [|x xs IH]; intros h vs w r ys Hv Hr.
  - exists r, h, w. rewrite app_nil_r, list_insert_id by done. done.
  - destruct (EmplaceBack_calm h vs w v r ys x Hv Hr)
      as (r1 & h1 & w1 & Hrun & Hr1 & Hsz & Hcap).
    destruct (IH h1 (<[v := r1]> vs) w1 r1 (ys ++ [x])) as (r' & h' & w' & Hrest & Hr' & Hcap');
      [heap_lookup | done |].
    exists r', h', w'. split_and!.
    + cbn [push_all]. unfold PushBack.
      exec by exact Hrun.
      exec by reflexivity.
      rewrite Hrest. by rewrite list_insert_insert_eq.
    + by rewrite <- app_assoc in Hr'.
    + cbn [length capacity_run]. by rewrite Hcap', Hsz, Hcap.
Qed.

(* Capacities reached from a power of two (or from none) by the growth
   rule are powers of two. *)
Lemma capacity_run_pow2 n : ∀ size cap,
  size ≤ cap → (cap = 0 ∨ ∃ k, cap = 2 ^ k) →
  capacity_run size cap n = 0 ∨ ∃ k, capacity_run size cap n = 2 ^ k.
Proof.
  induction n as [|n IH]; intros size cap Hle Hcap; cbn [capacity_run]; [done|].
  apply IH; unfold grow.
  - destruct (Nat.eqb_spec size cap); [destruct (Nat.eqb_spec size 0)|]; lia.
  - destruct (Nat.eqb_spec size cap) as [->|]; [|done].
    destruct (Nat.eqb_spec cap 0) as [->|Hne].
    + right. by exists 0.
    + right. destruct Hcap as [?|[k ->]]; [done|].
      exists (S k). cbn. lia.
Qed.

End Appends.

(** ** Erase *)

Section Erasing.
Context {T : Type} {E : Element T}.

Local Abbreviation cell := (cell T).
Local Abbreviation block := (block T).

Implicit Types (h : list block) (vs : list Vector) (f : option nat).
Implicit Types (pre post : list cell) (xs ys : list T) (x y z : T) (r : Vector).
Implicit Types (b i j n w v : nat).

Lemma Erase_empty h vs f w v r (p : ptr) :
  vs !! v = Some r → size_ r = 0 →
  Erase v p (Machine h vs f w) = Return p (Machine h vs f w).
Proof.
  intros Hv Hsz. unfold Erase.
  exec by (by apply get_vector_ok).
  rewrite decide_True; [done|].
  unfold begin, end_. rewrite Hsz.
  destruct (GetAddress (data_ r)); cbn; [done|]. by rewrite Nat.add_0_r.
Qed.

Lemma Erase_at h vs f w v r xs i :
  vs !! v = Some r → holds h r xs → i < length xs →
  nothrow_move_assignable = true ∨ f = None →
  ∃ b w', buffer_ (data_ r) = Addr b 0 ∧
    Erase v (ptr_add (begin r) i) (Machine h vs f w)
    = Return (ptr_add (begin r) i)
        (Machine (<[b := Block (arena (capacity_ (data_ r)) (take i xs ++ drop (S i) xs)) 0]> h)
                 (<[v := mkVector (data_ r) (size_ r - 1)]> vs) f w').
Proof.
  intros Hv Hr Hi Hf. destruct r as [[buf cap] sz]. cbn.
  apply holds_inv in Hr as (-> & Hle & [(-> & -> & ->) | (b & -> & Hb & Hcells)]);
    [cbn in Hi; lia|].
  destruct (lookup_lt_is_Some_2 xs i Hi) as [xi Hxi].
  pose proof (take_drop_middle xs i xi Hxi) as Hsplit.
  set (pre := take i xs) in *. set (suf := drop (S i) xs) in *.
  assert (length pre = i) as Hpre by (subst pre; rewrite length_take; lia).
  assert (length suf = length xs - S i) as Hsuf by (subst suf; by rewrite length_drop).
  unfold arena in Hcells. rewrite <- Hsplit in Hcells at 1.
  rewrite fmap_app, <- app_assoc in Hcells. cbn [fmap list_fmap] in Hcells.
  rewrite <- app_comm_cons in Hcells.
  exists b, (S (2 * length suf + w)). split; [done|]. unfold Erase.
  exec by (by apply get_vector_ok).
  unfold begin, end_. cbn [GetAddress data_ buffer_ size_ ptr_add].
  rewrite decide_False by (intros [=]; lia).
  unfold std_move.
  assert (distance (Addr b (0 + i + 1)) (Addr b (0 + length xs)) = Some (length suf)) as ->.
  { cbn. rewrite Nat.eqb_refl. cbn.
    rewrite (proj2 (Nat.leb_le _ _)) by lia. f_equal. lia. }
  cbn [of_option].
  exec by reflexivity.
  exec by (eapply (move_loop_range suf _ _ _ _ _ _ _ (Live <$> pre)); [done | done | len | lia ]).
  unfold PopBack.
  exec by (by apply get_vector_ok).
  cbn [size_ data_].
  rewrite (proj2 (Nat.eqb_neq _ _)) by lia.
  exec by (by eapply set_size_ok).
  unfold RawMemory_plus. cbn [buffer_ ptr_add data_].
  exec by (eapply (destroy_at_middle _ _ _ _ _ _ ((Live <$> pre) ++ (Live <$> suf)));
           [rewrite <- app_assoc; heap_lookup | len]).
  unfold ret. do 2 f_equal.
  rewrite list_insert_insert_eq. do 2 f_equal.
  unfold arena. rewrite fmap_app, length_app, <- !app_assoc.
  do 2 f_equal.
  change (Raw :: replicate ?n Raw) with (replicate (S n) (@Raw T)).
  f_equal. lia.
Qed.

End Erasing.

(** ** Insert *)

Section Inserting.
Context {T : Type} {E : Element T}.

Local Abbreviation cell := (cell T).
Local Abbreviation block := (block T).

Implicit Types (h : list block) (vs : list Vector) (f : option nat).
Implicit Types (pre post : list cell) (xs ys : list T) (x y z : T) (r : Vector).
Implicit Types (b i j n w v : nat).

Lemma move_construct_at_next h vs f w b i i' pre post x :
  nothrow_move_constructible = true ∨ f = None →
  h !! b = Some (Block (pre ++ Live x :: Raw :: post) 0) →
  i = length pre → i' = S i →
  move_construct_at (Addr b i') (Addr b i) (Machine h vs f w)
  = Return () (Machine (<[b := Block (pre ++ Live (moved_from x) :: Live x :: post) 0]> h)
                       vs f (S (S w))).
Proof.
  intros Hf Hb Hi Hi'. unfold move_construct_at.
  exec by (eapply read_middle; eauto).
  exec by (by apply may_throw_unless).
  exec by (eapply (emplace_at_middle _ _ _ _ _ _ (pre ++ [Live x]));
           [rewrite <- snoc_middle; eauto | len]).
  erewrite overwrite_middle; [| rewrite <- snoc_middle; heap_lookup | done ].
  by rewrite list_insert_insert_eq.
Qed.

Lemma assign_temporary_middle h vs w b i pre post x y :
  h !! b = Some (Block (pre ++ Live y :: post) 0) → i = length pre →
  assign_temporary (Addr b i) x (Machine h vs None w)
  = Return () (Machine (<[b := Block (pre ++ Live x :: post) 0]> h) vs None (S (S (S w)))).
Proof.
  intros Hb Hi. unfold assign_temporary.
  exec by apply may_throw_calm.
  exec by reflexivity.
  exec by (erewrite bind_Return; [by eapply overwrite_middle | by apply may_throw_unless; right]).
  done.
Qed.

Lemma arena_insert cap xs i x :
  i ≤ length xs → length xs < cap →
  arena cap (take i xs ++ x :: drop i xs)
  = (Live <$> take i xs) ++ Live x :: (Live <$> drop i xs) ++ replicate (cap - length xs - 1) Raw.
Proof.
  intros Hi Hlt. unfold arena.
  rewrite fmap_app, <- app_assoc. cbn. do 3 f_equal.
  rewrite length_app. cbn. rewrite length_take, length_drop. f_equal. lia.
Qed.

(* Insertion with room to spare, nothing throwing. *)
Lemma InsertWithoutRealloc_calm h vs w v r xs i x :
  vs !! v = Some r → holds h r xs →
  size_ r < capacity_ (data_ r) → i ≤ length xs →
  ∃ b w', buffer_ (data_ r) = Addr b 0 ∧
    InsertWithoutRealloc v (ptr_add (begin r) i) x (Machine h vs None w)
    = Return (Addr b i)
        (Machine (<[b := Block (arena (capacity_ (data_ r)) (take i xs ++ x :: drop i xs)) 0]> h)
                 (<[v := mkVector (data_ r) (S (size_ r))]> vs) None w').
Proof.
  intros Hv Hr Hlt Hi. destruct r as [[buf cap] sz]. cbn in Hlt |- *.
  apply holds_inv in Hr as (-> & Hle & [(-> & -> & ->) | (b & -> & Hb & Hcells)]);
    [cbn in Hlt; lia|].
  exists b. rewrite arena_insert by done.
  assert (distance (Addr b 0) (Addr b (0 + i)) = Some i) as Hdist.
  { cbn. by rewrite Nat.eqb_refl, Nat.sub_0_r. }
  destruct (decide (i = length xs)) as [-> | Hne].
  - (* at the end *)
    exists (S w). split; [done|]. unfold InsertWithoutRealloc.
    exec by (by apply get_vector_ok).
    unfold begin, end_. cbn [GetAddress data_ buffer_ size_ ptr_add].
    rewrite Hdist. cbn [of_option].
    exec by reflexivity.
    rewrite decide_True by (by right).
    rewrite arena_split in Hcells by done.
    exec by (eapply construct_at_middle; [done | len]).
    exec by (by eapply set_size_ok).
    unfold ret, RawMemory_at. cbn.
    by rewrite take_ge, drop_ge by lia.
  - (* before an element *)
    destruct (exists_last (l := drop i xs)) as (mid & l & Hlast).
    { intros Hnil. apply (f_equal length) in Hnil. rewrite length_drop in Hnil. cbn in Hnil. lia. }
    assert (length mid = length xs - i - 1) as Hmid.
    { apply (f_equal length) in Hlast. rewrite length_drop, length_app in Hlast.
      cbn in Hlast. lia. }
    assert (length (take i xs) = i) as Hpre by (rewrite length_take; lia).
    rewrite arena_split in Hcells by done.
    rewrite <- (take_drop i xs), Hlast in Hcells at 1.
    rewrite !fmap_app, <- !app_assoc in Hcells. cbn [fmap list_fmap app] in Hcells.
    eexists. split; [done|]. unfold InsertWithoutRealloc.
    exec by (by apply get_vector_ok).
    unfold begin, end_. cbn [GetAddress data_ buffer_ size_ ptr_add].
    rewrite Hdist. cbn [of_option].
    exec by reflexivity.
    rewrite decide_False by (intros [[=]|[=]]; lia).
    assert (ptr_sub (Addr b (0 + length xs)) 1 = Some (Addr b (length xs - 1))) as ->.
    { cbn. destruct (length xs) eqn:Hlen; [lia|]. done. }
    cbn [of_option].
    exec by reflexivity.
    exec by (eapply (move_construct_at_next _ _ _ _ _ _ _ ((Live <$> take i xs) ++ (Live <$> mid)));
             [by right | rewrite <- app_assoc; done | len | lia]).
    unfold move_backward, RawMemory_at. cbn [data_ buffer_ ptr_add].
    assert (distance (Addr b (0 + i)) (Addr b (length xs - 1)) = Some (length mid)) as ->.
    { cbn. rewrite Nat.eqb_refl. cbn.
      rewrite (proj2 (Nat.leb_le _ _)) by lia. f_equal. lia. }
    cbn [of_option].
    exec by reflexivity.
    exec by (eapply (move_backward_loop_range mid _ _ _ _ _ _ _ (Live <$> take i xs));
             [by right | rewrite <- app_assoc; heap_lookup | len | lia]).
    exec by (eapply assign_temporary_middle; [heap_lookup | len]).
    exec by (by eapply set_size_ok).
    unfold ret. cbn. rewrite !list_insert_insert_eq.
    rewrite Hlast, fmap_app, <- app_assoc. cbn [fmap list_fmap app].
    reflexivity.
Qed.


Lemma MoveData_calm xs h vs w bs bd i j n pre post pre' post' :
  bs ≠ bd → n = length xs →
  h !! bs = Some (Block (pre ++ (Live <$> xs) ++ post) 0) → i = length pre →
  h !! bd = Some (Block (pre' ++ replicate (length xs) Raw ++ post') 0) → j = length pre' →
  ∃ ys w', length ys = length xs ∧
    MoveDataIfPossibleOrCopyInstead (Addr bs i) n (Addr bd j) (Machine h vs None w)
    = Return () (Machine (<[bd := Block (pre' ++ (Live <$> xs) ++ post') 0]>
                           (<[bs := Block (pre ++ (Live <$> ys) ++ post) 0]> h))
                         vs None w').
Proof.
  intros Hne -> Hs Hi Hd Hj.
  destruct (MoveData_outcome xs h vs None w bs bd i j pre post pre' post')
    as [(ys & f' & w' & Hys & [Hnone _] & Hrun) | (w' & Hsome & _)];
    [done | by right; right | done.. | | done].
  rewrite (Hnone eq_refl) in Hrun. eauto.
Qed.

(* Insertion into a full vector, nothing throwing. *)
Lemma InsertWithRealloc_calm h vs w v r xs i x :
  vs !! v = Some r → holds h r xs →
  size_ r = capacity_ (data_ r) → i ≤ length xs →
  let cap' := if size_ r =? 0 then 1 else size_ r * 2 in
  ∃ w',
    InsertWithRealloc v (ptr_add (begin r) i) x (Machine h vs None w)
    = Return (Addr (length h) i)
        (Machine (released (buffer_ (data_ r)) (capacity_ (data_ r))
                           (h ++ [Block (arena cap' (take i xs ++ x :: drop i xs)) 0]))
                 (<[v := mkVector (mkRawMemory (Addr (length h) 0) cap') (S (size_ r))]> vs)
                 None w').
Proof.
  intros Hv Hr Hfull Hi cap'. destruct r as [[buf cap] sz]. cbn in Hfull, cap' |- *.
  assert (v < length vs) as Hvlt by eauto using lookup_lt_Some.
  apply holds_inv in Hr as (-> & Hle & [(-> & -> & ->) | (b & -> & Hb & Hcells)]).
  - (* no storage yet *)
    cbn in Hi. assert (i = 0) as -> by lia. cbn in cap'. subst cap'.
    exists (S w). unfold InsertWithRealloc.
    exec by (by apply get_vector_ok).
    unfold begin. cbn [GetAddress data_ buffer_ size_ ptr_add length Nat.eqb distance of_option].
    exec by reflexivity.
    exec by (by apply RawMemory_for_elements_ok).
    cbn [buffer_ ptr_add].
    erewrite bind_Return; cycle 1.
    { apply try_catch_Return.
      exec by (eapply (construct_at_middle _ _ _ _ _ [] x []); [heap_lookup | done]).
      exec by apply MoveData_zero.
      exec by reflexivity.
      exec by apply MoveData_zero.
      cbn [destroy_n].
      exec by reflexivity.
      cbn [RawMemory_Swap buffer_ capacity_].
      exec by (by eapply set_data_ok).
      exec by (eapply set_size_ok; heap_lookup).
      reflexivity. }
    cbv beta.
    exec by (apply get_vector_ok; heap_lookup).
    exec by apply RawMemory_dtor_null.
    unfold ret, RawMemory_at. cbn.
    by rewrite list_insert_insert_eq, (insert_middle h []).
  - (* a full block *)
    subst cap.
    assert (length xs < cap') as Hcap' by (subst cap'; destruct (length xs); cbn; lia).
    set (tail := replicate (cap' - length xs - 1) (@Raw T)).
    set (pre := take i xs). set (suf := drop i xs).
    assert (length pre = i) as Hpre by (subst pre; rewrite length_take; lia).
    assert (length suf = length xs - i) as Hsuf by (subst suf; by rewrite length_drop).
    set (h1 := h ++ [Block (replicate cap' Raw) 0]).
    assert (h1 !! length h
            = Some (Block (replicate i Raw ++ Raw :: replicate (length suf) Raw ++ tail) 0)) as Hd.
    { subst h1 tail.
      change (Raw :: ?l ++ replicate ?n Raw) with (replicate 1 (@Raw T) ++ l ++ replicate n Raw).
      rewrite <- !replicate_add.
      replace (i + (1 + (length suf + (cap' - length xs - 1)))) with cap' by lia. heap_lookup. }
    set (h2 := <[length h := Block (replicate i Raw ++ Live x :: replicate (length suf) Raw ++ tail) 0]> h1).
    assert (h2 !! b = Some (Block ([] ++ (Live <$> pre) ++ (Live <$> suf)) 0)) as Hs2.
    { subst h2 h1. rewrite list_lookup_insert_ne by lia.
      rewrite lookup_app_l by done. rewrite Hcells. unfold arena.
      rewrite Nat.sub_diag, app_nil_r. cbn. subst pre suf.
      by rewrite <- fmap_app, take_drop. }
    assert (h2 !! length h
            = Some (Block ([] ++ replicate (length pre) Raw
                             ++ Live x :: replicate (length suf) Raw ++ tail) 0)) as Hd2.
    { subst h2. rewrite Hpre. heap_lookup. }
    destruct (MoveData_calm pre h2 vs (S w) b (length h) 0 0 i _ _ _ _
                ltac:(lia) ltac:(done) Hs2 eq_refl Hd2 eq_refl)
      as (ys1 & w1 & Hys1 & Hmove1).
    set (h3 := <[length h := Block ([] ++ (Live <$> pre)
                                       ++ Live x :: replicate (length suf) Raw ++ tail) 0]>
                 (<[b := Block ([] ++ (Live <$> ys1) ++ (Live <$> suf)) 0]> h2)) in Hmove1.
    assert (h3 !! b = Some (Block ((Live <$> ys1) ++ (Live <$> suf) ++ []) 0)) as Hs3.
    { subst h3 h2 h1. rewrite app_nil_r. heap_lookup. }
    assert (h3 !! length h
            = Some (Block (((Live <$> pre) ++ [Live x]) ++ replicate (length suf) Raw ++ tail) 0))
      as Hd3.
    { subst h3 h2 h1. rewrite <- snoc_middle. heap_lookup. }
    destruct (MoveData_calm suf h3 vs w1 b (length h) (0 + i) (0 + i + 1) (length xs - i) _ _ _ _
                ltac:(lia) ltac:(done) Hs3 ltac:(len) Hd3 ltac:(len))
      as (ys2 & w2 & Hys2 & Hmove2).
    set (h4 := <[length h := Block (((Live <$> pre) ++ [Live x]) ++ (Live <$> suf) ++ tail) 0]>
                 (<[b := Block ((Live <$> ys1) ++ (Live <$> ys2) ++ []) 0]> h3)) in Hmove2.
    assert (h4 !! b = Some (Block ([] ++ (Live <$> (ys1 ++ ys2)) ++ []) 0)) as Hs4.
    { subst h4 h3 h2 h1. heap_lookup. cbn [app]. by rewrite fmap_app, <- app_assoc. }
    assert (length (ys1 ++ ys2) = length xs) as Hys by (rewrite length_app; lia).
    exists (length (ys1 ++ ys2) + w2). unfold InsertWithRealloc.
    exec by (by apply get_vector_ok).
    unfold begin. cbn [GetAddress data_ buffer_ size_ ptr_add].
    assert (distance (Addr b 0) (Addr b (0 + i)) = Some i) as ->.
    { cbn. by rewrite Nat.eqb_refl, Nat.sub_0_r. }
    cbn [of_option].
    exec by reflexivity.
    fold cap'.
    exec by (apply RawMemory_for_elements_ok; lia).
    cbn [buffer_ ptr_add].
    erewrite bind_Return; cycle 1.
    { apply try_catch_Return.
      exec by (eapply construct_at_middle; [exact Hd | len]).
      exec by exact Hmove1.
      unfold size_sub. rewrite (proj2 (Nat.leb_le _ _)) by lia.
      exec by reflexivity.
      exec by exact Hmove2.
      rewrite <- Hys.
      exec by (eapply destroy_n_range; [exact Hs4 | done]).
      cbn [RawMemory_Swap buffer_ capacity_].
      exec by (by eapply set_data_ok).
      exec by (eapply set_size_ok; heap_lookup).
      reflexivity. }
    cbv beta.
    exec by (apply get_vector_ok; heap_lookup).
    exec by (eapply RawMemory_dtor_block; subst h4 h3 h2 h1; heap_lookup).
    unfold ret, RawMemory_at. cbn [released app size_ data_ buffer_ ptr_add].
    rewrite Hys. f_equal. f_equal.
    + rewrite list_insert_insert_eq. subst h4.
      rewrite (list_insert_insert_ne _ b (length h)) by lia.
      rewrite list_insert_insert_eq. subst h3.
      rewrite (list_insert_insert_ne _ b (length h)) by lia.
      rewrite !list_insert_insert_eq.
      rewrite (list_insert_insert_ne _ (length h) b) by lia.
      subst h2. rewrite list_insert_insert_eq. subst h1.
      rewrite (insert_middle h []).
      subst pre suf tail. rewrite arena_insert by lia.
      rewrite <- snoc_middle. by rewrite app_nil_r.
    + by rewrite !list_insert_insert_eq.
Qed.

(* Emplace at position [i], nothing throwing: the value sits at index
   [i], between the elements that were before and those that were from
   that position on, and the result points at it. *)
Lemma Emplace_calm h vs w v r xs i x :
  vs !! v = Some r → holds h r xs → i ≤ length xs →
  ∃ r' h' w',
    Emplace v (ptr_add (begin r) i) x (Machine h vs None w)
    = Return (ptr_add (begin r') i) (Machine h' (<[v := r']> vs) None w') ∧
    holds h' r' (take i xs ++ x :: drop i xs) ∧
    size_ r' = S (size_ r).
Proof.
  intros Hv Hr Hi.
  assert (size_ r = length xs ∧ length xs ≤ capacity_ (data_ r)) as [Hsz Hle]
    by (destruct Hr as (? & ? & _); done).
  assert (length (take i xs ++ x :: drop i xs) = S (length xs)) as Hlen.
  { rewrite length_app. cbn. rewrite length_take, length_drop. lia. }
  destruct (decide (size_ r = capacity_ (data_ r))) as [Hfull | Hspare].
  - destruct (InsertWithRealloc_calm h vs w v r xs i x Hv Hr Hfull Hi) as (w' & Hrun).
    eexists (mkVector (mkRawMemory (Addr (length h) 0) _) (S (size_ r))), _, _.
    split_and!; [| | done].
    + unfold Emplace.
      exec by (by apply get_vector_ok).
      unfold Capacity, RawMemory_Capacity. rewrite <- Hfull, Nat.eqb_refl.
      exact Hrun.
    + split_and!; cbn.
      * lia.
      * rewrite Hlen, Hsz. destruct (length xs); cbn; lia.
      * split; [done|]. apply released_lookup_new.
        intros b j. by apply holds_buffer_lt with xs.
  - destruct (InsertWithoutRealloc_calm h vs w v r xs i x Hv Hr) as (b & w' & Hbuf & Hrun);
      [lia | done |].
    eexists (mkVector (data_ r) (S (size_ r))), _, _.
    split_and!; [| | done].
    + unfold Emplace.
      exec by (by apply get_vector_ok).
      unfold Capacity, RawMemory_Capacity. rewrite (proj2 (Nat.eqb_neq _ _)) by done.
      rewrite Hrun. unfold begin, GetAddress. cbn. by rewrite Hbuf.
    + split_and!; cbn.
      * lia.
      * lia.
      * rewrite Hbuf. split; [done|].
        apply list_lookup_insert_eq. by apply holds_buffer_lt with r xs 0.
Qed.

End Inserting.

(** ** Insert into a full vector when an element operation throws *)

Section InsertFailure.
Context {T : Type} {E : Element T}.

Local Abbreviation cell := (cell T).
Local Abbreviation block := (block T).

Implicit Types (h : list block) (vs : list Vector) (f : option nat).
Implicit Types (pre post : list cell) (xs ys : list T) (x y z : T) (r : Vector).
Implicit Types (b i j n w v k : nat).

Lemma MoveData_copying (p q : ptr) n :
  nothrow_move_constructible = false → copy_constructible = true →
  MoveDataIfPossibleOrCopyInstead p n q = uninitialized_copy_n p n q.
Proof. intros Hnt Hcp. unfold MoveDataIfPossibleOrCopyInstead. by rewrite Hnt, Hcp. Qed.

(* What the catch block and the end of the scope of new_data do to the new
   block: ~RawMemory runs twice on the same buffer. *)
Lemma InsertWithRealloc_handler h vs w v r dist cap' (B : list cell) :
  vs !! v = Some r →
  ∀ h1 : list block, h1 = h ++ [Block B 0] →
  (do new_data' <- (RawMemory_dtor (mkRawMemory (Addr (length h) 0) cap');;
                    ret (mkRawMemory (Addr (length h) 0) cap'));
   do r' <- get_vector v;
   RawMemory_dtor new_data';;
   ret (RawMemory_at (data_ r') dist)) (Machine h1 vs None w)
  = Return (RawMemory_at (data_ r) dist) (Machine (h ++ [Block B 2]) vs None w).
Proof.
  intros Hv h1 ->.
  exec by (eapply RawMemory_dtor_block; heap_lookup).
  exec by reflexivity.
  exec by (by apply get_vector_ok).
  exec by (eapply RawMemory_dtor_block; heap_lookup).
  unfold ret. by rewrite list_insert_insert_eq, (insert_middle h []).
Qed.


Lemma bind_try_catch_Throw {A B} (c hd : M T A) (k : A → M T B) m m' :
  c m = Throw m' → bind (try_catch c hd) k m = bind hd k m'.
Proof. intros Hc. unfold bind, try_catch. by rewrite Hc. Qed.

(* Emplace on a full vector of elements that are copied over, when one of
   the fallible operations of the transfer throws: the construction of the
   new element ([k = 0]) or the copy of an old one.  The exception does
   not leave Emplace; the Vector objects and the old blocks are as before;
   the new block [B] has been released twice and, unless it was the
   construction of the new element that threw, still holds that
   element. *)
Lemma InsertWithRealloc_copy_throws h vs w v r xs i x k :
  nothrow_move_constructible = false → copy_constructible = true →
  vs !! v = Some r → holds h r xs →
  size_ r = capacity_ (data_ r) → i ≤ length xs → k ≤ length xs →
  ∃ B w',
    Emplace v (ptr_add (begin r) i) x (Machine h vs (Some k) w)
    = Return (ptr_add (begin r) i) (Machine (h ++ [Block B 2]) vs None w') ∧
    (0 < k → B !! i = Some (Live x)).
Proof.
  intros Hnt Hcp Hv Hr Hfull Hi Hk. destruct r as [[buf cap] sz]. cbn in Hfull.
  set (cap' := if sz =? 0 then 1 else sz * 2).
  apply holds_inv in Hr as (-> & Hle & [(-> & -> & ->) | (b & -> & Hb & Hcells)]).
  - (* no storage yet: only the construction can throw *)
    cbn in Hi, Hk. assert (i = 0) as -> by lia. assert (k = 0) as -> by lia.
    exists [Raw], w. split; [|lia].
    unfold Emplace.
    exec by (by apply get_vector_ok).
    cbn [size_ Capacity RawMemory_Capacity data_ capacity_ length Nat.eqb].
    unfold InsertWithRealloc.
    exec by (by apply get_vector_ok).
    unfold begin. cbn [GetAddress data_ buffer_ size_ ptr_add length Nat.eqb distance of_option].
    exec by reflexivity.
    exec by (by apply RawMemory_for_elements_ok).
    cbn [buffer_ ptr_add GetAddress].
    erewrite bind_try_catch_Throw; cycle 1.
    { erewrite bind_Throw; [done|].
      erewrite (construct_at_tick _ _ _ _ _ _ [] x []); [done | heap_lookup | done]. }
    cbv zeta. cbn [replicate].
    by rewrite (InsertWithRealloc_handler h vs w v _ 0 1 [Raw] Hv _ eq_refl).
  - subst cap.
    assert (length xs < cap') as Hcap' by (subst cap'; destruct (length xs); cbn; lia).
    set (tail := replicate (cap' - length xs - 1) (@Raw T)).
    set (pre := take i xs). set (suf := drop i xs).
    assert (length pre = i) as Hpre by (subst pre; rewrite length_take; lia).
    assert (length suf = length xs - i) as Hsuf by (subst suf; by rewrite length_drop).
    set (h1 := h ++ [Block (replicate cap' Raw) 0]).
    assert (h1 !! length h
            = Some (Block (replicate i Raw ++ Raw :: replicate (length suf) Raw ++ tail) 0)) as Hd.
    { subst h1 tail.
      change (Raw :: ?l ++ replicate ?n Raw) with (replicate 1 (@Raw T) ++ l ++ replicate n Raw).
      rewrite <- !replicate_add.
      replace (i + (1 + (length suf + (cap' - length xs - 1)))) with cap' by lia. heap_lookup. }
    pose proof (construct_at_tick h1 vs (Some k) w (length h) (0 + i) _ x _ Hd ltac:(len)) as Hc.
    assert (
      Emplace v (ptr_add (begin (mkVector (mkRawMemory (Addr b 0) (length xs)) (length xs))) i) x
        (Machine h vs (Some k) w)
      = (do new_data' <-
           try_catch
             (construct_at (Addr (length h) (0 + i)) x;;
              MoveDataIfPossibleOrCopyInstead (Addr b 0) i (Addr (length h) 0);;
              do rest <- size_sub (length xs) i;
              MoveDataIfPossibleOrCopyInstead (Addr b (0 + i)) rest (Addr (length h) (0 + i + 1));;
              destroy_n (Addr b 0) (length xs);;
              let '(d, nd) := RawMemory_Swap (mkRawMemory (Addr b 0) (length xs))
                                             (mkRawMemory (Addr (length h) 0) cap') in
              set_data v d;;
              set_size v (S (length xs));;
              ret nd)
             (RawMemory_dtor (mkRawMemory (Addr (length h) 0) cap');;
              ret (mkRawMemory (Addr (length h) 0) cap'));
         do r' <- get_vector v;
         RawMemory_dtor new_data';;
         ret (RawMemory_at (data_ r') i)) (Machine h1 vs (Some k) w)) as Hstart.
    { unfold Emplace.
      exec by (by apply get_vector_ok).
      cbn [size_ Capacity RawMemory_Capacity data_ capacity_]. rewrite Nat.eqb_refl.
      unfold InsertWithRealloc.
      exec by (by apply get_vector_ok).
      unfold begin. cbn [GetAddress data_ buffer_ size_ ptr_add].
      assert (distance (Addr b 0) (Addr b (0 + i)) = Some i) as ->.
      { cbn. by rewrite Nat.eqb_refl, Nat.sub_0_r. }
      cbn [of_option].
      exec by reflexivity.
      fold cap'.
      exec by (apply RawMemory_for_elements_ok; lia).
      reflexivity. }
    rewrite Hstart. clear Hstart.
    assert (∀ (B : list cell) w0,
      (do new_data' <- (RawMemory_dtor (mkRawMemory (Addr (length h) 0) cap');;
                        ret (mkRawMemory (Addr (length h) 0) cap'));
       do r' <- get_vector v;
       RawMemory_dtor new_data';;
       ret (RawMemory_at (data_ r') i)) (Machine (<[length h := Block B 0]> h1) vs None w0)
      = Return (Addr b (0 + i)) (Machine (h ++ [Block B 2]) vs None w0)) as Hcatch.
    { intros B w0.
      rewrite (InsertWithRealloc_handler h vs w0 v _ i cap' B Hv); [done|].
      subst h1. by rewrite (insert_middle h []). }
    destruct k as [|k'].
    + (* the construction of the new element throws *)
      eexists _, _. split; [|lia].
      erewrite bind_try_catch_Throw; cycle 1.
      { erewrite bind_Throw; [done|]. rewrite Hc. reflexivity. }
      rewrite <- (list_insert_id h1 (length h) _ Hd). apply Hcatch.
    + cbn [tick] in Hc.
      set (B2 := replicate i Raw ++ Live x :: replicate (length suf) Raw ++ tail) in Hc.
      set (h2 := <[length h := Block B2 0]> h1) in Hc.
      assert (h2 !! b = Some (Block ([] ++ (Live <$> pre) ++ (Live <$> suf)) 0)) as Hs2.
      { subst h2 h1. rewrite list_lookup_insert_ne by lia.
        rewrite lookup_app_l by done. rewrite Hcells. unfold arena.
        rewrite Nat.sub_diag, app_nil_r. cbn. subst pre suf.
        by rewrite <- fmap_app, take_drop. }
      assert (h2 !! length h
              = Some (Block ([] ++ replicate (length pre) Raw
                               ++ Live x :: replicate (length suf) Raw ++ tail) 0)) as Hd2.
      { subst h2 B2. rewrite Hpre. heap_lookup. }
      pose proof (uninitialized_copy_n_range pre h2 vs (Some k') (S w) b (length h) 0 0
                    _ _ _ _ ltac:(lia) Hs2 eq_refl Hd2 eq_refl) as Hcopy1.
      cbn zeta in Hcopy1. rewrite Hpre in Hcopy1.
      destruct (decide (k' < i)) as [Hearly | Hlate].
      * (* a copy of the prefix throws *)
        exists B2. eexists. split.
        -- erewrite bind_try_catch_Throw; cycle 1.
           { exec by exact Hc.
             erewrite bind_Throw; [done|].
             rewrite MoveData_copying by done. exact Hcopy1. }
           apply Hcatch.
        -- intros _. subst B2. apply list_lookup_middle. len.
      * (* a copy of the suffix throws *)
        set (B3 := [] ++ (Live <$> pre) ++ Live x :: replicate (length suf) Raw ++ tail) in Hcopy1.
        set (h3 := <[length h := Block B3 0]> h2) in Hcopy1.
        assert (h3 !! b = Some (Block ((Live <$> pre) ++ (Live <$> suf) ++ []) 0)) as Hs3.
        { subst h3. rewrite list_lookup_insert_ne by lia. rewrite Hs2. by rewrite app_nil_r. }
        assert (h3 !! length h
                = Some (Block (((Live <$> pre) ++ [Live x]) ++ replicate (length suf) Raw ++ tail) 0))
          as Hd3.
        { subst h3 B3 h2 h1. rewrite <- snoc_middle. heap_lookup. }
        pose proof (uninitialized_copy_n_range suf h3 vs (Some (k' - i)) (i + S w)
                      b (length h) (0 + i) (0 + i + 1)
                      _ _ _ _ ltac:(lia) Hs3 ltac:(len) Hd3 ltac:(len)) as Hcopy2.
        cbn zeta in Hcopy2. rewrite Hsuf in Hcopy2.
        rewrite decide_True in Hcopy2 by lia.
        exists B3. eexists. split.
        -- erewrite bind_try_catch_Throw; cycle 1.
           { exec by exact Hc.
             exec by (rewrite MoveData_copying by done; exact Hcopy1).
             unfold size_sub. rewrite (proj2 (Nat.leb_le _ _)) by lia.
             exec by reflexivity.
             erewrite bind_Throw; [done|].
             rewrite MoveData_copying by done. exact Hcopy2. }
           subst h3 h2. rewrite list_insert_insert_eq. apply Hcatch.
        -- intros _. subst B3. cbn [app]. apply list_lookup_middle. len.
Qed.

End InsertFailure.

(** ** Copying *)

Section Copying.
Context {T : Type} {E : Element T}.

Local Abbreviation cell := (cell T).
Local Abbreviation block := (block T).

Implicit Types (h : list block) (vs : list Vector) (f : option nat).
Implicit Types (pre post : list cell) (xs ys : list T) (x y z : T) (r : Vector).
Implicit Types (b i j n w v : nat).

Lemma holds_extend h r xs (B : block) : holds h r xs → holds (h ++ [B]) r xs.
Proof.
  intros (? & ? & Hbuf). split_and!; [done..|].
  destruct (buffer_ (data_ r)); [done|].
  destruct Hbuf as [? Hb]. split; [done|].
  rewrite lookup_app_l; eauto using lookup_lt_Some.
Qed.

Lemma holds_frame h r xs b' (B : block) :
  holds h r xs → (∀ i, buffer_ (data_ r) ≠ Addr b' i) →
  holds (<[b' := B]> h) r xs.
Proof.
  intros (? & ? & Hbuf) Hne. split_and!; [done..|].
  destruct (buffer_ (data_ r)) as [|b i]; [done|].
  destruct Hbuf as [? Hb]. split; [done|].
  rewrite list_lookup_insert_ne; [done|]. intros ->. by apply (Hne i).
Qed.

(* Copy construction from an empty vector allocates nothing. *)
Lemma Vector_copy_empty h vs f w s r :
  vs !! s = Some r → size_ r = 0 →
  Vector_copy s (Machine h vs f w)
  = Return (length vs) (Machine h (vs ++ [mkVector (mkRawMemory nullptr 0) 0]) f w).
Proof.
  intros Hs Hsz. unfold Vector_copy.
  exec by (by apply get_vector_ok).
  rewrite Hsz.
  exec by apply RawMemory_for_elements_zero.
  cbn [uninitialized_copy_n].
  exec by reflexivity.
  done.
Qed.

(* Copy construction from a vector holding [xs], for each state of the
   fuse: a new Vector whose block is new and holds [xs], or, after a copy
   that throws, no new Vector and the new block emptied and released. *)
Lemma Vector_copy_outcome h vs f w s r xs :
  vs !! s = Some r → holds h r xs → xs ≠ [] →
  Vector_copy s (Machine h vs f w)
  = let n := length xs in
    let h' := h ++ [Block (arena n xs) 0] in
    let vs' := vs ++ [mkVector (mkRawMemory (Addr (length h) 0) n) n] in
    match f with
    | None => Return (length vs) (Machine h' vs' None (n + w))
    | Some k =>
        if decide (k < n)
        then Throw (Machine (h ++ [Block (replicate n Raw) 1]) vs None (2 * k + w))
        else Return (length vs) (Machine h' vs' (Some (k - n)) (n + w))
    end.
Proof.
  intros Hs Hr Hxs. destruct r as [[buf cap] sz].
  apply holds_inv in Hr as (-> & Hle & [(-> & -> & ->) | (b & -> & Hb & Hcells)]); [done|].
  assert (length xs ≠ 0) as Hn by (by destruct xs).
  set (h1 := h ++ [Block (replicate (length xs) Raw) 0]).
  assert (h1 !! b = Some (Block ([] ++ (Live <$> xs) ++ replicate (cap - length xs) Raw) 0))
    as Hs1 by (subst h1; heap_lookup).
  assert (h1 !! length h = Some (Block ([] ++ replicate (length xs) Raw ++ []) 0)) as Hd1.
  { subst h1. cbn [app]. rewrite app_nil_r. heap_lookup. }
  pose proof (uninitialized_copy_n_range xs h1 vs f w b (length h) 0 0 _ _ _ _
                ltac:(lia) Hs1 eq_refl Hd1 eq_refl) as Hcopy.
  cbn zeta in Hcopy |- *. unfold Vector_copy.
  exec by (by apply get_vector_ok).
  cbn [size_ data_ GetAddress buffer_].
  exec by (by apply RawMemory_for_elements_ok).
  cbn [GetAddress buffer_].
  assert (<[length h := Block ([] ++ (Live <$> xs) ++ []) 0]> h1
          = h ++ [Block (arena (length xs) xs) 0]) as Hnew.
  { subst h1. rewrite (insert_middle h []). unfold arena. by rewrite Nat.sub_diag. }
  rewrite Hnew in Hcopy.
  destruct f as [k|]; [destruct (decide (k < length xs))|].
  - erewrite bind_Throw; [done|].
    eapply unwinding_Throw; [exact Hcopy|].
    erewrite RawMemory_dtor_block by (subst h1; heap_lookup).
    subst h1. rewrite (insert_middle h []). cbn [app]. by rewrite app_nil_r.
  - by exec by exact Hcopy.
  - by exec by exact Hcopy.
Qed.

Lemma released_lookup_old h (p : ptr) cap (B : block) b :
  b < length h → (∀ i, p ≠ Addr b i) →
  released p cap (h ++ [B]) !! b = h !! b.
Proof.
  intros Hb Hp. destruct p as [|b' i]; cbn.
  - by rewrite lookup_app_l.
  - rewrite list_lookup_insert_ne by (intros ->; by apply (Hp i)).
    by rewrite lookup_app_l.
Qed.

(* Vector_dtor on a well-formed vector: its elements are destroyed and its
   block is released. *)
Lemma Vector_dtor_ok h vs f w v r xs :
  vs !! v = Some r → holds h r xs →
  Vector_dtor v (Machine h vs f w)
  = Return () (Machine (match buffer_ (data_ r) with
                        | nullptr => h
                        | Addr b _ => <[b := Block (replicate (capacity_ (data_ r)) Raw) 1]> h
                        end) vs f (length xs + w)).
Proof.
  intros Hv Hr. destruct r as [[buf cap] sz].
  apply holds_inv in Hr as (-> & Hle & [(-> & -> & ->) | (b & -> & Hb & Hcells)]).
  - unfold Vector_dtor.
    exec by (by apply get_vector_ok).
    cbn [size_ data_ GetAddress buffer_ length destroy_n].
    by exec by reflexivity.
  - unfold Vector_dtor.
    exec by (by apply get_vector_ok).
    cbn [size_ data_ GetAddress buffer_].
    exec by (eapply (destroy_n_range xs _ _ _ _ _ _ []); [exact Hcells | done]).
    erewrite RawMemory_dtor_block by heap_lookup.
    cbn. rewrite list_insert_insert_eq, <- replicate_add.
    do 5 f_equal. lia.
Qed.

(* Copy assignment from a source with more elements than the target has
   capacity, for each state of the fuse: the target takes over a new block
   holding the elements of the source and its old block is emptied and
   released; or, a copy having thrown, every Vector and every block is as
   before and the new block is emptied and released. *)
Lemma copy_assignment_larger h vs f w v s r o xs ys :
  vs !! v = Some r → holds h r xs →
  vs !! s = Some o → holds h o ys →
  capacity_ (data_ r) < size_ o →
  copy_assignment v s (Machine h vs f w)
  = let n := length ys in
    match f with
    | Some k =>
        if decide (k < n)
        then Throw (Machine (h ++ [Block (replicate n Raw) 1]) vs None (2 * k + w))
        else Return () (Machine (released (buffer_ (data_ r)) (capacity_ (data_ r))
                                          (h ++ [Block (arena n ys) 0]))
                                (<[v := mkVector (mkRawMemory (Addr (length h) 0) n) n]> vs)
                                (Some (k - n)) (length xs + (n + w)))
    | None =>
        Return () (Machine (released (buffer_ (data_ r)) (capacity_ (data_ r))
                                     (h ++ [Block (arena n ys) 0]))
                           (<[v := mkVector (mkRawMemory (Addr (length h) 0) n) n]> vs)
                           None (length xs + (n + w)))
    end.
Proof.
  intros Hv Hr Hs Ho Hlt.
  assert (size_ o = length ys ∧ length ys ≤ capacity_ (data_ o)) as [Hsz Hle]
    by (destruct Ho as (? & ? & _); done).
  assert (v ≠ s) as Hvs by (intros ->; assert (r = o) as -> by congruence; lia).
  assert (ys ≠ []) as Hys by (intros ->; cbn in Hsz; lia).
  assert (v < length vs) as Hvlt by eauto using lookup_lt_Some.
  pose proof (Vector_copy_outcome h vs f w s o ys Hs Ho Hys) as Hcopy.
  cbn zeta in Hcopy |- *.
  set (n := length ys) in *. set (t := mkVector (mkRawMemory (Addr (length h) 0) n) n) in *.
  set (h1 := h ++ [Block (arena n ys) 0]) in *.
  assert (∀ f' w',
    (do _ <- (Swap v (length vs);; Vector_dtor (length vs);; end_of_scope (length vs));
     do o' <- get_vector s; set_size v (Size o'))
      (Machine h1 (vs ++ [t]) f' w')
    = Return () (Machine (released (buffer_ (data_ r)) (capacity_ (data_ r)) h1)
                         (<[v := t]> vs) f' (length xs + w'))) as Hrest.
  { intros f' w'.
    exec by (eapply Swap_ok; heap_lookup).
    exec by (eapply (Vector_dtor_ok _ _ _ _ _ r xs); [heap_lookup | by apply holds_extend]).
    unfold end_of_scope at 1. unfold bind at 1. cbn [vecs heap fuse elem_ops].
    rewrite decide_True by (len; lia).
    rewrite take_insert_ge by lia.
    rewrite insert_app_l by done. rewrite take_app_length' by len.
    exec by (apply get_vector_ok; heap_lookup).
    erewrite set_size_ok by heap_lookup.
    rewrite list_insert_insert_eq. unfold Size. rewrite Hsz.
    unfold released. subst t. cbn. by destruct (buffer_ (data_ r)). }
  unfold copy_assignment.
  exec by (by apply get_vector_ok).
  exec by (by apply get_vector_ok).
  unfold RawMemory_Capacity. rewrite (proj2 (Nat.ltb_lt _ _)) by done.
  rewrite ?bind_assoc.
  destruct f as [k|]; [destruct (decide (k < n))|].
  - by erewrite bind_Throw.
  - exec by exact Hcopy. by rewrite Hrest.
  - exec by exact Hcopy. by rewrite Hrest.
Qed.

(* An element of a well-formed vector is overwritten in place. *)
Lemma overwrite_element h vs f w r xs i x :
  holds h r xs → i < length xs →
  ∃ b, buffer_ (data_ r) = Addr b 0 ∧
    overwrite (Vector_at r i) x (Machine h vs f w)
    = Return () (Machine (<[b := Block (arena (capacity_ (data_ r)) (<[i := x]> xs)) 0]> h)
                         vs f (S w)).
Proof.
  intros Hr Hi. destruct r as [[buf cap] sz].
  apply holds_inv in Hr as (-> & Hle & [(-> & -> & ->) | (b & -> & Hb & Hcells)]);
    [cbn in Hi; lia|].
  exists b. split; [done|].
  destruct (lookup_lt_is_Some_2 xs i Hi) as [xi Hxi].
  unfold arena in *. rewrite length_insert.
  rewrite (insert_take_drop xs i x Hi).
  rewrite <- (take_drop_middle xs i xi Hxi) in Hcells at 1.
  rewrite fmap_app, <- app_assoc in Hcells. rewrite fmap_app, <- app_assoc.
  cbn [fmap list_fmap app] in *.
  unfold Vector_at, RawMemory_at. cbn [data_ buffer_ ptr_add].
  eapply overwrite_middle; [exact Hcells|].
  rewrite length_fmap, length_take. lia.
Qed.

End Copying.

(** ** Resize *)

Section Resizing.
Context {T : Type} {E : Element T}.

Local Abbreviation cell := (cell T).
Local Abbreviation block := (block T).

Implicit Types (h : list block) (vs : list Vector) (f : option nat).
Implicit Types (pre post : list cell) (xs ys : list T) (x y z : T) (r : Vector).
Implicit Types (b i j n w v : nat).

(* Shrinking destroys the [size - n] trailing elements where they are;
   nothing can throw, the block stays. *)
Lemma Resize_shrink h vs f w v r xs n :
  vs !! v = Some r → holds h r xs → n < size_ r →
  ∃ b, buffer_ (data_ r) = Addr b 0 ∧
    Resize v n (Machine h vs f w)
    = Return () (Machine (<[b := Block (arena (capacity_ (data_ r)) (take n xs)) 0]> h)
                         (<[v := mkVector (data_ r) n]> vs) f (size_ r - n + w)).
Proof.
  intros Hv Hr Hn. destruct r as [[buf cap] sz]. cbn in Hn |- *.
  apply holds_inv in Hr as (-> & Hle & [(-> & -> & ->) | (b & -> & Hb & Hcells)]);
    [cbn in Hn; lia|].
  exists b. split; [done|]. unfold Resize.
  exec by (eapply Reserve_noop; [done | cbn; lia]).
  exec by (by apply get_vector_ok).
  cbn [size_ data_]. rewrite (proj2 (Nat.ltb_lt _ _)) by done.
  unfold RawMemory_plus. cbn [buffer_ ptr_add].
  unfold arena in Hcells. rewrite <- (take_drop n xs) in Hcells at 1.
  rewrite fmap_app, <- app_assoc in Hcells.
  replace (length xs - n) with (length (drop n xs)) by (by rewrite length_drop).
  exec by (eapply destroy_n_range; [exact Hcells | len]).
  erewrite set_size_ok by done.
  do 2 f_equal. unfold arena. rewrite <- replicate_add, length_take, length_drop.
  do 4 f_equal. lia.
Qed.

Lemma released_insert_new h (p : ptr) cap (B B' : block) :
  (∀ b i, p = Addr b i → b < length h) →
  <[length h := B']> (released p cap (h ++ [B])) = released p cap (h ++ [B']).
Proof.
  intros Hp. destruct p as [|b i]; cbn.
  - apply (insert_middle h []).
  - specialize (Hp b i eq_refl).
    rewrite list_insert_insert_ne by lia. by rewrite (insert_middle h []).
Qed.

Lemma arena_extend cap xs k :
  length xs + k ≤ cap →
  arena cap (xs ++ replicate k default_init)
  = (Live <$> xs) ++ (Live <$> replicate k default_init) ++ replicate (cap - length xs - k) Raw.
Proof.
  intros Hle. unfold arena.
  rewrite fmap_app, <- app_assoc, length_app, length_replicate.
  do 3 f_equal. lia.
Qed.

(* Growing within the capacity builds the new elements in place. *)
Lemma Resize_within h vs w v r xs n :
  vs !! v = Some r → holds h r xs →
  size_ r < n → n ≤ capacity_ (data_ r) →
  ∃ b, buffer_ (data_ r) = Addr b 0 ∧
    Resize v n (Machine h vs None w)
    = Return () (Machine (<[b := Block (arena (capacity_ (data_ r))
                                         (xs ++ replicate (n - size_ r) default_init)) 0]> h)
                         (<[v := mkVector (data_ r) n]> vs) None (n - size_ r + w)).
Proof.
  intros Hv Hr Hlt Hn. destruct r as [[buf cap] sz]. cbn in Hlt, Hn |- *.
  apply holds_inv in Hr as (-> & Hle & [(-> & -> & ->) | (b & -> & Hb & Hcells)]);
    [cbn in Hlt; lia|].
  exists b. split; [done|]. unfold Resize.
  exec by (eapply Reserve_noop; [done | cbn; lia]).
  exec by (by apply get_vector_ok).
  cbn [size_ data_].
  rewrite (proj2 (Nat.ltb_ge _ _)) by lia. rewrite (proj2 (Nat.ltb_lt _ _)) by done.
  unfold RawMemory_plus. cbn [buffer_ ptr_add].
  unfold arena in Hcells.
  replace (cap - length xs) with ((n - length xs) + (cap - length xs - (n - length xs)))
    in Hcells by lia.
  rewrite replicate_add in Hcells.
  exec by (eapply uninitialized_default_construct_n_range; [exact Hcells | len]).
  erewrite set_size_ok by done.
  by rewrite arena_extend by lia.
Qed.

(* Growing beyond the capacity reallocates to exactly [n] slots first. *)
Lemma Resize_beyond h vs w v r xs n :
  vs !! v = Some r → holds h r xs →
  capacity_ (data_ r) < n → no_wrap n →
  ∃ w',
    Resize v n (Machine h vs None w)
    = Return () (Machine (released (buffer_ (data_ r)) (capacity_ (data_ r))
                            (h ++ [Block (arena n (xs ++ replicate (n - size_ r) default_init)) 0]))
                         (<[v := mkVector (mkRawMemory (Addr (length h) 0) n) n]> vs) None w').
Proof.
  intros Hv Hr Hn Hfit.
  assert (size_ r = length xs ∧ length xs ≤ capacity_ (data_ r)) as [Hsz Hle]
    by (destruct Hr as (? & ? & _); done).
  assert (v < length vs) as Hvlt by eauto using lookup_lt_Some.
  destruct (Reserve_grow h vs None w v r xs n Hv Hr Hn Hfit) as (w1 & Hres); [by right|].
  assert (∀ b i, buffer_ (data_ r) = Addr b i → b < length h) as Hold
    by (intros b i; by apply holds_buffer_lt with xs).
  assert (released (buffer_ (data_ r)) (capacity_ (data_ r)) (h ++ [Block (arena n xs) 0])
            !! length h
          = Some (Block ((Live <$> xs) ++ replicate (n - length xs) Raw ++ []) 0)) as Hnew.
  { rewrite released_lookup_new by done. unfold arena. by rewrite app_nil_r. }
  eexists. unfold Resize.
  exec by exact Hres.
  exec by (apply get_vector_ok; heap_lookup).
  cbn [size_ data_].
  rewrite (proj2 (Nat.ltb_ge _ _)) by lia. rewrite (proj2 (Nat.ltb_lt _ _)) by lia.
  unfold RawMemory_plus. cbn [buffer_ ptr_add].
  rewrite Hsz.
  exec by (eapply uninitialized_default_construct_n_range; [exact Hnew | len]).
  erewrite set_size_ok by heap_lookup.
  rewrite list_insert_insert_eq, released_insert_new by done.
  rewrite arena_extend by lia.
  replace (n - length xs - (n - length xs)) with 0 by lia.
  reflexivity.
Qed.

(* Resize during which nothing throws. *)
Lemma Resize_calm h vs w v r xs n :
  vs !! v = Some r → holds h r xs →
  n ≤ capacity_ (data_ r) ∨ no_wrap n →
  ∃ r' h' w',
    Resize v n (Machine h vs None w) = Return () (Machine h' (<[v := r']> vs) None w') ∧
    holds h' r' (take n xs ++ replicate (n - length xs) default_init) ∧
    size_ r' = n ∧
    capacity_ (data_ r') = (if capacity_ (data_ r) <? n then n else capacity_ (data_ r)).
Proof.
  intros Hv Hr Hfit.
  assert (size_ r = length xs ∧ length xs ≤ capacity_ (data_ r)) as [Hsz Hle]
    by (destruct Hr as (? & ? & _); done).
  destruct (Nat.ltb_spec (capacity_ (data_ r)) n) as [Hbig | Hsmall].
  - assert (no_wrap n) as Hfit' by (destruct Hfit; [lia | done]).
    destruct (Resize_beyond h vs w v r xs n Hv Hr Hbig Hfit') as (w' & Hrun).
    eexists (mkVector (mkRawMemory (Addr (length h) 0) n) n), _, _.
    split; [exact Hrun|]. split_and!; [|done..].
    rewrite take_ge by lia. rewrite <- Hsz.
    split_and!; cbn.
    + rewrite length_app, length_replicate. lia.
    + rewrite length_app, length_replicate. lia.
    + split; [done|]. apply released_lookup_new.
      intros b i. by apply holds_buffer_lt with xs.
  - destruct (lt_eq_lt_dec n (size_ r)) as [[Hlt | Heq] | Hgt].
    + destruct (Resize_shrink h vs None w v r xs n Hv Hr Hlt) as (b & Hbuf & Hrun).
      eexists (mkVector (data_ r) n), _, _.
      split; [exact Hrun|]. split_and!; [|done..].
      replace (n - length xs) with 0 by lia. rewrite app_nil_r.
      split_and!; cbn.
      * rewrite length_take. lia.
      * rewrite length_take. lia.
      * rewrite Hbuf. split; [done|].
        apply list_lookup_insert_eq. by apply holds_buffer_lt with r xs 0.
    + exists r, h, w. split_and!; [| |done..].
      * unfold Resize.
        exec by (eapply Reserve_noop; [done | lia]).
        exec by (by apply get_vector_ok).
        rewrite !(proj2 (Nat.ltb_ge _ _)) by lia.
        exec by reflexivity.
        erewrite set_size_ok by done.
        destruct r as [d sz]. cbn in Heq |- *. by subst n.
      * rewrite take_ge by lia. replace (n - length xs) with 0 by lia.
        by rewrite app_nil_r.
    + destruct (Resize_within h vs w v r xs n Hv Hr Hgt Hsmall) as (b & Hbuf & Hrun).
      eexists (mkVector (data_ r) n), _, _.
      split; [exact Hrun|]. split_and!; [|done..].
      rewrite take_ge by lia. rewrite <- Hsz.
      split_and!; cbn.
      * rewrite length_app, length_replicate. lia.
      * rewrite length_app, length_replicate. lia.
      * rewrite Hbuf. split; [done|].
        apply list_lookup_insert_eq. by apply holds_buffer_lt with r xs 0.
Qed.

End Resizing.

(** * The claims of the specification *)

Section Claims.
Context {T : Type} {E : Element T}.

Local Abbreviation cell := (cell T).
Local Abbreviation block := (block T).

Implicit Types (h : list block) (vs : list Vector) (f : option nat).
Implicit Types (xs ys : list T) (x y z : T) (r : Vector).
Implicit Types (b i j n w v : nat).

Lemma read_element h vs f w r xs i x :
  holds h r xs → xs !! i = Some x →
  read (ptr_add (begin r) i) (Machine h vs f w) = Return x (Machine h vs f w).
Proof.
  intros Hr Hx. destruct r as [[buf cap] sz].
  assert (i < length xs) as Hi by eauto using lookup_lt_Some.
  apply holds_inv in Hr as (-> & Hle & [(-> & -> & ->) | (b & -> & Hb & Hcells)]);
    [cbn in Hi; lia|].
  unfold arena in Hcells.
  rewrite <- (take_drop_middle xs i x Hx), fmap_app, <- app_assoc in Hcells.
  cbn [fmap list_fmap app] in Hcells.
  unfold begin. cbn [GetAddress data_ buffer_ ptr_add].
  eapply read_middle; [exact Hcells|].
  rewrite length_fmap, length_take. lia.
Qed.

(** C1 (as amended).  Move construction and move assignment exchange data
    members only: the heap, the fuse and the count of element operations
    are untouched, so no element is copied, moved or destroyed.  After
    move construction from [s] the new vector has the former members of [s]
    (its block, hence its element sequence) and [s] is empty: size 0,
    capacity 0, no storage.  After the move assignment [v = std::move(s)]
    the target [v] has the former members of [s], and [s] has the former
    members of [v]: it holds what the target held, and is empty only if the
    target was. *)
Theorem move_exchanges_members h vs f w s rs xs :
  vs !! s = Some rs → holds h rs xs →
  (∃ vs',
     Vector_move s (Machine h vs f w) = Return (length vs) (Machine h vs' f w) ∧
     (∃ rd, vs' !! length vs = Some rd ∧ holds h rd xs) ∧
     vs' !! s = Some (mkVector RawMemory_default 0) ∧
     holds h (mkVector RawMemory_default 0) []) ∧
  (∀ v rv ys, vs !! v = Some rv → holds h rv ys →
     ∃ vs',
       move_assignment v s (Machine h vs f w) = Return () (Machine h vs' f w) ∧
       (∃ rd, vs' !! v = Some rd ∧ holds h rd xs) ∧
       (∃ rs', vs' !! s = Some rs' ∧ holds h rs' ys)).
Proof.
  intros Hs Hrs. assert (s < length vs) as Hlt by eauto using lookup_lt_Some. split.
  - exists (<[s := mkVector RawMemory_default 0]> vs ++ [rs]). split_and!.
    + unfold Vector_move.
      exec by reflexivity.
      exec by (eapply Swap_ok; heap_lookup).
      unfold ret. do 2 f_equal.
      rewrite (insert_middle vs []). by rewrite insert_app_l.
    + exists rs. split; [|done].
      rewrite lookup_app_r by len. by rewrite length_insert, Nat.sub_diag.
    + rewrite lookup_app_l by len. heap_lookup.
    + done.
  - intros v rv ys Hv Hrv.
    exists (<[s := rv]> (<[v := rs]> vs)). split_and!.
    + unfold move_assignment. by apply Swap_ok.
    + destruct (decide (v = s)) as [-> | Hne].
      * assert (rv = rs) as -> by congruence.
        exists rs. split; [heap_lookup | done].
      * exists rs. split; [heap_lookup | done].
    + exists rv. split; [heap_lookup | done].
Qed.


(** C2.  From a default-constructed vector, any run of appends during which
    nothing throws leaves the size equal to the number of appends and a
    capacity that is 0 or a power of two.  One more append leaves the
    capacity alone unless it finds the size equal to the capacity; then the
    capacity becomes 1 if it was 0, and twice what it was otherwise. *)
Theorem appends_size_and_capacity xs x h vs w :
  ∃ r h' w',
    (do v <- Vector_default; push_all v xs;; ret v) (Machine h vs None w)
    = Return (length vs) (Machine h' (vs ++ [r]) None w') ∧
    holds h' r xs ∧
    Size r = length xs ∧
    (Capacity r = 0 ∨ ∃ k, Capacity r = 2 ^ k) ∧
    ∃ r1 h1 w1 p,
      EmplaceBack (length vs) x (Machine h' (vs ++ [r]) None w')
      = Return p (Machine h1 (vs ++ [r1]) None w1) ∧
      holds h1 r1 (xs ++ [x]) ∧
      Size r1 = S (length xs) ∧
      Capacity r1 = if Size r =? Capacity r
                    then (if Capacity r =? 0 then 1 else 2 * Capacity r)
                    else Capacity r.
Proof.
  set (r0 := mkVector RawMemory_default 0).
  assert (holds h r0 []) as Hr0 by done.
  destruct (push_all_calm (length vs) xs h (vs ++ [r0]) w r0 [] ltac:(heap_lookup) Hr0)
    as (r & h' & w' & Hrun & Hr & Hcap).
  rewrite (insert_middle vs []) in Hrun. cbn [app] in Hr.
  destruct (EmplaceBack_calm h' (vs ++ [r]) w' (length vs) r xs x ltac:(heap_lookup) Hr)
    as (r1 & h1 & w1 & Hrun1 & Hr1 & Hsz1 & Hcap1).
  rewrite (insert_middle vs []) in Hrun1.
  assert (Size r = length xs) as Hsz by (destruct Hr as (? & _); done).
  exists r, h', w'. split_and!.
  - unfold Vector_default.
    exec by reflexivity.
    exec by exact Hrun.
    done.
  - done.
  - done.
  - unfold Capacity, RawMemory_Capacity. rewrite Hcap.
    apply capacity_run_pow2; [cbn; lia | by left].
  - exists r1, h1, w1, (Vector_at r1 (length xs)). split_and!; [done.. | | ].
    + unfold Size in *. lia.
    + unfold Capacity, RawMemory_Capacity, Size. rewrite Hcap1. unfold grow.
      destruct (Nat.eqb_spec (size_ r) (capacity_ (data_ r))) as [Heq|]; [|done].
      rewrite <- Heq. destruct (size_ r); cbn; lia.
Qed.

(** C3 (as amended).  For an element type that cannot throw when moved, or
    that can be copied: when [Reserve(n)] with [n] above the capacity, or an
    append on a full vector, ends with an exception, every Vector object
    has the data members it had and every block that existed is as it was,
    so the container has the same size, capacity and element sequence; the
    block allocated by the operation has been released, once.  After a
    failed [Reserve] that block holds no object.  This is so for every
    [n]: the block has the slots that fit in [n * sizeof(T)] bytes as
    [size_t] computes them, which are [n] slots when the product does not
    wrap. *)
Theorem reallocation_failure_keeps_container h vs f w v r xs :
  vs !! v = Some r → holds h r xs →
  nothrow_move_constructible = true ∨ copy_constructible = true →
  (∀ n m', capacity_ (data_ r) < n →
     Reserve v n (Machine h vs f w) = Throw m' →
     vecs m' = vs ∧ holds (heap m') r xs ∧
     heap m' = h ++ [Block (replicate (allocated n) Raw) 1] ∧
     (no_wrap n → allocated n = n)) ∧
  (∀ x m', size_ r = capacity_ (data_ r) →
     EmplaceBack v x (Machine h vs f w) = Throw m' →
     vecs m' = vs ∧ holds (heap m') r xs ∧
     ∃ B, heap m' = h ++ [B] ∧ frees B = 1).
Proof.
  intros Hv Hr Htraits.
  assert (nothrow_move_constructible = true ∨ copy_constructible = true ∨ f = None)
    as Hf by tauto.
  split.
  - intros n m' Hn Hrun.
    destruct (Reserve_throw_restores h vs f w v r n m' Hv Hn Htraits Hrun) as [Hvecs Hheap].
    split_and!; [done | | done | apply allocated_no_wrap].
    rewrite Hheap. by apply holds_extend.
  - intros x m' Hfull Hrun.
    destruct (EmplaceBack_full h vs f w v r xs x Hv Hr Hfull Hf)
      as [(f' & w' & _ & Hret) | (B & w' & _ & HB & Hthrow)]; [congruence|].
    rewrite Hthrow in Hrun. injection Hrun as <-. cbn.
    split_and!; [done | by apply holds_extend | by exists B].
Qed.

(** C4 (what the code does instead).  Emplace on a full vector whose
    elements are copied over ([T] copy constructible, its move constructor
    not noexcept), at [begin() + i], when the fallible operation number [k]
    of the transfer throws: the construction of the new element for
    [k = 0], the copy of an old element otherwise.  As the claim says, the
    Vector objects and the old block are as before: the container keeps
    its storage, size and elements.  But the exception does not leave
    Emplace, which returns normally; the new block [B] has been released
    twice, not once; and unless the construction of the new element is what
    threw, the object built for it in slot [i] of the new block was never
    destroyed. *)
Theorem Emplace_failure_releases_block_twice h vs w v r xs i x k :
  nothrow_move_constructible = false → copy_constructible = true →
  vs !! v = Some r → holds h r xs →
  size_ r = capacity_ (data_ r) → i ≤ length xs → k ≤ length xs →
  ∃ p m' B,
    Emplace v (ptr_add (begin r) i) x (Machine h vs (Some k) w) = Return p m' ∧
    vecs m' = vs ∧ holds (heap m') r xs ∧
    heap m' = h ++ [B] ∧ frees B = 2 ∧
    (0 < k → cells B !! i = Some (Live x)).
Proof.
  intros Hnt Hcp Hv Hr Hfull Hi Hk.
  destruct (InsertWithRealloc_copy_throws h vs w v r xs i x k Hnt Hcp Hv Hr Hfull Hi Hk)
    as (B & w' & Hrun & Hleft).
  eexists _, _, (Block B 2). split_and!; [exact Hrun | done | | done | done | done].
  cbn. by apply holds_extend.
Qed.

(** X21.  Insertion of a value that the caller holds: an argument that
    is a temporary or an object outside the vector, so that what the
    constructor builds from it is [x] whenever it runs.  For a position
    [pos = begin() + i] with [i <= size], an Insert or Emplace during which
    nothing throws increases the size by one, leaves the elements that were
    before [pos] and those that were from [pos] on in their order with [x]
    between them, at index [i], and returns the position [begin() + i] of
    the vector as it is afterwards, where [x] is read. *)
Theorem insert_places_value h vs w v r xs i x :
  vs !! v = Some r → holds h r xs → i ≤ length xs →
  ∃ r' h' w',
    let m' := Machine h' (<[v := r']> vs) None w' in
    Emplace v (ptr_add (begin r) i) x (Machine h vs None w)
    = Return (ptr_add (begin r') i) m' ∧
    Insert v (ptr_add (begin r) i) x (Machine h vs None w)
    = Return (ptr_add (begin r') i) m' ∧
    holds h' r' (take i xs ++ x :: drop i xs) ∧
    Size r' = S (Size r) ∧
    read (ptr_add (begin r') i) m' = Return x m'.
Proof.
  intros Hv Hr Hi.
  destruct (Emplace_calm h vs w v r xs i x Hv Hr Hi) as (r' & h' & w' & Hrun & Hr' & Hsz).
  exists r', h', w'. cbn zeta. split_and!; [done.. |].
  eapply read_element; [exact Hr'|].
  apply list_lookup_middle. rewrite length_take. lia.
Qed.

(** C6.  On a non-empty vector, [Erase(begin() + i)] with [i < size],
    during which no move assignment throws, removes the element at index
    [i], leaves the others in their order, the later ones one slot to the
    left, decrements the size and returns the same position; the storage is
    the same.  On an empty vector [Erase(pos)] changes nothing and returns
    [pos], whatever [pos] is. *)
Theorem erase_removes_one h vs f w v r xs :
  vs !! v = Some r → holds h r xs →
  (∀ i, i < length xs → nothrow_move_assignable = true ∨ f = None →
     ∃ r' h' w',
       Erase v (ptr_add (begin r) i) (Machine h vs f w)
       = Return (ptr_add (begin r) i) (Machine h' (<[v := r']> vs) f w') ∧
       holds h' r' (take i xs ++ drop (S i) xs) ∧
       Size r' = Size r - 1 ∧ data_ r' = data_ r) ∧
  (xs = [] → ∀ p, Erase v p (Machine h vs f w) = Return p (Machine h vs f w)).
Proof.
  intros Hv Hr.
  assert (size_ r = length xs ∧ length xs ≤ capacity_ (data_ r)) as [Hsz Hle]
    by (destruct Hr as (? & ? & _); done).
  split.
  - intros i Hi Hf.
    destruct (Erase_at h vs f w v r xs i Hv Hr Hi Hf) as (b & w' & Hbuf & Hrun).
    eexists (mkVector (data_ r) (size_ r - 1)), _, _.
    split_and!; [exact Hrun | | done..].
    split_and!; cbn.
    + rewrite length_app, length_take, length_drop. lia.
    + rewrite length_app, length_take, length_drop. lia.
    + rewrite Hbuf. split; [done|].
      apply list_lookup_insert_eq. exact (holds_buffer_lt h r xs b 0 Hr Hbuf).
  - intros -> p. by apply (Erase_empty _ _ _ _ _ r).
Qed.

(** C7.  Copy construction during which nothing throws yields a new Vector
    with the element sequence of the source, in storage of its own:
    overwriting an element of the copy leaves the source holding what it
    held, and overwriting an element of the source leaves the copy holding
    what it held.  Copy assignment from a source with more elements than
    the target has capacity: when nothing throws the target ends up with
    the block and the capacity of a complete copy of the source, and the
    source is as it was; when it ends with an exception, every Vector and
    every block that existed is as before, so the target is untouched, and
    the block of the temporary copy has been emptied and released. *)
Theorem copies_are_independent h vs w s r xs :
  vs !! s = Some r → holds h r xs →
  (∃ rc h' w',
     Vector_copy s (Machine h vs None w) = Return (length vs) (Machine h' (vs ++ [rc]) None w') ∧
     holds h' rc xs ∧ holds h' r xs ∧
     (∀ i x f1 w1, i < length xs →
        ∃ h'', overwrite (Vector_at rc i) x (Machine h' (vs ++ [rc]) f1 w1)
               = Return () (Machine h'' (vs ++ [rc]) f1 (S w1)) ∧
               holds h'' rc (<[i := x]> xs) ∧ holds h'' r xs) ∧
     (∀ i x f1 w1, i < length xs →
        ∃ h'', overwrite (Vector_at r i) x (Machine h' (vs ++ [rc]) f1 w1)
               = Return () (Machine h'' (vs ++ [rc]) f1 (S w1)) ∧
               holds h'' r (<[i := x]> xs) ∧ holds h'' rc xs)) ∧
  (∀ v rv ys, vs !! v = Some rv → holds h rv ys → capacity_ (data_ rv) < size_ r →
     (∃ rv' h' w',
        copy_assignment v s (Machine h vs None w)
        = Return () (Machine h' (<[v := rv']> vs) None w') ∧
        holds h' rv' xs ∧ holds h' r xs ∧
        buffer_ (data_ rv') = Addr (length h) 0 ∧ Capacity rv' = length xs) ∧
     (∀ f m', copy_assignment v s (Machine h vs f w) = Throw m' →
        vecs m' = vs ∧ holds (heap m') rv ys ∧
        heap m' = h ++ [Block (replicate (length xs) Raw) 1])).
Proof.
  intros Hs Hr.
  assert (size_ r = length xs ∧ length xs ≤ capacity_ (data_ r)) as [Hsz Hle]
    by (destruct Hr as (? & ? & _); done).
  split.
  - destruct (decide (xs = [])) as [-> | Hxs].
    + exists (mkVector (mkRawMemory nullptr 0) 0), h, w.
      split_and!; [by apply (Vector_copy_empty _ _ _ _ _ r) | done | done | |];
        intros i x f1 w1 Hi; cbn in Hi; lia.
    + pose proof (Vector_copy_outcome h vs None w s r xs Hs Hr Hxs) as Hrun.
      cbn zeta in Hrun.
      set (rc := mkVector (mkRawMemory (Addr (length h) 0) (length xs)) (length xs)) in *.
      set (h' := h ++ [Block (arena (length xs) xs) 0]) in *.
      assert (holds h' rc xs) as Hrc.
      { split_and!; cbn; [done | done |]. split; [done|]. subst h'. heap_lookup. }
      assert (holds h' r xs) as Hr' by (by apply holds_extend).
      exists rc, h', (length xs + w). split_and!; [done..| |].
      * intros i x f1 w1 Hi.
        destruct (overwrite_element h' (vs ++ [rc]) f1 w1 rc xs i x Hrc Hi)
          as (b & Hbuf & Hrun').
        eexists. split_and!; [exact Hrun' | |].
        -- injection Hbuf as <-. split_and!; cbn.
           ++ by rewrite length_insert.
           ++ by rewrite length_insert.
           ++ split; [done|]. apply list_lookup_insert_eq. subst h'. len.
        -- injection Hbuf as <-. apply holds_frame; [done|].
           intros j Hj. pose proof (holds_buffer_lt h r xs _ _ Hr Hj). lia.
      * intros i x f1 w1 Hi.
        destruct (overwrite_element h' (vs ++ [rc]) f1 w1 r xs i x Hr' Hi)
          as (b & Hbuf & Hrun').
        pose proof (holds_buffer_lt h r xs _ _ Hr Hbuf) as Hb.
        eexists. split_and!; [exact Hrun' | |].
        -- split_and!; cbn.
           ++ by rewrite length_insert.
           ++ by rewrite length_insert.
           ++ rewrite Hbuf. split; [done|]. apply list_lookup_insert_eq. subst h'. len.
        -- apply holds_frame; [done|]. cbn. intros j [=]. lia.
  - intros v rv ys Hv Hrv Hlt.
    pose proof (copy_assignment_larger h vs) as Hrun.
    assert (∀ b j, buffer_ (data_ rv) = Addr b j → b < length h) as Hold
      by (intros b j; by apply holds_buffer_lt with ys).
    split.
    + specialize (Hrun None w v s rv r ys xs Hv Hrv Hs Hr Hlt). cbn zeta in Hrun.
      eexists (mkVector (mkRawMemory (Addr (length h) 0) (length xs)) (length xs)), _, _.
      split_and!; [exact Hrun | | | done..].
      * split_and!; cbn; [done | done |]. split; [done|].
        by apply released_lookup_new.
      * destruct Hr as (? & ? & Hbuf). split_and!; [done..|].
        destruct (buffer_ (data_ r)) as [|b j] eqn:Hb; [done|].
        destruct Hbuf as [-> Hlook]. split; [done|].
        rewrite released_lookup_old; eauto using lookup_lt_Some.
        intros i Hi.
        destruct Hrv as (_ & ? & Hbufv). rewrite Hi in Hbufv. destruct Hbufv as [_ Hlookv].
        rewrite Hlook in Hlookv. injection Hlookv as Hcells.
        apply (f_equal length) in Hcells. unfold arena in Hcells.
        rewrite !length_app, !length_fmap, !length_replicate in Hcells. lia.
    + intros f m' Hthrow.
      specialize (Hrun f w v s rv r ys xs Hv Hrv Hs Hr Hlt). cbn zeta in Hrun.
      rewrite Hrun in Hthrow.
      destruct f as [k|]; [destruct (decide (k < length xs))|]; try discriminate.
      injection Hthrow as <-. cbn.
      split_and!; [done | by apply holds_extend | done].
Qed.

(** C8 (as amended).  [Reserve(n)] with [n] at most the capacity changes
    nothing at all.  Otherwise, for [n] such that [n * sizeof(T)] does not
    wrap in [size_t], when nothing throws, the capacity afterwards is at
    least [n] and not less than before, and the size and the element
    sequence are what they were. *)
Theorem Reserve_never_shrinks h vs f w v r xs n :
  vs !! v = Some r → holds h r xs →
  (n ≤ Capacity r → Reserve v n (Machine h vs f w) = Return () (Machine h vs f w)) ∧
  (Capacity r < n → no_wrap n → nothrow_move_constructible = true ∨ f = None →
     ∃ r' h' w',
       Reserve v n (Machine h vs f w) = Return () (Machine h' (<[v := r']> vs) f w') ∧
       holds h' r' xs ∧ Size r' = Size r ∧
       n ≤ Capacity r' ∧ Capacity r ≤ Capacity r').
Proof.
  intros Hv Hr. split.
  - intros Hn. by apply (Reserve_noop _ _ _ _ _ r).
  - intros Hn Hfit Hf.
    assert (size_ r = length xs ∧ length xs ≤ capacity_ (data_ r)) as [Hsz Hle]
      by (destruct Hr as (? & ? & _); done).
    unfold Capacity, RawMemory_Capacity in Hn.
    destruct (Reserve_grow h vs f w v r xs n Hv Hr Hn Hfit Hf) as (w' & Hrun).
    eexists (mkVector (mkRawMemory (Addr (length h) 0) n) (size_ r)), _, _.
    split_and!; [exact Hrun | | done | |];
      [| unfold Capacity, RawMemory_Capacity; cbn; lia..].
    split_and!; cbn; [done | lia |]. split; [done|].
    apply released_lookup_new. intros b j. by apply holds_buffer_lt with xs.
Qed.

(** C9 (as amended).  [Resize(n)] with [n] below the size destroys the
    [size - n] trailing elements, exactly that many element operations and
    none that can throw, and keeps the storage: same block, same capacity,
    no block allocated.  [Resize(n)] with [n] above the size, for [n] within
    the capacity or such that [n * sizeof(T)] does not wrap in [size_t],
    when nothing throws, appends [n - size] default-constructed elements.
    In both cases the elements kept are the first ones, in order, and the
    size is [n]. *)
Theorem Resize_keeps_prefix h vs w v r xs n :
  vs !! v = Some r → holds h r xs →
  (n < Size r → ∀ f,
     ∃ h',
       Resize v n (Machine h vs f w)
       = Return () (Machine h' (<[v := mkVector (data_ r) n]> vs) f (Size r - n + w)) ∧
       holds h' (mkVector (data_ r) n) (take n xs) ∧
       length h' = length h) ∧
  (Size r < n → n ≤ Capacity r ∨ no_wrap n →
     ∃ r' h' w',
       Resize v n (Machine h vs None w) = Return () (Machine h' (<[v := r']> vs) None w') ∧
       holds h' r' (xs ++ replicate (n - Size r) default_init) ∧
       Size r' = n).
Proof.
  intros Hv Hr.
  assert (size_ r = length xs ∧ length xs ≤ capacity_ (data_ r)) as [Hsz Hle]
    by (destruct Hr as (? & ? & _); done).
  split.
  - intros Hn f.
    destruct (Resize_shrink h vs f w v r xs n Hv Hr Hn) as (b & Hbuf & Hrun).
    eexists. split_and!; [exact Hrun | | by rewrite length_insert].
    unfold Size in Hn.
    split_and!; cbn.
    + rewrite length_take. lia.
    + rewrite length_take. lia.
    + rewrite Hbuf. split; [done|].
      apply list_lookup_insert_eq. exact (holds_buffer_lt h r xs b 0 Hr Hbuf).
  - intros Hn Hfit. unfold Size in Hn.
    destruct (Resize_calm h vs w v r xs n Hv Hr Hfit)
      as (r' & h' & w' & Hrun & Hr' & Hsz' & _).
    exists r', h', w'. split_and!; [done | | done].
    rewrite take_ge in Hr' by lia. unfold Size. by rewrite Hsz.
Qed.

(** C10 (as amended).  [Reserve(n)] with [n] above the capacity and such
    that [n * sizeof(T)] does not wrap in [size_t], when nothing throws,
    leaves the capacity equal to [n]; so does [Resize(n)] with such an [n],
    which leaves the size equal to [n] as well. *)
Theorem growth_to_exact_capacity h vs f w v r xs n :
  vs !! v = Some r → holds h r xs → Capacity r < n → no_wrap n →
  (nothrow_move_constructible = true ∨ f = None →
     ∃ r' h' w',
       Reserve v n (Machine h vs f w) = Return () (Machine h' (<[v := r']> vs) f w') ∧
       holds h' r' xs ∧ Capacity r' = n) ∧
  (∃ r' h' w',
     Resize v n (Machine h vs None w) = Return () (Machine h' (<[v := r']> vs) None w') ∧
     Capacity r' = n ∧ Size r' = n).
Proof.
  intros Hv Hr Hn Hfit. unfold Capacity, RawMemory_Capacity in Hn.
  assert (size_ r = length xs ∧ length xs ≤ capacity_ (data_ r)) as [Hsz Hle]
    by (destruct Hr as (? & ? & _); done).
  split.
  - intros Hf.
    destruct (Reserve_grow h vs f w v r xs n Hv Hr Hn Hfit Hf) as (w' & Hrun).
    eexists (mkVector (mkRawMemory (Addr (length h) 0) n) (size_ r)), _, _.
    split_and!; [exact Hrun | | done].
    split_and!; cbn; [done | lia |]. split; [done|].
    apply released_lookup_new. intros b j. by apply holds_buffer_lt with xs.
  - destruct (Resize_beyond h vs w v r xs n Hv Hr Hn Hfit) as (w' & Hrun).
    eexists (mkVector (mkRawMemory (Addr (length h) 0) n) n), _, _.
    split_and!; [exact Hrun | done..].
Qed.

End Claims.

(** * The claims at concrete vectors *)

(* The hypothesis that a vector is well formed, on a concrete heap. *)
Ltac holds_here := repeat split; cbn; lia.

Lemma move_exchanges_members_witness :
  (∃ vs',
     Vector_move 1 two_vectors = Return 2 (Machine (heap two_vectors) vs' None 0) ∧
     (∃ rd, vs' !! 2 = Some rd ∧ holds (heap two_vectors) rd [2; 3]) ∧
     vs' !! 1 = Some (mkVector RawMemory_default 0) ∧
     holds (heap two_vectors) (mkVector RawMemory_default 0) []) ∧
  (∃ vs',
     move_assignment 0 1 two_vectors = Return () (Machine (heap two_vectors) vs' None 0) ∧
     (∃ rd, vs' !! 0 = Some rd ∧ holds (heap two_vectors) rd [2; 3]) ∧
     (∃ rs', vs' !! 1 = Some rs' ∧ holds (heap two_vectors) rs' [1])).
Proof.
  pose proof (move_exchanges_members (heap two_vectors) (vecs two_vectors) None 0 1
                (vector_in 1 2 2) [2; 3] eq_refl ltac:(holds_here)) as [Hctor Hassign].
  split.
  - exact Hctor.
  - exact (Hassign 0 (vector_in 0 1 1) [1] eq_refl ltac:(holds_here)).
Defined.

(** C1, as stated, fails for move assignment: after [v = std::move(s)]
    with [v] holding [1] and [s] holding [2; 3], the moved-from [s] is not
    empty; it has size 1 and owns the block that was the target's. *)
Lemma move_assignment_source_not_empty :
  move_assignment 0 1 two_vectors = Return () two_vectors_exchanged ∧
  vecs two_vectors_exchanged !! 1 = Some (vector_in 0 1 1) ∧
  size_ (vector_in 0 1 1) ≠ 0 ∧ buffer_ (data_ (vector_in 0 1 1)) ≠ nullptr ∧
  holds (heap two_vectors_exchanged) (vector_in 0 1 1) [1].
Proof.
  split_and!; [vm_compute; reflexivity | reflexivity | done | done | holds_here].
Qed.

Lemma reallocation_failure_keeps_container_witness :
  (let m' := Machine [Block [Live 1; Live 2] 0; Block [Raw; Raw; Raw; Raw] 1]
                     [vector_in 0 2 2] None 2 in
   vecs m' = vecs full_pair ∧
   holds (heap m') (vector_in 0 2 2) [1; 2] ∧
   heap m' = heap full_pair ++ [Block (replicate 4 Raw) 1]) ∧
  (let m' := Machine [Block [Live 1; Live 2] 0; Block [Raw; Raw; Live 7; Raw] 1]
                     [vector_in 0 2 2] None 1 in
   vecs m' = vecs full_pair ∧
   holds (heap m') (vector_in 0 2 2) [1; 2] ∧
   ∃ B, heap m' = heap full_pair ++ [B] ∧ frees B = 1).
Proof.
  pose proof (reallocation_failure_keeps_container (E := copyable_element)
                (heap full_pair) (vecs full_pair) (Some 1) 0 0 (vector_in 0 2 2) [1; 2]
                eq_refl ltac:(holds_here) (or_intror eq_refl)) as [HReserve HEmplaceBack].
  split.
  - destruct (HReserve 4 _ ltac:(cbn; lia) eq_refl) as (Hvecs & Hholds & Hheap & _).
    split_and!; [exact Hvecs | exact Hholds | exact Hheap].
  - exact (HEmplaceBack 7 _ eq_refl eq_refl).
Defined.

(** C3, as stated, fails for a move-only element type whose move
    constructor may throw: [Reserve(4)] on a vector holding [1; 2] moves
    the first element, the move of the second throws, and the container is
    left holding a moved-from object in its first slot. *)
Lemma Reserve_failure_leaves_moved_from_elements :
  Reserve (E := move_only_element) 0 4 full_pair = Throw full_pair_half_moved ∧
  holds (heap full_pair) (vector_in 0 2 2) [1; 2] ∧
  vecs full_pair_half_moved !! 0 = Some (vector_in 0 2 2) ∧
  holds (heap full_pair_half_moved) (vector_in 0 2 2) [0; 2] ∧
  ¬ holds (heap full_pair_half_moved) (vector_in 0 2 2) [1; 2].
Proof.
  split_and!; [vm_compute; reflexivity | holds_here | reflexivity | holds_here |].
  intros (_ & _ & _ & Hcells). vm_compute in Hcells. discriminate.
Qed.

(* The slip C3's amended statement leaves out: when the transfer throws
   during an append on a full vector, the object already built in the new
   block for the appended value is never destroyed; the block is released
   with it inside. *)
Example EmplaceBack_failure_abandons_new_element :
  EmplaceBack (E := copyable_element) 0 7 full_single
  = Throw (Machine [Block [Live 1] 0; Block [Raw; Live 7] 1] [vector_in 0 1 1] None 1).
Proof. vm_compute. reflexivity. Qed.

Lemma Emplace_failure_releases_block_twice_witness :
  ∃ p m' B,
    Emplace (E := copyable_element) 0 (Addr 0 0) 7 full_single = Return p m' ∧
    vecs m' = vecs full_single ∧ holds (heap m') (vector_in 0 1 1) [1] ∧
    heap m' = heap full_single ++ [B] ∧ frees B = 2 ∧
    (0 < 1 → cells B !! 0 = Some (Live 7)).
Proof.
  apply (Emplace_failure_releases_block_twice (E := copyable_element)
           (heap full_single) (vecs full_single) 0 0 (vector_in 0 1 1) [1] 0 7 1
           eq_refl eq_refl eq_refl ltac:(holds_here) eq_refl
           ltac:(cbn; lia) ltac:(cbn; lia)).
Defined.

(* The same failure, run, and the one where the construction of the new
   element throws. *)
Example Emplace_failure_on_full_single :
  Emplace (E := copyable_element) 0 (Addr 0 0) 7 full_single
  = Return (Addr 0 0)
      (Machine [Block [Live 1] 0; Block [Live 7; Raw] 2] [vector_in 0 1 1] None 1) ∧
  Emplace (E := copyable_element) 0 (Addr 0 0) 7 full_single_now
  = Return (Addr 0 0)
      (Machine [Block [Live 1] 0; Block [Raw; Raw] 2] [vector_in 0 1 1] None 0).
Proof. split; vm_compute; reflexivity. Qed.

Lemma insert_places_value_witness :
  ∃ r' h' w',
    Insert (E := int_element) 0 (Addr 0 1) 10 roomy_triple
    = Return (ptr_add (begin r') 1) (Machine h' [r'] None w') ∧
    holds h' r' [1; 10; 2; 3] ∧ Size r' = 4 ∧
    read (ptr_add (begin r') 1) (Machine h' [r'] None w')
    = Return 10 (Machine h' [r'] None w').
Proof.
  destruct (insert_places_value (E := int_element)
              (heap roomy_triple) (vecs roomy_triple) 0 0 (vector_in 0 4 3) [1; 2; 3] 1 10
              eq_refl ltac:(holds_here) ltac:(cbn; lia))
    as (r' & h' & w' & _ & Hrun & Hr' & Hsz & Hread).
  exists r', h', w'. split_and!; [exact Hrun | exact Hr' | exact Hsz | exact Hread].
Defined.

(** C5.  [Insert(pos, value)] takes [value] by reference, and on the path
    without reallocation it reads it only after the elements from [pos] on
    have been shifted.  On the vector holding [1; 2; 3] with capacity 4,
    [v.Insert(v.begin(), v[2])] is asked to insert the value 3, which is
    what [v[2]] holds at the call; the vector ends up holding [2; 1; 2; 3]:
    the value at index 0 is 2, not 3.  The path with reallocation builds
    the new element before it moves anything: on the full vector holding
    [2; 3], [v.Insert(v.begin(), v[1])] gives [3; 2; 3]. *)
Theorem Insert_of_own_element_misplaces_value :
  holds (heap roomy_triple) (vector_in 0 4 3) [1; 2; 3] ∧
  read (Vector_at (vector_in 0 4 3) 2) roomy_triple = Return 3 roomy_triple ∧
  Insert_by_ref (E := int_element) 0 (begin (vector_in 0 4 3)) (Vector_at (vector_in 0 4 3) 2)
                roomy_triple
  = Return (Addr 0 0)
      (Machine [Block [Live 2; Live 1; Live 2; Live 3] 0] [vector_in 0 4 4] None 9) ∧
  Insert_by_ref (E := int_element) 1 (begin (vector_in 1 2 2)) (Vector_at (vector_in 1 2 2) 1)
                two_vectors
  = Return (Addr 2 0)
      (Machine [Block [Live 1] 0; Block [Raw; Raw] 1; Block [Live 3; Live 2; Live 3; Raw] 0]
               [vector_in 0 1 1; vector_in 2 4 3] None 7).
Proof. split_and!; [holds_here | reflexivity | vm_compute; reflexivity..]. Qed.

Lemma erase_removes_one_witness :
  (∃ r' h' w',
     Erase (E := int_element) 0 (Addr 0 1) roomy_triple
     = Return (Addr 0 1) (Machine h' [r'] None w') ∧
     holds h' r' [1; 3] ∧ Size r' = 2 ∧ data_ r' = data_ (vector_in 0 4 3)) ∧
  (∀ p, Erase (E := int_element) 0 p empty_vector = Return p empty_vector).
Proof.
  split.
  - apply (proj1 (erase_removes_one (E := int_element)
                    (heap roomy_triple) (vecs roomy_triple) None 0 0 (vector_in 0 4 3) [1; 2; 3]
                    eq_refl ltac:(holds_here))
                 1 ltac:(cbn; lia) (or_introl eq_refl)).
  - apply (proj2 (erase_removes_one (E := int_element)
                    (heap empty_vector) (vecs empty_vector) None 0 0
                    (mkVector RawMemory_default 0) [] eq_refl ltac:(holds_here))
                 eq_refl).
Defined.

Lemma copies_are_independent_witness :
  (∃ rc h' w',
     Vector_copy 1 two_vectors = Return 2 (Machine h' (vecs two_vectors ++ [rc]) None w') ∧
     holds h' rc [2; 3] ∧ holds h' (vector_in 1 2 2) [2; 3]) ∧
  (∃ rv' h' w',
     copy_assignment 0 1 two_vectors
     = Return () (Machine h' (<[0 := rv']> (vecs two_vectors)) None w') ∧
     holds h' rv' [2; 3] ∧ holds h' (vector_in 1 2 2) [2; 3] ∧
     buffer_ (data_ rv') = Addr 2 0 ∧ Capacity rv' = 2).
Proof.
  pose proof (copies_are_independent
                (heap two_vectors) (vecs two_vectors) 0 1 (vector_in 1 2 2) [2; 3]
                eq_refl ltac:(holds_here)) as [Hctor Hassign].
  split.
  - destruct Hctor as (rc & h' & w' & Hrun & Hrc & Hr & _).
    exists rc, h', w'. split_and!; [exact Hrun | exact Hrc | exact Hr].
  - exact (proj1 (Hassign 0 (vector_in 0 1 1) [1] eq_refl ltac:(holds_here)
                    ltac:(cbn; lia))).
Defined.

Lemma Reserve_never_shrinks_witness :
  Reserve (E := int_element) 0 4 roomy_triple = Return () roomy_triple ∧
  ∃ r' h' w',
    Reserve (E := int_element) 0 8 roomy_triple = Return () (Machine h' [r'] None w') ∧
    holds h' r' [1; 2; 3] ∧ Size r' = 3 ∧ 8 ≤ Capacity r' ∧ 4 ≤ Capacity r'.
Proof.
  split.
  - apply (proj1 (Reserve_never_shrinks (E := int_element)
                    (heap roomy_triple) (vecs roomy_triple) None 0 0 (vector_in 0 4 3)
                    [1; 2; 3] 4 eq_refl ltac:(holds_here))
                 ltac:(cbn; lia)).
  - apply (proj2 (Reserve_never_shrinks (E := int_element)
                    (heap roomy_triple) (vecs roomy_triple) None 0 0 (vector_in 0 4 3)
                    [1; 2; 3] 8 eq_refl ltac:(holds_here))
                 ltac:(cbn; lia) eq_refl (or_introl eq_refl)).
Defined.

Lemma Resize_keeps_prefix_witness :
  (∃ h',
     Resize (E := int_element) 0 1 roomy_triple
     = Return () (Machine h' [vector_in 0 4 1] None 2) ∧
     holds h' (vector_in 0 4 1) [1] ∧ length h' = 1) ∧
  (∃ r' h' w',
     Resize (E := copyable_element) 0 5 roomy_triple = Return () (Machine h' [r'] None w') ∧
     holds h' r' [1; 2; 3; 0; 0] ∧ Size r' = 5).
Proof.
  split.
  - apply (proj1 (Resize_keeps_prefix (E := int_element)
                    (heap roomy_triple) (vecs roomy_triple) 0 0 (vector_in 0 4 3) [1; 2; 3] 1
                    eq_refl ltac:(holds_here))
                 ltac:(cbn; lia) None).
  - apply (proj2 (Resize_keeps_prefix (E := copyable_element)
                    (heap roomy_triple) (vecs roomy_triple) 0 0 (vector_in 0 4 3) [1; 2; 3] 5
                    eq_refl ltac:(holds_here))
                 ltac:(cbn; lia) (or_intror eq_refl)).
Defined.

Lemma growth_to_exact_capacity_witness :
  (∃ r' h' w',
     Reserve (E := copyable_element) 0 9 roomy_triple = Return () (Machine h' [r'] None w') ∧
     holds h' r' [1; 2; 3] ∧ Capacity r' = 9) ∧
  (∃ r' h' w',
     Resize (E := copyable_element) 0 9 roomy_triple = Return () (Machine h' [r'] None w') ∧
     Capacity r' = 9 ∧ Size r' = 9).
Proof.
  pose proof (growth_to_exact_capacity (E := copyable_element)
                (heap roomy_triple) (vecs roomy_triple) None 0 0 (vector_in 0 4 3) [1; 2; 3] 9
                eq_refl ltac:(holds_here) ltac:(cbn; lia) eq_refl) as [HReserve HResize].
  split.
  - exact (HReserve (or_intror eq_refl)).
  - exact HResize.
Defined.

(** * Requests whose byte count wraps

    A vector of a 4-byte element type, such as [Vector<int>], on a machine
    with a 64-bit [size_t]: for [n = 2^62 = 4611686018427387904] the
    product [n * sizeof(T)] is 2^64, which [size_t] holds as 0.
    [RawMemory(n)] records the capacity [n] over a block without room for
    a single element, and the transfer of the first element writes outside
    that block. *)

Lemma allocated_for_2_62 {T} {E : Element T} :
  sizeof_T = 4%positive → allocated (N.to_nat 4611686018427387904) = 0.
Proof.
  intros Hsize. unfold allocated, byte_count. rewrite N2Nat.id, Hsize. reflexivity.
Qed.

(** C8, as stated, fails for a request whose byte count wraps:
    [Reserve(2^62)] on the vector of [int] holding [2; 3] does not leave
    the elements as they were with a capacity of at least [n]; it overruns
    the block it allocated, which is undefined behaviour. *)
Lemma Reserve_of_wrapping_request_overruns :
  holds (heap two_vectors) (vector_in 1 2 2) [2; 3] ∧
  Capacity (vector_in 1 2 2) < N.to_nat 4611686018427387904 ∧
  Reserve (E := int_element) 1 (N.to_nat 4611686018427387904) two_vectors = Fault.
Proof.
  assert (Capacity (vector_in 1 2 2) < N.to_nat 4611686018427387904) as Hn.
  { change (2 < N.to_nat 4611686018427387904). lia. }
  split_and!; [holds_here | exact Hn |].
  apply (Reserve_overrun (E := int_element) (heap two_vectors) (vecs two_vectors) 0 1
           (vector_in 1 2 2) 2 [3]);
    [reflexivity | holds_here | exact Hn | by apply allocated_for_2_62].
Qed.

(** C9, as stated, fails likewise: [Resize(2^62)] on the vector holding
    [1; 2; 3] does not append elements; its [Reserve(2^62)] overruns the
    block it allocated. *)
Lemma Resize_to_wrapping_size_overruns :
  holds (heap roomy_triple) (vector_in 0 4 3) [1; 2; 3] ∧
  Size (vector_in 0 4 3) < N.to_nat 4611686018427387904 ∧
  Resize (E := copyable_element) 0 (N.to_nat 4611686018427387904) roomy_triple = Fault.
Proof.
  assert (4 < N.to_nat 4611686018427387904) as Hn by lia.
  split_and!; [holds_here | change (3 < N.to_nat 4611686018427387904); lia |].
  apply (Resize_overrun (E := copyable_element) (heap roomy_triple) (vecs roomy_triple) 0 0
           (vector_in 0 4 3) 1 [2; 3]);
    [reflexivity | holds_here | exact Hn | by apply allocated_for_2_62].
Qed.

(** C10, as stated, fails likewise: on the vector holding [1; 2; 3; 4]
    with capacity 6, neither [Reserve(2^62)] nor [Resize(2^62)] leaves a
    vector of capacity [2^62]; both overrun the block allocated. *)
Lemma growth_to_wrapping_capacity_overruns :
  holds (heap roomy_four) (vector_in 0 6 4) [1; 2; 3; 4] ∧
  Capacity (vector_in 0 6 4) < N.to_nat 4611686018427387904 ∧
  Reserve (E := int_element) 0 (N.to_nat 4611686018427387904) roomy_four = Fault ∧
  Resize (E := int_element) 0 (N.to_nat 4611686018427387904) roomy_four = Fault.
Proof.
  assert (Capacity (vector_in 0 6 4) < N.to_nat 4611686018427387904) as Hn.
  { change (6 < N.to_nat 4611686018427387904). lia. }
  split_and!; [holds_here | exact Hn | |].
  - apply (Reserve_overrun (E := int_element) (heap roomy_four) (vecs roomy_four) 0 0
             (vector_in 0 6 4) 1 [2; 3; 4]);
      [reflexivity | holds_here | exact Hn | by apply allocated_for_2_62].
  - apply (Resize_overrun (E := int_element) (heap roomy_four) (vecs roomy_four) 0 0
             (vector_in 0 6 4) 1 [2; 3; 4]);
      [reflexivity | holds_here | exact Hn | by apply allocated_for_2_62].
Qed.

(** * The example of the specification *)

(* After the three appends, the insertion, the erasure and the resize to
   5 the vector holds [10; 2; 3; 0; 0] in a block of capacity exactly 5; the
   block of capacity 4 that the appends ended in has been released. *)
Example walkthrough_target_run :
  walkthrough_target (Machine [] [] None 0) = Return 0 walkthrough_target_end ∧
  holds (heap walkthrough_target_end) (vector_in 3 5 5) [10; 2; 3; 0; 0].
Proof. split; [vm_compute; reflexivity | holds_here]. Qed.

(* The copy assignment from six elements takes the path of the temporary
   copy: the target ends up with a block of its own of capacity 6, and the
   source is untouched. *)
Example walkthrough_run :
  walkthrough (Machine [] [] None 0) = Return () walkthrough_end ∧
  holds (heap walkthrough_end) (vector_in 8 6 6) [1; 2; 3; 4; 5; 6] ∧
  holds (heap walkthrough_end) (vector_in 7 8 6) [1; 2; 3; 4; 5; 6].
Proof. split_and!; [vm_compute; reflexivity | holds_here | holds_here]. Qed.

(** * Further properties of the code *)

Section Further.
Context {T : Type} {E : Element T}.

Local Abbreviation cell := (cell T).
Local Abbreviation block := (block T).

Implicit Types (h : list block) (vs : list Vector) (f : option nat).
Implicit Types (pre post : list cell) (xs ys : list T) (x y z : T) (r : Vector).
Implicit Types (b i j n w v k : nat).

(** X1.  Vector::Swap exchanges the element sequences of two vectors
    without touching the heap, and swapping twice puts every Vector object
    back as it was; this covers swapping a vector with itself. *)
Theorem Swap_twice_is_identity h vs f w v o ra ro xs ys :
  vs !! v = Some ra → vs !! o = Some ro →
  holds h ra xs → holds h ro ys →
  (∃ vs',
     Swap v o (Machine h vs f w) = Return () (Machine h vs' f w) ∧
     (∃ r', vs' !! v = Some r' ∧ holds h r' ys) ∧
     (∃ r', vs' !! o = Some r' ∧ holds h r' xs)) ∧
  (Swap v o;; Swap v o) (Machine h vs f w) = Return () (Machine h vs f w).
Proof.
  intros Hv Ho Ha Hc.
  assert (v < length vs) by eauto using lookup_lt_Some.
  assert (o < length vs) by eauto using lookup_lt_Some.
  pose proof (Swap_ok h vs f w v o ra ro Hv Ho) as Hswap.
  split.
  - exists (<[o := ra]> (<[v := ro]> vs)). split_and!; [done | |].
    + destruct (decide (v = o)) as [-> | Hne].
      * assert (ra = ro) as -> by congruence.
        exists ro. split; [heap_lookup | done].
      * exists ro. split; [heap_lookup | done].
    + exists ra. split; [heap_lookup | done].
  - exec by exact Hswap.
    destruct (decide (v = o)) as [-> | Hne].
    + assert (ra = ro) as -> by congruence.
      erewrite Swap_ok by heap_lookup.
      by rewrite !list_insert_insert_eq, list_insert_id.
    + erewrite Swap_ok by heap_lookup.
      rewrite (list_insert_insert_ne _ v o) by done.
      rewrite !list_insert_insert_eq.
      rewrite (list_insert_id vs v) by done.
      by rewrite list_insert_id.
Qed.

(* PopBack on a vector whose last element is [y]. *)
Lemma PopBack_last h vs f w v r ys y :
  vs !! v = Some r → holds h r (ys ++ [y]) →
  ∃ b, buffer_ (data_ r) = Addr b 0 ∧
    PopBack v (Machine h vs f w)
    = Return () (Machine (<[b := Block (arena (capacity_ (data_ r)) ys) 0]> h)
                         (<[v := mkVector (data_ r) (size_ r - 1)]> vs) f (S w)) ∧
    holds (<[b := Block (arena (capacity_ (data_ r)) ys) 0]> h)
          (mkVector (data_ r) (size_ r - 1)) ys.
Proof.
  intros Hv Hr. destruct r as [[buf cap] sz]. cbn.
  apply holds_inv in Hr as (-> & Hle & [(-> & -> & Hnil) | (b & -> & Hb & Hcells)]).
  { by destruct ys. }
  unfold arena in Hcells. rewrite fmap_app, <- app_assoc, length_app in Hcells.
  rewrite length_app in *. cbn [length] in *. cbn in Hcells.
  assert (arena cap ys = (Live <$> ys) ++ Raw :: replicate (cap - (length ys + 1)) Raw) as Harena.
  { unfold arena. by replace (cap - length ys) with (S (cap - (length ys + 1))) by lia. }
  exists b. split_and!; [done | |].
  - unfold PopBack.
    exec by (by apply get_vector_ok).
    cbn [size_ data_]. rewrite (proj2 (Nat.eqb_neq _ _)) by lia.
    exec by (by eapply set_size_ok).
    unfold RawMemory_plus. cbn [buffer_ ptr_add data_].
    rewrite Harena.
    erewrite destroy_at_middle; [done | heap_lookup | len].
  - split_and!; cbn; [lia | lia |]. split; [done|].
    by rewrite list_lookup_insert_eq.
Qed.

(** X2.  PopBack on a vector holding [ys ++ [y]] destroys [y] only: the
    vector holds [ys] in the same storage with the same capacity, one
    element operation has run, and nothing can throw whatever the element
    type.  On an empty vector PopBack stops at its assertion. *)
Theorem PopBack_removes_last h vs f w v r :
  vs !! v = Some r →
  (∀ ys y, holds h r (ys ++ [y]) →
     ∃ h',
       PopBack v (Machine h vs f w)
       = Return () (Machine h' (<[v := mkVector (data_ r) (size_ r - 1)]> vs) f (S w)) ∧
       holds h' (mkVector (data_ r) (size_ r - 1)) ys ∧
       length h' = length h) ∧
  (size_ r = 0 → PopBack v (Machine h vs f w) = Fault).
Proof.
  intros Hv. split.
  - intros ys y Hr.
    destruct (PopBack_last h vs f w v r ys y Hv Hr) as (b & _ & Hrun & Hr').
    eexists. split_and!; [exact Hrun | exact Hr' | by rewrite length_insert].
  - intros Hsz. unfold PopBack.
    exec by (by apply get_vector_ok).
    by rewrite Hsz.
Qed.

(** X3.  The destructor of a well-formed vector destroys its [size]
    elements, as many element operations and none that can throw, and
    releases its block exactly once, with nothing left in it; every other
    block is untouched, and a vector without storage releases nothing. *)
Theorem destructor_releases_once h vs f w v r xs :
  vs !! v = Some r → holds h r xs →
  ∃ h',
    Vector_dtor v (Machine h vs f w) = Return () (Machine h' vs f (length xs + w)) ∧
    length h' = length h ∧
    (∀ b i, buffer_ (data_ r) = Addr b i →
       h' !! b = Some (Block (replicate (capacity_ (data_ r)) Raw) 1)) ∧
    (∀ b', (∀ i, buffer_ (data_ r) ≠ Addr b' i) → h' !! b' = h !! b') ∧
    (buffer_ (data_ r) = nullptr → h' = h).
Proof.
  intros Hv Hr. pose proof (Vector_dtor_ok h vs f w v r xs Hv Hr) as Hrun.
  destruct (buffer_ (data_ r)) as [|b i] eqn:Hbuf.
  - exists h. split_and!; [done | done | | done | done]. by intros b i.
  - pose proof (holds_buffer_lt h r xs b i Hr Hbuf) as Hb.
    eexists. split_and!; [exact Hrun | by rewrite length_insert | | | done].
    + intros b0 i0 [= <- <-]. by rewrite list_lookup_insert_eq.
    + intros b' Hne. rewrite list_lookup_insert_ne; [done|].
      intros ->. by apply (Hne i).
Qed.

(** X4.  Indexing.  For a well-formed vector, [operator[]] with an index
    below the size designates the element at that index, and
    [begin()] and [end()] are [size] elements apart, equal exactly when the
    vector is empty.  There is no bounds check: with an index at or beyond
    the size, [operator[]] designates no object, and reading through it is
    undefined behaviour. *)
Theorem indexing_designates_elements h vs f w r xs :
  holds h r xs →
  (∀ i x, xs !! i = Some x →
     read (Vector_at r i) (Machine h vs f w) = Return x (Machine h vs f w)) ∧
  (∀ i, length xs ≤ i → read (Vector_at r i) (Machine h vs f w) = Fault) ∧
  distance (begin r) (end_ r) = Some (Size r) ∧
  (begin r = end_ r ↔ Size r = 0).
Proof.
  intros Hr. split_and!.
  - intros i x Hx. by apply (read_element h vs f w r xs i x Hr Hx).
  - intros i Hi. destruct r as [[buf cap] sz].
    apply holds_inv in Hr as (-> & Hle & [(-> & -> & ->) | (b & -> & Hb & Hcells)]);
      [done|].
    unfold Vector_at, RawMemory_at, read, bind, load. cbn. rewrite Hcells.
    unfold arena. rewrite lookup_app_r by len. rewrite length_fmap.
    destruct (decide (i - length xs < cap - length xs)) as [Hlt | Hge].
    + by rewrite lookup_replicate_2.
    + rewrite lookup_ge_None_2; [done|]. len.
  - destruct r as [[buf cap] sz].
    apply holds_inv in Hr as (-> & Hle & [(-> & -> & ->) | (b & -> & Hb & Hcells)]);
      [done|].
    unfold begin, end_, Size. cbn. by rewrite Nat.eqb_refl, Nat.sub_0_r.
  - destruct r as [[buf cap] sz].
    apply holds_inv in Hr as (-> & Hle & [(-> & -> & ->) | (b & -> & Hb & Hcells)]);
      [done|].
    unfold begin, end_, Size. cbn. split; [intros [=]; lia | intros ->; done].
Qed.

(** X5.  EmplaceBack, when nothing throws, returns a reference to the
    element it appended, which is the last one: the value is read through
    it.  A PopBack right after it gives back the element sequence the
    vector had, in the storage the append left. *)
Theorem EmplaceBack_then_PopBack h vs w v r xs x :
  vs !! v = Some r → holds h r xs →
  ∃ r1 h1 w1 h2,
    let m1 := Machine h1 (<[v := r1]> vs) None w1 in
    EmplaceBack v x (Machine h vs None w) = Return (Vector_at r1 (Size r1 - 1)) m1 ∧
    read (Vector_at r1 (Size r1 - 1)) m1 = Return x m1 ∧
    PopBack v m1
    = Return () (Machine h2 (<[v := mkVector (data_ r1) (size_ r)]> vs) None (S w1)) ∧
    holds h2 (mkVector (data_ r1) (size_ r)) xs.
Proof.
  intros Hv Hr.
  assert (v < length vs) as Hvlt by eauto using lookup_lt_Some.
  assert (size_ r = length xs) as Hsz by (destruct Hr as (? & _); done).
  destruct (EmplaceBack_calm h vs w v r xs x Hv Hr) as (r1 & h1 & w1 & Hrun & Hr1 & Hsz1 & _).
  destruct (PopBack_last h1 (<[v := r1]> vs) None w1 v r1 xs x ltac:(heap_lookup) Hr1)
    as (b & _ & Hpop & Hr2).
  rewrite list_insert_insert_eq in Hpop.
  assert (Size r1 - 1 = length xs) as Hidx by (unfold Size; lia).
  replace (size_ r1 - 1) with (size_ r) in Hpop, Hr2 by lia.
  eexists r1, h1, w1, _. cbn zeta. rewrite Hidx.
  split_and!; [exact Hrun | | exact Hpop | exact Hr2].
  apply (read_element h1 _ None w1 r1 (xs ++ [x]) (length xs) x Hr1).
  by apply list_lookup_middle.
Qed.

(** X6.  Insert followed by Erase at the position Insert returned, when
    nothing throws, gives back the element sequence and the size the vector
    had. *)
Theorem Insert_then_Erase h vs w v r xs i x :
  vs !! v = Some r → holds h r xs → i ≤ length xs →
  ∃ r' h' w',
    (do p <- Insert v (ptr_add (begin r) i) x; Erase v p) (Machine h vs None w)
    = Return (ptr_add (begin r') i) (Machine h' (<[v := r']> vs) None w') ∧
    holds h' r' xs ∧ Size r' = Size r.
Proof.
  intros Hv Hr Hi.
  assert (v < length vs) as Hvlt by eauto using lookup_lt_Some.
  destruct (Emplace_calm h vs w v r xs i x Hv Hr Hi) as (r1 & h1 & w1 & Hrun & Hr1 & Hsz1).
  assert (length (take i xs) = i) as Hpre by (rewrite length_take; lia).
  destruct (Erase_at h1 (<[v := r1]> vs) None w1 v r1 (take i xs ++ x :: drop i xs) i
              ltac:(heap_lookup) Hr1) as (b & w2 & Hbuf & Herase);
    [rewrite length_app; cbn; lia | by right |].
  rewrite list_insert_insert_eq in Herase.
  rewrite take_app_length' in Herase by lia.
  rewrite drop_app_ge in Herase by lia.
  replace (S i - length (take i xs)) with 1 in Herase by lia.
  cbn [drop] in Herase. rewrite drop_0, take_drop in Herase.
  eexists (mkVector (data_ r1) (size_ r1 - 1)), _, _. split_and!.
  - unfold Insert.
    exec by exact Hrun.
    exact Herase.
  - destruct Hr as (Hsz & Hle & _).
    destruct Hr1 as (Hsz1' & Hle1 & Hbuf1). rewrite Hbuf in Hbuf1. destruct Hbuf1 as [_ Hlook].
    assert (length (take i xs ++ x :: drop i xs) = S (length xs)) as Hlen.
    { rewrite length_app. cbn. rewrite length_take, length_drop. lia. }
    split_and!; cbn; [lia | lia |]. rewrite Hbuf. split; [done|].
    apply list_lookup_insert_eq. eauto using lookup_lt_Some.
  - unfold Size in *. cbn. lia.
Qed.

(** X7.  Emplace and Insert follow the growth rule of the appends: when
    nothing throws, an insertion that finds the size below the capacity
    keeps the storage (same buffer, same capacity, no block allocated), and
    one that finds the vector full moves it to one new block of capacity 1
    if the capacity was 0 and of twice the capacity otherwise. *)
Theorem Emplace_growth h vs w v r xs i x :
  vs !! v = Some r → holds h r xs → i ≤ length xs →
  ∃ r' h' w',
    Emplace v (ptr_add (begin r) i) x (Machine h vs None w)
    = Return (ptr_add (begin r') i) (Machine h' (<[v := r']> vs) None w') ∧
    (Size r < Capacity r → data_ r' = data_ r ∧ length h' = length h) ∧
    (Size r = Capacity r →
       buffer_ (data_ r') = Addr (length h) 0 ∧ length h' = S (length h) ∧
       Capacity r' = if Capacity r =? 0 then 1 else 2 * Capacity r).
Proof.
  intros Hv Hr Hi.
  assert (size_ r = length xs ∧ length xs ≤ capacity_ (data_ r)) as [Hsz Hle]
    by (destruct Hr as (? & ? & _); done).
  unfold Size, Capacity, RawMemory_Capacity.
  destruct (decide (size_ r = capacity_ (data_ r))) as [Hfull | Hspare].
  - destruct (InsertWithRealloc_calm h vs w v r xs i x Hv Hr Hfull Hi) as (w' & Hrun).
    eexists (mkVector (mkRawMemory (Addr (length h) 0) _) (S (size_ r))), _, _.
    split_and!.
    + unfold Emplace.
      exec by (by apply get_vector_ok).
      unfold Capacity, RawMemory_Capacity. rewrite <- Hfull, Nat.eqb_refl.
      exact Hrun.
    + lia.
    + intros _. cbn. split_and!; [done | |].
      * destruct (buffer_ (data_ r)); cbn; len.
      * rewrite <- Hfull. destruct (size_ r); cbn; lia.
  - destruct (InsertWithoutRealloc_calm h vs w v r xs i x Hv Hr) as (b & w' & Hbuf & Hrun);
      [lia | done |].
    eexists (mkVector (data_ r) (S (size_ r))), _, _.
    split_and!.
    + unfold Emplace.
      exec by (by apply get_vector_ok).
      unfold Capacity, RawMemory_Capacity. rewrite (proj2 (Nat.eqb_neq _ _)) by done.
      rewrite Hrun. unfold begin, GetAddress. cbn. by rewrite Hbuf.
    + intros _. split; [done | by rewrite length_insert].
    + lia.
Qed.

(** X8.  Inserting at [end()] is an append: when nothing throws,
    [Emplace(end(), x)] and [EmplaceBack(x)] leave the same heap and the
    same Vector objects, with [x] as last element, and both return the
    address of that element. *)
Theorem Emplace_at_end_is_EmplaceBack h vs w v r xs x :
  vs !! v = Some r → holds h r xs →
  ∃ p r' h' w1 w2,
    Emplace v (end_ r) x (Machine h vs None w)
    = Return p (Machine h' (<[v := r']> vs) None w1) ∧
    EmplaceBack v x (Machine h vs None w)
    = Return p (Machine h' (<[v := r']> vs) None w2) ∧
    holds h' r' (xs ++ [x]) ∧ p = Vector_at r' (length xs).
Proof.
  intros Hv Hr.
  assert (size_ r = length xs ∧ length xs ≤ capacity_ (data_ r)) as [Hsz Hle]
    by (destruct Hr as (? & ? & _); done).
  assert (end_ r = ptr_add (begin r) (length xs)) as -> by (unfold end_, begin; by rewrite Hsz).
  destruct (decide (size_ r = capacity_ (data_ r))) as [Hfull | Hspare].
  - destruct (InsertWithRealloc_calm h vs w v r xs (length xs) x Hv Hr Hfull) as (w1 & Hins);
      [done|].
    destruct (EmplaceBack_full h vs None w v r xs x Hv Hr Hfull)
      as [(f' & w2 & Hnone & Hback) | (B & w' & Hsome & _)]; [by right; right | | done].
    rewrite (Hnone eq_refl) in Hback.
    rewrite take_ge, drop_ge in Hins by lia.
    eexists _, (mkVector (mkRawMemory (Addr (length h) 0) _) (S (size_ r))), _, w1, w2.
    split_and!.
    + unfold Emplace.
      exec by (by apply get_vector_ok).
      unfold Capacity, RawMemory_Capacity. rewrite <- Hfull, Nat.eqb_refl.
      exact Hins.
    + exact Hback.
    + split_and!; cbn.
      * rewrite length_app. cbn. lia.
      * rewrite length_app. cbn. destruct (size_ r); cbn; lia.
      * split; [done|]. apply released_lookup_new.
        intros b j. by apply holds_buffer_lt with xs.
    + done.
  - destruct (InsertWithoutRealloc_calm h vs w v r xs (length xs) x Hv Hr)
      as (b & w1 & Hbuf & Hins); [lia | done |].
    destruct (EmplaceBack_spare h vs w v r xs x Hv Hr) as (b' & Hbuf' & Hback); [lia|].
    assert (b' = b) as -> by congruence.
    rewrite take_ge, drop_ge in Hins by lia.
    eexists _, (mkVector (data_ r) (S (size_ r))), _, w1, (S w).
    split_and!.
    + unfold Emplace.
      exec by (by apply get_vector_ok).
      unfold Capacity, RawMemory_Capacity. rewrite (proj2 (Nat.eqb_neq _ _)) by done.
      exact Hins.
    + exact Hback.
    + split_and!; cbn.
      * rewrite length_app. cbn. lia.
      * rewrite length_app. cbn. lia.
      * rewrite Hbuf. split; [done|].
        apply list_lookup_insert_eq. exact (holds_buffer_lt h r xs b 0 Hr Hbuf).
    + unfold Vector_at, RawMemory_at. cbn. by rewrite Hbuf.
Qed.

(** X9.  Erasing the last element moves nothing: whatever the element
    type and even when its move assignment may throw, [Erase(end() - 1)]
    returns, having destroyed that element only, and leaves the others in
    the same storage. *)
Theorem Erase_last_never_throws h vs f w v r ys y :
  vs !! v = Some r → holds h r (ys ++ [y]) →
  ∃ h',
    Erase v (ptr_add (begin r) (length ys)) (Machine h vs f w)
    = Return (ptr_add (begin r) (length ys))
        (Machine h' (<[v := mkVector (data_ r) (size_ r - 1)]> vs) f (S w)) ∧
    holds h' (mkVector (data_ r) (size_ r - 1)) ys.
Proof.
  intros Hv Hr.
  destruct (PopBack_last h vs f w v r ys y Hv Hr) as (b & Hbuf & Hpop & Hr').
  assert (size_ r = length ys + 1) as Hsz.
  { destruct Hr as (Hsz & _). by rewrite length_app in Hsz. }
  eexists. split; [|exact Hr'].
  unfold Erase.
  exec by (by apply get_vector_ok).
  unfold begin, end_, GetAddress. rewrite Hbuf, Hsz. cbn [ptr_add].
  rewrite decide_False by (intros [=]; lia).
  unfold std_move.
  assert (distance (Addr b (0 + length ys + 1)) (Addr b (0 + (length ys + 1))) = Some 0) as ->.
  { cbn. rewrite Nat.eqb_refl. cbn.
    rewrite (proj2 (Nat.leb_le _ _)) by lia. f_equal. lia. }
  cbn [of_option move_loop].
  exec by reflexivity.
  exec by reflexivity.
  rewrite Hsz in Hpop.
  exec by exact Hpop.
  done.
Qed.

End Further.

Section FurtherAppends.
Context {T : Type} {E : Element T}.

Local Abbreviation cell := (cell T).
Local Abbreviation block := (block T).

Implicit Types (h : list block) (vs : list Vector) (f : option nat).
Implicit Types (pre post : list cell) (xs ys : list T) (x y z : T) (r : Vector).
Implicit Types (b i j n w v k : nat).

(* Appends that fit the capacity, nothing throwing. *)
Lemma push_all_spare v ys : ∀ h vs w r xs b,
  vs !! v = Some r → holds h r xs → buffer_ (data_ r) = Addr b 0 →
  length xs + length ys ≤ capacity_ (data_ r) →
  push_all v ys (Machine h vs None w)
  = Return () (Machine (<[b := Block (arena (capacity_ (data_ r)) (xs ++ ys)) 0]> h)
                       (<[v := mkVector (data_ r) (size_ r + length ys)]> vs)
                       None (length ys + w)).
Proof.
  induction ys as [|y ys IH]; intros h vs w r xs b Hv Hr Hbuf Hfit.
  - cbn [push_all length]. unfold ret. rewrite app_nil_r, Nat.add_0_r.
    destruct Hr as (Hsz & Hle & Hlook). rewrite Hbuf in Hlook. destruct Hlook as [_ Hlook].
    rewrite (list_insert_id h b) by done.
    destruct r as [d sz]. cbn. by rewrite list_insert_id.
  - cbn [length] in Hfit.
    assert (size_ r = length xs) as Hsz by (destruct Hr as (? & _); done).
    assert (b < length h) as Hb by exact (holds_buffer_lt h r xs b 0 Hr Hbuf).
    assert (v < length vs) as Hvlt by eauto using lookup_lt_Some.
    destruct (EmplaceBack_spare h vs w v r xs y Hv Hr) as (b' & Hbuf' & Hrun); [lia|].
    assert (b' = b) as -> by congruence.
    cbn [push_all]. unfold PushBack.
    exec by exact Hrun.
    exec by reflexivity.
    rewrite (IH _ _ _ (mkVector (data_ r) (S (size_ r))) (xs ++ [y]) b);
      [| heap_lookup | | done | cbn; rewrite length_app; cbn; lia].
    + cbn. rewrite !list_insert_insert_eq, <- app_assoc. cbn.
      do 2 f_equal; [|lia]. do 2 f_equal. lia.
    + split_and!; cbn.
      * rewrite length_app. cbn. lia.
      * rewrite length_app. cbn. lia.
      * rewrite Hbuf. split; [done|]. by rewrite list_lookup_insert_eq.
Qed.

(** X10.  Appends that fit the capacity never reallocate: when the size
    plus the number of appended values is at most the capacity and nothing
    throws, the vector keeps its buffer and its capacity, no block is
    allocated, and the values follow the old elements. *)
Theorem appends_within_capacity_keep_storage h vs w v r xs ys :
  vs !! v = Some r → holds h r xs →
  length xs + length ys ≤ Capacity r →
  ∃ h' w',
    push_all v ys (Machine h vs None w)
    = Return () (Machine h' (<[v := mkVector (data_ r) (Size r + length ys)]> vs) None w') ∧
    holds h' (mkVector (data_ r) (Size r + length ys)) (xs ++ ys) ∧
    length h' = length h.
Proof.
  intros Hv Hr Hfit. unfold Capacity, RawMemory_Capacity, Size in *.
  assert (size_ r = length xs) as Hsz by (destruct Hr as (? & _); done).
  destruct (buffer_ (data_ r)) as [|b i] eqn:Hbuf.
  - destruct Hr as (_ & Hle & Hcap). rewrite Hbuf in Hcap.
    assert (ys = []) as -> by (destruct ys; [done | cbn in Hfit; lia]).
    exists h, w. cbn [push_all length]. unfold ret. rewrite Nat.add_0_r, app_nil_r.
    destruct r as [d sz]. cbn in *. rewrite list_insert_id by done.
    split_and!; [done | | done].
    split_and!; cbn; [done | lia | by rewrite Hbuf].
  - assert (i = 0) as ->.
    { destruct Hr as (_ & _ & Hlook). rewrite Hbuf in Hlook. by destruct Hlook. }
    pose proof (holds_buffer_lt h r xs b 0 Hr Hbuf) as Hb.
    eexists _, _. split_and!.
    + by apply (push_all_spare v ys h vs w r xs b).
    + split_and!; cbn.
      * rewrite length_app. lia.
      * rewrite length_app. lia.
      * rewrite Hbuf. split; [done|]. by rewrite list_lookup_insert_eq.
    + by rewrite length_insert.
Qed.

(** X11.  After [Reserve(n)] with [n] above the capacity and such that
    [n * sizeof(T)] does not wrap in [size_t], appends up to [n] elements
    in all stay in the block Reserve allocated: when nothing throws, one
    block has been allocated, the buffer is that block and the capacity is
    [n] at the end. *)
Theorem Reserve_then_appends h vs w v r xs ys n :
  vs !! v = Some r → holds h r xs →
  Capacity r < n → no_wrap n → length xs + length ys ≤ n →
  ∃ h' w',
    (Reserve v n;; push_all v ys) (Machine h vs None w)
    = Return () (Machine h' (<[v := mkVector (mkRawMemory (Addr (length h) 0) n)
                                             (Size r + length ys)]> vs) None w') ∧
    holds h' (mkVector (mkRawMemory (Addr (length h) 0) n) (Size r + length ys)) (xs ++ ys) ∧
    length h' = S (length h).
Proof.
  intros Hv Hr Hn Hbytes Hfit. unfold Capacity, RawMemory_Capacity, Size in *.
  assert (size_ r = length xs) as Hsz by (destruct Hr as (? & _); done).
  assert (v < length vs) as Hvlt by eauto using lookup_lt_Some.
  destruct (Reserve_grow h vs None w v r xs n Hv Hr Hn Hbytes) as (w1 & Hres); [by right|].
  set (r1 := mkVector (mkRawMemory (Addr (length h) 0) n) (size_ r)) in *.
  set (h1 := released (buffer_ (data_ r)) (capacity_ (data_ r)) (h ++ [Block (arena n xs) 0])) in *.
  assert (∀ b j, buffer_ (data_ r) = Addr b j → b < length h) as Hold
    by (intros b j; by apply holds_buffer_lt with xs).
  assert (length h1 = S (length h)) as Hlen.
  { subst h1. unfold released. destruct (buffer_ (data_ r)); len. }
  assert (holds h1 r1 xs) as Hr1.
  { split_and!; cbn; [done | lia |]. split; [done|]. by apply released_lookup_new. }
  eexists _, _. split_and!.
  - exec by exact Hres.
    rewrite (push_all_spare v ys h1 _ w1 r1 xs (length h)); [| heap_lookup | done | done | cbn; lia].
    by rewrite list_insert_insert_eq.
  - split_and!; cbn.
    + rewrite length_app. lia.
    + rewrite length_app. lia.
    + split; [done|]. rewrite list_lookup_insert_eq; [done | lia].
  - rewrite length_insert. done.
Qed.

End FurtherAppends.

Section FurtherConstruction.
Context {T : Type} {E : Element T}.

Local Abbreviation cell := (cell T).
Local Abbreviation block := (block T).

Implicit Types (h : list block) (vs : list Vector) (f : option nat).
Implicit Types (pre post : list cell) (xs ys : list T) (x y z : T) (r : Vector).
Implicit Types (b i j n w v k : nat).

(* What [uninitialized_value_construct_n] comes to for each state of the
   fuse. *)
Lemma uninitialized_value_construct_n_range n : ∀ h vs f w b i pre post,
  h !! b = Some (Block (pre ++ replicate n Raw ++ post) 0) → i = length pre →
  uninitialized_value_construct_n (Addr b i) n (Machine h vs f w)
  = let h' := <[b := Block (pre ++ (Live <$> replicate n value_init) ++ post) 0]> h in
    match f with
    | None => Return () (Machine h' vs None (n + w))
    | Some k =>
        if decide (k < n)
        then Throw (Machine h vs None (2 * k + w))
        else Return () (Machine h' vs (Some (k - n)) (n + w))
    end.
Proof.
  induction n as [|n IH]; intros h vs f w b i pre post Hb Hi;
    cbn [uninitialized_value_construct_n replicate ptr_add fmap list_fmap app]; cbn zeta.
  - unfold ret. rewrite list_insert_id by done.
    destruct f as [k|]; [|done].
    rewrite decide_False by lia. do 3 f_equal. lia.
  - cbn in Hb.
    pose proof (construct_at_tick h vs f w b i pre value_init _ Hb Hi) as Hc.
    destruct f as [[|k]|]; cbn [tick] in Hc.
    + rewrite decide_True by lia.
      erewrite bind_Throw; [|exact Hc]. done.
    + exec by exact Hc.
      unfold unwinding, try_catch.
      rewrite (IH _ _ (Some k) _ _ _ (pre ++ [Live value_init]) post);
        [| rewrite <- snoc_middle; heap_lookup | len ].
      cbn zeta. destruct (decide (k < n)).
      * rewrite decide_True by lia.
        erewrite bind_Return; [| eapply destroy_at_middle; [heap_lookup | done] ].
        rewrite list_insert_insert_eq, list_insert_id by done.
        unfold throw. do 2 f_equal. lia.
      * rewrite decide_False by lia.
        rewrite list_insert_insert_eq, <- snoc_middle.
        do 2 f_equal. lia.
    + exec by exact Hc.
      unfold unwinding, try_catch.
      rewrite (IH _ _ None _ _ _ (pre ++ [Live value_init]) post);
        [| rewrite <- snoc_middle; heap_lookup | len ].
      cbn zeta.
      rewrite list_insert_insert_eq, <- snoc_middle.
      do 2 f_equal. lia.
Qed.

(** X12.  The sized constructor [Vector(n)], for [n] such that
    [n * sizeof(T)] does not wrap in [size_t].  When none of the [n] value
    initialisations throws, the new vector has size [n] and capacity [n]
    and holds [n] value-initialised elements; [Vector(0)] allocates
    nothing.  When one of them throws, no Vector comes into existence,
    every block that existed is as before, and the block allocated for the
    vector has been emptied again and released once. *)
Theorem Vector_sized_all_or_nothing h vs f w n :
  no_wrap n →
  ((∀ k, f = Some k → n ≤ k) →
   ∃ r h' f',
     Vector_sized n (Machine h vs f w) = Return (length vs) (Machine h' (vs ++ [r]) f' (n + w)) ∧
     holds h' r (replicate n value_init) ∧ Size r = n ∧ Capacity r = n ∧
     (n = 0 → h' = h)) ∧
  (∀ k m', k < n → Vector_sized n (Machine h vs (Some k) w) = Throw m' →
     vecs m' = vs ∧ heap m' = h ++ [Block (replicate n Raw) 1]) ∧
  (∀ k, k < n → ∃ m', Vector_sized n (Machine h vs (Some k) w) = Throw m').
Proof.
  intros Hbytes.
  destruct (decide (n = 0)) as [-> | Hn].
  - split_and!.
    + intros _. exists (mkVector (mkRawMemory nullptr 0) 0), h, f. split_and!; done.
    + intros k m' Hk. lia.
    + intros k Hk. lia.
  - set (h1 := h ++ [Block (replicate n Raw) 0]).
    assert (h1 !! length h = Some (Block ([] ++ replicate n Raw ++ []) 0)) as Hd.
    { subst h1. cbn. rewrite app_nil_r. heap_lookup. }
    assert (∀ f0, Vector_sized n (Machine h vs f0 w)
            = (unwinding (uninitialized_value_construct_n (Addr (length h) 0) n)
                         (RawMemory_dtor (mkRawMemory (Addr (length h) 0) n));;
               new_vector (mkVector (mkRawMemory (Addr (length h) 0) n) n))
                (Machine h1 vs f0 w)) as Hstart.
    { intros f0. unfold Vector_sized.
      by exec by (by apply RawMemory_new_ok). }
    assert (<[length h := Block ([] ++ (Live <$> replicate n value_init) ++ []) 0]> h1
            = h ++ [Block (arena n (replicate n value_init)) 0]) as Hnew.
    { subst h1. rewrite (insert_middle h []). unfold arena.
      by rewrite length_replicate, Nat.sub_diag. }
    assert (∀ k, k < n →
              Vector_sized n (Machine h vs (Some k) w)
              = Throw (Machine (h ++ [Block (replicate n Raw) 1]) vs None (2 * k + w))) as Hthrow.
    { intros k Hk. rewrite Hstart.
      erewrite bind_Throw; [done|].
      eapply unwinding_Throw.
      - rewrite (uninitialized_value_construct_n_range n h1 vs (Some k) w (length h) 0 [] [] Hd eq_refl).
        cbn zeta. by rewrite decide_True.
      - erewrite RawMemory_dtor_block by (subst h1; heap_lookup).
        subst h1. rewrite (insert_middle h []). cbn [app]. by rewrite app_nil_r. }
    split_and!.
    + intros Hf.
      assert (holds (h ++ [Block (arena n (replicate n value_init)) 0])
                    (mkVector (mkRawMemory (Addr (length h) 0) n) n)
                    (replicate n value_init)) as Hr.
      { split_and!; cbn; [by rewrite length_replicate | by rewrite length_replicate |].
        split; [done|]. heap_lookup. }
      pose proof (uninitialized_value_construct_n_range n h1 vs f w (length h) 0 [] [] Hd eq_refl)
        as Hrun.
      cbn zeta in Hrun. rewrite Hnew in Hrun.
      destruct f as [k|].
      * specialize (Hf k eq_refl). rewrite decide_False in Hrun by lia.
        eexists _, _, _. split_and!; [| exact Hr | done | done | done].
        rewrite Hstart. by exec by exact Hrun.
      * eexists _, _, _. split_and!; [| exact Hr | done | done | done].
        rewrite Hstart. by exec by exact Hrun.
    + intros k m' Hk Hrun. rewrite Hthrow in Hrun by done.
      by injection Hrun as <-.
    + intros k Hk. eexists. by apply Hthrow.
Qed.

(** X13.  Copy construction is all or nothing as well: when a copy
    throws, no Vector comes into existence, the source and every block that
    existed are as before, and the block allocated for the copy has been
    emptied again and released once.  This is what happens whenever fewer
    fallible operations succeed than the source has elements. *)
Theorem Vector_copy_failure_leaves_nothing h vs w s r xs :
  vs !! s = Some r → holds h r xs →
  (∀ f m', Vector_copy s (Machine h vs f w) = Throw m' →
     vecs m' = vs ∧ holds (heap m') r xs ∧
     heap m' = h ++ [Block (replicate (length xs) Raw) 1]) ∧
  (∀ k, k < length xs → ∃ m', Vector_copy s (Machine h vs (Some k) w) = Throw m').
Proof.
  intros Hs Hr.
  assert (size_ r = length xs) as Hsz by (destruct Hr as (? & _); done).
  destruct (decide (xs = [])) as [-> | Hxs].
  - split.
    + intros f m' Hrun. by rewrite (Vector_copy_empty h vs f w s r Hs Hsz) in Hrun.
    + intros k Hk. cbn in Hk. lia.
  - pose proof (Vector_copy_outcome h vs) as Hrun. split.
    + intros f m' Hthrow. rewrite (Hrun f w s r xs Hs Hr Hxs) in Hthrow. cbn zeta in Hthrow.
      destruct f as [k|]; [destruct (decide (k < length xs))|]; try discriminate.
      injection Hthrow as <-. cbn. split_and!; [done | by apply holds_extend | done].
    + intros k Hk. eexists. rewrite (Hrun (Some k) w s r xs Hs Hr Hxs). cbn zeta.
      by rewrite decide_True.
Qed.

End FurtherConstruction.

Section FurtherAssignment.
Context {T : Type}.

Local Abbreviation cell := (cell T).
Local Abbreviation block := (block T).

Implicit Types (h : list block) (vs : list Vector) (f : option nat).
Implicit Types (pre post : list cell) (xs ys : list T) (x y z : T) (r : Vector).
Implicit Types (b i j n w v k : nat).

(* One copy assignment, for each state of the fuse; source and target may
   be the same object. *)
Lemma copy_assign_tick h vs f w bs bd i j pre post pre' post' x y :
  h !! bs = Some (Block (pre ++ Live y :: post) 0) → i = length pre →
  h !! bd = Some (Block (pre' ++ Live x :: post') 0) → j = length pre' →
  copy_assign (Addr bd j) (Addr bs i) (Machine h vs f w)
  = match tick f with
    | Some f' => Return () (Machine (<[bd := Block (pre' ++ Live y :: post') 0]> h) vs f' (S w))
    | None => Throw (Machine h vs None w)
    end.
Proof.
  intros Hs Hi Hd Hj. unfold copy_assign.
  exec by (eapply read_middle; eauto).
  pose proof (may_throw_tick h vs f w) as Hm.
  destruct (tick f) as [f'|].
  - exec by exact Hm. by eapply overwrite_middle.
  - erewrite bind_Throw; [done | exact Hm].
Qed.

(* std::copy_n between two blocks: the copy that throws leaves the
   elements before it assigned and the others as they were. *)
Lemma copy_n_range ys : ∀ xs h vs f w bs bd i j pre post pre' post',
  bs ≠ bd → length xs = length ys →
  h !! bs = Some (Block (pre ++ (Live <$> ys) ++ post) 0) → i = length pre →
  h !! bd = Some (Block (pre' ++ (Live <$> xs) ++ post') 0) → j = length pre' →
  copy_n (Addr bs i) (length ys) (Addr bd j) (Machine h vs f w)
  = let h' := <[bd := Block (pre' ++ (Live <$> ys) ++ post') 0]> h in
    match f with
    | None => Return () (Machine h' vs None (length ys + w))
    | Some k =>
        if decide (k < length ys)
        then Throw (Machine (<[bd := Block (pre' ++ (Live <$> (take k ys ++ drop k xs)) ++ post') 0]> h)
                            vs None (k + w))
        else Return () (Machine h' vs (Some (k - length ys)) (length ys + w))
    end.
Proof.
  induction ys as [|y ys IH];
    intros [|x xs] h vs f w bs bd i j pre post pre' post' Hne Hlen Hs Hi Hd Hj;
    try discriminate; cbn [copy_n length ptr_add]; cbn zeta.
  - unfold ret. rewrite list_insert_id by done.
    destruct f as [k|]; [|done].
    rewrite decide_False by lia. do 3 f_equal. lia.
  - cbn in Hs, Hd. injection Hlen as Hlen.
    pose proof (copy_assign_tick h vs f w bs bd i j pre _ pre' _ x y Hs Hi Hd Hj) as Hc.
    destruct f as [[|k]|]; cbn [tick] in Hc.
    + rewrite decide_True by lia.
      erewrite bind_Throw; [|exact Hc].
      cbn. by rewrite list_insert_id.
    + exec by exact Hc.
      rewrite (IH xs _ _ (Some k) _ bs bd _ _ (pre ++ [Live y]) post (pre' ++ [Live y]) post');
        [| done | done
         | rewrite list_lookup_insert_ne by done; rewrite <- snoc_middle; exact Hs | len
         | rewrite <- snoc_middle; heap_lookup | len ].
      cbn zeta. destruct (decide (k < length ys)).
      * rewrite decide_True by lia.
        rewrite list_insert_insert_eq, <- snoc_middle.
        cbn. do 2 f_equal. lia.
      * rewrite decide_False by lia.
        rewrite list_insert_insert_eq, <- snoc_middle.
        cbn. do 2 f_equal. lia.
    + exec by exact Hc.
      rewrite (IH xs _ _ None _ bs bd _ _ (pre ++ [Live y]) post (pre' ++ [Live y]) post');
        [| done | done
         | rewrite list_lookup_insert_ne by done; rewrite <- snoc_middle; exact Hs | len
         | rewrite <- snoc_middle; heap_lookup | len ].
      cbn zeta.
      rewrite list_insert_insert_eq, <- snoc_middle.
      cbn. do 2 f_equal. lia.
Qed.

(* std::copy_n of a range onto itself changes nothing in memory. *)
Lemma copy_n_self xs : ∀ h vs f w b i pre post,
  h !! b = Some (Block (pre ++ (Live <$> xs) ++ post) 0) → i = length pre →
  copy_n (Addr b i) (length xs) (Addr b i) (Machine h vs f w)
  = match f with
    | None => Return () (Machine h vs None (length xs + w))
    | Some k =>
        if decide (k < length xs)
        then Throw (Machine h vs None (k + w))
        else Return () (Machine h vs (Some (k - length xs)) (length xs + w))
    end.
Proof.
  induction xs as [|x xs IH]; intros h vs f w b i pre post Hb Hi;
    cbn [copy_n length ptr_add].
  - unfold ret. destruct f as [k|]; [|done].
    rewrite decide_False by lia. do 3 f_equal. lia.
  - cbn in Hb.
    pose proof (copy_assign_tick h vs f w b b i i pre _ pre _ x x Hb Hi Hb Hi) as Hc.
    rewrite list_insert_id in Hc by done.
    destruct f as [[|k]|]; cbn [tick] in Hc.
    + rewrite decide_True by lia.
      erewrite bind_Throw; [|exact Hc]. done.
    + exec by exact Hc.
      rewrite (IH _ _ (Some k) _ b _ (pre ++ [Live x]) post);
        [| rewrite <- snoc_middle; exact Hb | len ].
      destruct (decide (k < length xs)).
      * rewrite decide_True by lia. do 2 f_equal. lia.
      * rewrite decide_False by lia. do 2 f_equal. lia.
    + exec by exact Hc.
      rewrite (IH _ _ None _ b _ (pre ++ [Live x]) post);
        [| rewrite <- snoc_middle; exact Hb | len ].
      do 2 f_equal. lia.
Qed.

(** X14.  Copy assignment of a vector to itself.  The operator has no
    check for it: it copy-assigns every element onto itself, which costs
    [Size] element operations and can throw, but whatever the outcome the
    vector and every block are exactly as before; when no copy assignment
    throws it returns. *)
Theorem self_assignment_changes_nothing h vs f w v r xs :
  vs !! v = Some r → holds h r xs →
  (∃ f' w', copy_assignment v v (Machine h vs f w) = Return () (Machine h vs f' w') ∨
            copy_assignment v v (Machine h vs f w) = Throw (Machine h vs f' w')) ∧
  ((∀ k, f = Some k → length xs ≤ k) →
   ∃ f', copy_assignment v v (Machine h vs f w)
         = Return () (Machine h vs f' (length xs + w))).
Proof.
  intros Hv Hr. destruct r as [[buf cap] sz].
  pose proof Hr as Hinv.
  apply holds_inv in Hinv as (-> & Hle & Hbuf).
  assert (copy_assignment v v (Machine h vs f w)
          = (copy_n buf (length xs) buf;;
             do o' <- get_vector v; set_size v (Size o')) (Machine h vs f w)) as Hstart.
  { unfold copy_assignment.
    exec by (by apply get_vector_ok).
    exec by (by apply get_vector_ok).
    cbn [data_ size_ RawMemory_Capacity capacity_ GetAddress buffer_ Size].
    rewrite (proj2 (Nat.ltb_ge _ _)) by lia.
    rewrite Nat.min_id, Nat.ltb_irrefl.
    rewrite !bind_assoc. reflexivity. }
  assert (∀ f0 w0, (do o' <- get_vector v; set_size v (Size o')) (Machine h vs f0 w0)
                   = Return () (Machine h vs f0 w0)) as Hend.
  { intros f0 w0.
    exec by (by apply get_vector_ok).
    erewrite set_size_ok by done. cbn. by rewrite list_insert_id. }
  assert (copy_n buf (length xs) buf (Machine h vs f w)
          = match f with
            | None => Return () (Machine h vs None (length xs + w))
            | Some k =>
                if decide (k < length xs)
                then Throw (Machine h vs None (k + w))
                else Return () (Machine h vs (Some (k - length xs)) (length xs + w))
            end) as Hcopy.
  { destruct Hbuf as [(-> & -> & ->) | (b & -> & Hb & Hcells)].
    - cbn. unfold ret. destruct f as [k|]; [|done].
      rewrite decide_False by (cbn; lia). do 3 f_equal. lia.
    - apply (copy_n_self xs h vs f w b 0 [] (replicate (cap - length xs) Raw)); done. }
  split.
  - rewrite Hstart. destruct f as [k|]; [destruct (decide (k < length xs))|].
    + eexists _, _. right. erewrite bind_Throw; [done | exact Hcopy].
    + eexists _, _. left. exec by exact Hcopy. apply Hend.
    + eexists _, _. left. exec by exact Hcopy. apply Hend.
  - intros Hf. rewrite Hstart. destruct f as [k|].
    + specialize (Hf k eq_refl). rewrite decide_False in Hcopy by lia.
      eexists. exec by exact Hcopy. apply Hend.
    + eexists. exec by exact Hcopy. apply Hend.
Qed.

End FurtherAssignment.

Section FurtherAssignmentInPlace.
Context {T : Type}.

Local Abbreviation cell := (cell T).
Local Abbreviation block := (block T).

Implicit Types (h : list block) (vs : list Vector) (f : option nat).
Implicit Types (pre post : list cell) (xs ys : list T) (x y z : T) (r : Vector).
Implicit Types (b i j n w v k : nat).

(* [copy_n_range] for a source that may be the null pointer of an empty
   vector *)
Lemma copy_n_from ys xs h vs f w (ps : ptr) bd post post' :
  (ys = [] ∨ ∃ bs, ps = Addr bs 0 ∧ bs ≠ bd ∧
                   h !! bs = Some (Block ((Live <$> ys) ++ post) 0)) →
  length xs = length ys →
  h !! bd = Some (Block ((Live <$> xs) ++ post') 0) →
  copy_n ps (length ys) (Addr bd 0) (Machine h vs f w)
  = match f with
    | None => Return () (Machine (<[bd := Block ((Live <$> ys) ++ post') 0]> h) vs None
                                 (length ys + w))
    | Some k =>
        if decide (k < length ys)
        then Throw (Machine (<[bd := Block ((Live <$> (take k ys ++ drop k xs)) ++ post') 0]> h)
                            vs None (k + w))
        else Return () (Machine (<[bd := Block ((Live <$> ys) ++ post') 0]> h) vs
                                (Some (k - length ys)) (length ys + w))
    end.
Proof.
  intros [-> | (bs & -> & Hne & Hs)] Hlen Hd.
  - destruct xs; [|done]. cbn. unfold ret. rewrite list_insert_id by done.
    destruct f as [k|]; [|done].
    rewrite decide_False by lia. do 3 f_equal. lia.
  - apply (copy_n_range ys xs h vs f w bs bd 0 0 [] post [] post'); done.
Qed.

(* The branch of copy assignment that reuses the target's block, as a
   computation on the two blocks. *)
Lemma copy_assignment_reusing ys xs h vs f w (ps : ptr) b cap post :
  (ys = [] ∨ ∃ bs, ps = Addr bs 0 ∧ bs ≠ b ∧
                   h !! bs = Some (Block ((Live <$> ys) ++ post) 0)) →
  h !! b = Some (Block (arena cap xs) 0) →
  length xs ≤ cap → length ys ≤ cap →
  (copy_n ps (length xs `min` length ys) (Addr b 0);;
   if length ys <? length xs then
     destroy_n (RawMemory_plus (mkRawMemory (Addr b 0) cap) (length ys))
               (length xs - length ys)
   else if length xs <? length ys then
     uninitialized_copy_n (ptr_add ps (length xs)) (length ys - length xs)
                          (ptr_add (Addr b 0) (length xs))
   else ret ()) (Machine h vs f w)
  = match f with
    | None => Return () (Machine (<[b := Block (arena cap ys) 0]> h) vs None
                                 (length xs `max` length ys + w))
    | Some k =>
        if decide (k < length ys)
        then Throw (Machine (<[b := Block (arena cap (take (length xs) (take k ys ++ drop k xs))) 0]> h)
                            vs None
                            ((if decide (k < length xs) then k
                              else 2 * (k - length xs) + length xs) + w))
        else Return () (Machine (<[b := Block (arena cap ys) 0]> h) vs
                                (Some (k - length ys)) (length xs `max` length ys + w))
    end.
Proof.
  intros Hsrc Hb Hxs Hys.
  destruct (decide (length ys ≤ length xs)) as [Hle | Hgt].
  - (* no more elements than the target has *)
    rewrite Nat.min_r, Nat.max_l by lia.
    assert (length (take (length ys) xs) = length ys) as Hlen by (len).
    assert (h !! b = Some (Block ((Live <$> take (length ys) xs)
                            ++ ((Live <$> drop (length ys) xs) ++ replicate (cap - length xs) Raw)) 0))
      as Hb'.
    { rewrite Hb. unfold arena. by rewrite app_assoc, <- fmap_app, take_drop. }
    pose proof (copy_n_from ys (take (length ys) xs) h vs f w ps b post _ Hsrc Hlen Hb') as Hcopy.
    assert (∀ f1 w1,
      (if length ys <? length xs then
         destroy_n (RawMemory_plus (mkRawMemory (Addr b 0) cap) (length ys))
                   (length xs - length ys)
       else if length xs <? length ys then
         uninitialized_copy_n (ptr_add ps (length xs)) (length ys - length xs)
                              (ptr_add (Addr b 0) (length xs))
       else ret ())
        (Machine (<[b := Block ((Live <$> ys) ++ ((Live <$> drop (length ys) xs)
                                  ++ replicate (cap - length xs) Raw)) 0]> h) vs f1 w1)
      = Return () (Machine (<[b := Block (arena cap ys) 0]> h) vs f1
                           (length xs - length ys + w1))) as Hrest.
    { intros f1 w1. destruct (decide (length ys < length xs)) as [Hlt | Heq].
      - rewrite (proj2 (Nat.ltb_lt _ _)) by done.
        cbn [RawMemory_plus buffer_ ptr_add plus].
        replace (length xs - length ys) with (length (drop (length ys) xs)) by len.
        erewrite (destroy_n_range (drop (length ys) xs) _ vs f1 w1 b (length ys) (Live <$> ys));
          [| heap_lookup | len].
        rewrite list_insert_insert_eq. unfold arena.
        rewrite <- replicate_add, !length_drop.
        by replace (length xs - length ys + (cap - length xs)) with (cap - length ys) by lia.
      - rewrite (proj2 (Nat.ltb_ge _ _)), (proj2 (Nat.ltb_ge _ _)) by lia.
        unfold ret. rewrite drop_ge by lia. cbn. unfold arena.
        assert (length xs = length ys) as -> by lia.
        by rewrite Nat.sub_diag. }
    destruct f as [k|]; [destruct (decide (k < length ys))|].
    + erewrite bind_Throw; [|exact Hcopy].
      rewrite decide_True by lia.
      do 5 f_equal. unfold arena.
      rewrite (take_ge (take k ys ++ drop k xs)) by (len).
      assert (length (take k ys ++ drop k xs) = length xs) as -> by (len).
      assert (drop k xs = drop k (take (length ys) xs) ++ drop (length ys) xs) as ->.
      { rewrite <- drop_app_le by (len). by rewrite take_drop. }
      by rewrite !fmap_app, <- !app_assoc.
    + exec by exact Hcopy. rewrite Hrest. do 2 f_equal. lia.
    + exec by exact Hcopy. rewrite Hrest. do 2 f_equal. lia.
  - (* more elements than the target has: the source is not empty *)
    destruct Hsrc as [-> | (bs & -> & Hne & Hs)]; [cbn in Hgt; lia|].
    rewrite Nat.min_l, Nat.max_r by lia.
    assert (length xs = length (take (length xs) ys)) as Hlen by (len).
    assert (h !! bs = Some (Block ((Live <$> take (length xs) ys)
                             ++ ((Live <$> drop (length xs) ys) ++ post)) 0)) as Hs'.
    { rewrite Hs. by rewrite app_assoc, <- fmap_app, take_drop. }
    pose proof (copy_n_from (take (length xs) ys) xs h vs f w (Addr bs 0) b _
                  (replicate (cap - length xs) Raw)
                  (or_intror (ex_intro _ bs (conj eq_refl (conj Hne Hs')))) Hlen Hb) as Hcopy.
    rewrite <- Hlen in Hcopy.
    rewrite (proj2 (Nat.ltb_ge _ _)), (proj2 (Nat.ltb_lt _ _)) by lia.
    cbn [ptr_add plus].
    set (h1 := <[b := Block ((Live <$> take (length xs) ys) ++ replicate (cap - length xs) Raw) 0]> h)
      in *.
    assert (h1 !! bs = Some (Block ((Live <$> take (length xs) ys)
                              ++ (Live <$> drop (length xs) ys) ++ post) 0)) as Hs1.
    { subst h1. by rewrite list_lookup_insert_ne by done. }
    assert (h1 !! b = Some (Block ((Live <$> take (length xs) ys)
                             ++ replicate (length (drop (length xs) ys)) Raw
                             ++ replicate (cap - length ys) Raw) 0)) as Hb1.
    { subst h1. rewrite list_lookup_insert_eq by eauto using lookup_lt_Some.
      rewrite <- replicate_add. do 4 f_equal. len. }
    assert (length ys - length xs = length (drop (length xs) ys)) as Hrest by (len).
    pose proof (λ f1 w1, uninitialized_copy_n_range (drop (length xs) ys) h1 vs f1 w1 bs b
                  (length xs) (length xs) _ _ _ _ Hne Hs1 ltac:(len) Hb1 ltac:(len)) as Hfill.
    cbn zeta in Hfill. rewrite <- Hrest in Hfill.
    assert (<[b := Block ((Live <$> take (length xs) ys) ++ (Live <$> drop (length xs) ys)
                           ++ replicate (cap - length ys) Raw) 0]> h1
            = <[b := Block (arena cap ys) 0]> h) as Hfinal.
    { subst h1. rewrite list_insert_insert_eq. unfold arena.
      by rewrite app_assoc, <- fmap_app, take_drop. }
    rewrite Hfinal in Hfill.
    destruct f as [k|]; [destruct (decide (k < length ys))|].
    + destruct (decide (k < length xs)) as [Hk | Hk].
      * erewrite bind_Throw; [|exact Hcopy].
        do 5 f_equal. unfold arena.
        rewrite take_take, Nat.min_l by lia.
        rewrite (take_ge (_ ++ _)) by (len). do 2 f_equal. len.
      * exec by exact Hcopy.
        rewrite Hfill. rewrite decide_True by lia.
        rewrite <- Nat.add_assoc. subst h1. do 5 f_equal. unfold arena.
        rewrite (drop_ge xs) by lia. rewrite app_nil_r, take_take, Nat.min_l by lia.
        do 2 f_equal. len.
    + rewrite decide_False in Hcopy by lia.
      exec by exact Hcopy.
      rewrite Hfill. rewrite decide_False by lia.
      do 2 f_equal; [f_equal|]; lia.
    + exec by exact Hcopy.
      rewrite Hfill. do 2 f_equal. lia.
Qed.

(** X15.  Copy assignment from another vector whose elements fit in the
    target's capacity reuses the target's block: no block is allocated or
    released, the target keeps its buffer and capacity and ends up with the
    source's elements, the source is as it was, and the work is
    [max Size other.Size] element operations.  When the [k]-th fallible
    operation throws, with [k] less than the source's size, the target is
    still well formed with its old size, but it is a mixture: its first [k]
    elements (at most its size) are already the source's, the others are
    its own. *)
Theorem copy_assignment_reuses_storage h vs f w v s r o xs ys :
  vs !! v = Some r → holds h r xs → vs !! s = Some o → holds h o ys →
  v ≠ s →
  (∀ b i j, buffer_ (data_ r) = Addr b i → buffer_ (data_ o) ≠ Addr b j) →
  length ys ≤ capacity_ (data_ r) →
  ((∀ k, f = Some k → length ys ≤ k) →
   ∃ h' f',
     copy_assignment v s (Machine h vs f w)
     = Return () (Machine h' (<[v := mkVector (data_ r) (length ys)]> vs) f'
                          (length xs `max` length ys + w)) ∧
     holds h' (mkVector (data_ r) (length ys)) ys ∧ holds h' o ys ∧
     length h' = length h) ∧
  (∀ k, f = Some k → k < length ys →
   ∃ h' w',
     copy_assignment v s (Machine h vs f w) = Throw (Machine h' vs None w') ∧
     holds h' r (take (length xs) (take k ys ++ drop k xs)) ∧ holds h' o ys ∧
     length h' = length h).
Proof.
  intros Hv Hr Hs Ho Hvs Hapart Hfit.
  destruct r as [[buf cap] sz], o as [[bufo co] szo].
  pose proof Hr as Hr'. pose proof Ho as Ho'.
  apply holds_inv in Hr' as (-> & Hle & Hbuf).
  apply holds_inv in Ho' as (-> & Hleo & Hbufo).
  cbn [data_ capacity_ buffer_] in Hfit, Hapart |- *.
  assert (∀ h0 f0 w0,
            (do o' <- get_vector s; set_size v (Size o')) (Machine h0 vs f0 w0)
            = Return () (Machine h0 (<[v := mkVector (mkRawMemory buf cap) (length ys)]> vs)
                                 f0 w0)) as Hend.
  { intros h0 f0 w0. exec by (by apply get_vector_ok).
    by rewrite (set_size_ok _ _ _ _ _ _ _ Hv). }
  destruct Hbuf as [(-> & -> & ->) | (b & -> & Hlt & Hb)].
  - (* the target has no block: both vectors are empty *)
    destruct ys; [|cbn in Hfit; lia].
    assert (copy_assignment v s (Machine h vs f w)
            = Return () (Machine h (<[v := mkVector (mkRawMemory nullptr 0) 0]> vs) f w))
      as Hrun.
    { unfold copy_assignment.
      exec by (by apply get_vector_ok).
      exec by (by apply get_vector_ok).
      cbn [data_ size_ RawMemory_Capacity capacity_ GetAddress buffer_ Size length
           Nat.ltb Nat.leb Nat.min copy_n].
      exec by reflexivity. apply (Hend h f w). }
    split.
    + intros _. exists h, f. split_and!; [exact Hrun | | exact Ho | done].
      split_and!; done.
    + intros k _ Hk. cbn in Hk. lia.
  - assert (ys = [] ∨ ∃ bs, bufo = Addr bs 0 ∧ bs ≠ b ∧
              h !! bs = Some (Block ((Live <$> ys) ++ replicate (co - length ys) Raw) 0))
      as Hsrc.
    { destruct Hbufo as [(_ & _ & ->) | (bs & -> & _ & Hbs)]; [by left | right].
      exists bs. split_and!; [done | | exact Hbs].
      intros ->. by apply (Hapart b 0 0). }
    pose proof (copy_assignment_reusing ys xs h vs f w bufo b cap _ Hsrc Hb Hle Hfit) as Hcore.
    assert (copy_assignment v s (Machine h vs f w)
              = ((copy_n bufo (length xs `min` length ys) (Addr b 0);;
                  if length ys <? length xs then
                    destroy_n (RawMemory_plus (mkRawMemory (Addr b 0) cap) (length ys))
                              (length xs - length ys)
                  else if length xs <? length ys then
                    uninitialized_copy_n (ptr_add bufo (length xs)) (length ys - length xs)
                                         (ptr_add (Addr b 0) (length xs))
                  else ret ());;
                 do o' <- get_vector s; set_size v (Size o')) (Machine h vs f w)) as Hstart.
    { unfold copy_assignment.
      exec by (by apply get_vector_ok).
      exec by (by apply get_vector_ok).
      cbn [data_ size_ RawMemory_Capacity capacity_ GetAddress buffer_ Size].
      rewrite (proj2 (Nat.ltb_ge _ _)) by lia.
      by rewrite ?bind_assoc. }
    assert (∀ zs, length zs ≤ cap →
              holds (<[b := Block (arena cap zs) 0]> h)
                    (mkVector (mkRawMemory (Addr b 0) cap) (length zs)) zs) as Hnew.
    { intros zs Hzs. split_and!; [done | done |]. cbn. split; [done|]. heap_lookup. }
    assert (∀ B, holds (<[b := B]> h) (mkVector (mkRawMemory bufo co) (length ys)) ys) as Hold.
    { intros B. apply holds_frame; [exact Ho|]. cbn. intros i. by apply (Hapart b 0 i). }
    split.
    + intros Hf. rewrite Hstart.
      destruct f as [k|].
      * specialize (Hf k eq_refl). rewrite decide_False in Hcore by lia.
        eexists _, _. split_and!; [| by apply Hnew | by apply Hold | by rewrite length_insert].
        erewrite bind_Return; [|exact Hcore]. apply Hend.
      * eexists _, _. split_and!; [| by apply Hnew | by apply Hold | by rewrite length_insert].
        erewrite bind_Return; [|exact Hcore]. apply Hend.
    + intros k -> Hk. rewrite Hstart. rewrite decide_True in Hcore by done.
      eexists _, _. split_and!; [| | by apply Hold | by rewrite length_insert].
      * erewrite bind_Throw; [done | exact Hcore].
      * assert (length (take (length xs) (take k ys ++ drop k xs)) = length xs) as Hlen by (len).
        pose proof (Hnew (take (length xs) (take k ys ++ drop k xs)) ltac:(lia)) as Hmix.
        by rewrite Hlen in Hmix.
Qed.

End FurtherAssignmentInPlace.

Section FurtherInsertion.
Context {T : Type} {E : Element T}.

Local Abbreviation cell := (cell T).
Local Abbreviation block := (block T).
Local Abbreviation M := (M T).

Implicit Types (h : list block) (vs : list Vector) (f : option nat).
Implicit Types (pre post : list cell) (xs ys : list T) (x y z : T) (r : Vector).
Implicit Types (b i j n w v k : nat).

Lemma bind_head {A B} (c c' : M A) (k : A → M B) m :
  c m = c' m → bind c k m = bind c' k m.
Proof. unfold bind. by intros ->. Qed.

Lemma try_catch_head {A} (c c' handler : M A) m :
  c m = c' m → try_catch c handler m = try_catch c' handler m.
Proof. unfold try_catch. by intros ->. Qed.

(* Copy construction from an object that holds [x] is construction of
   [x]. *)
Lemma copy_construct_at_reads h vs f w (dst src : ptr) x :
  read src (Machine h vs f w) = Return x (Machine h vs f w) →
  copy_construct_at dst src (Machine h vs f w) = construct_at dst x (Machine h vs f w).
Proof.
  intros Hread. unfold copy_construct_at, construct_at.
  by rewrite (bind_Return _ _ _ _ _ Hread).
Qed.

(** X16.  [Insert(pos, const T& value)] for a [value] that refers to a
    live object holding [x], possibly an element of the vector itself.
    When the vector is full, or [pos] is the end (or null), the argument is
    read before any element is moved: the call does exactly what inserting
    [x] by value does, whether or not an operation throws. *)
Theorem Insert_by_ref_reads_first h vs f w v r b i pre post x (pos : ptr) :
  vs !! v = Some r →
  h !! b = Some (Block (pre ++ Live x :: post) 0) → i = length pre →
  size_ r = Capacity r ∨ pos = nullptr ∨ pos = end_ r →
  Insert_by_ref v pos (Addr b i) (Machine h vs f w) = Insert v pos x (Machine h vs f w).
Proof.
  intros Hv Hb Hi Hcase.
  assert (∀ w0 B, read (Addr b i) (Machine (h ++ [B]) vs f w0)
                  = Return x (Machine (h ++ [B]) vs f w0)) as Hread1.
  { intros w0 B. eapply read_middle; [|exact Hi].
    rewrite lookup_app_l by eauto using lookup_lt_Some. exact Hb. }
  assert (read (Addr b i) (Machine h vs f w) = Return x (Machine h vs f w)) as Hread0
    by (by eapply read_middle).
  unfold Insert_by_ref, Insert, Emplace.
  rewrite !(bind_Return _ _ _ _ _ (get_vector_ok h vs f w v r Hv)).
  destruct (size_ r =? Capacity r) eqn:Hfull.
  - unfold InsertWithRealloc_by_ref, InsertWithRealloc.
    rewrite !(bind_Return _ _ _ _ _ (get_vector_ok h vs f w v r Hv)).
    destruct (distance (begin r) pos) as [dist|]; [|done].
    cbn [of_option].
    rewrite !(bind_Return (ret dist) _ _ _ _ eq_refl).
    assert ((if size_ r =? 0 then 1 else size_ r * 2) ≠ 0) as Hsize
      by (destruct (size_ r); cbn; lia).
    rewrite !(bind_Return _ _ _ _ _ (RawMemory_for_elements_ok h vs f w _ Hsize)).
    apply bind_head, try_catch_head, bind_head.
    apply copy_construct_at_reads, Hread1.
  - destruct Hcase as [Hcase | Hcase]; [apply Nat.eqb_neq in Hfull; done|].
    unfold InsertWithoutRealloc_by_ref, InsertWithoutRealloc.
    rewrite !(bind_Return _ _ _ _ _ (get_vector_ok h vs f w v r Hv)).
    destruct (distance (begin r) pos) as [dist|]; [|done].
    cbn [of_option].
    rewrite !(bind_Return (ret dist) _ _ _ _ eq_refl).
    rewrite !decide_True by done.
    apply bind_head, copy_construct_at_reads, Hread0.
Qed.

(** X17.  [Insert(pos, const T& value)] with spare capacity, [pos] before
    the end and [value] referring to element [j] of the vector itself,
    nothing throwing.  The argument is read only after the elements from
    [pos] on have been shifted, so what is inserted is what slot [j] holds
    by then: the element [j] itself when it lies before [pos], the
    moved-from state of the element at [pos] when [j] is that element, and
    the element [j - 1] when [j] lies behind [pos]. *)
Theorem Insert_by_ref_of_own_element h vs w v r xs i j xi :
  vs !! v = Some r → holds h r xs →
  size_ r < capacity_ (data_ r) → xs !! i = Some xi → j < length xs →
  ∃ b w' z, buffer_ (data_ r) = Addr b 0 ∧
    Insert_by_ref v (ptr_add (begin r) i) (Vector_at r j) (Machine h vs None w)
    = Return (Addr b i)
        (Machine (<[b := Block (arena (capacity_ (data_ r)) (take i xs ++ z :: drop i xs)) 0]> h)
                 (<[v := mkVector (data_ r) (S (size_ r))]> vs) None w') ∧
    (j < i → xs !! j = Some z) ∧
    (j = i → z = moved_from xi) ∧
    (i < j → xs !! (j - 1) = Some z).
Proof.
  intros Hv Hr Hlt Hxi Hj. destruct r as [[buf cap] sz]. cbn in Hlt |- *.
  assert (i < length xs) as Hi by eauto using lookup_lt_Some.
  apply holds_inv in Hr as (-> & Hle & [(-> & -> & ->) | (b & -> & Hb & Hcells)]);
    [cbn in Hlt; lia|].
  set (zs := take i xs ++ moved_from xi :: drop i xs).
  assert (length zs = S (length xs)) as Hzs by (subst zs; len).
  destruct (lookup_lt_is_Some_2 zs j ltac:(lia)) as [z Hz].
  exists b.
  assert (distance (Addr b 0) (Addr b (0 + i)) = Some i) as Hdist.
  { cbn. by rewrite Nat.eqb_refl, Nat.sub_0_r. }
  destruct (exists_last (l := drop i xs)) as (mid & l & Hlast).
  { intros Hnil. apply (f_equal length) in Hnil. rewrite length_drop in Hnil. cbn in Hnil. lia. }
  assert (length mid = length xs - i - 1) as Hmid.
  { apply (f_equal length) in Hlast. rewrite length_drop, length_app in Hlast.
    cbn in Hlast. lia. }
  assert (length (take i xs) = i) as Hpre by (rewrite length_take; lia).
  assert (hole (moved_from l) mid = moved_from xi) as Hhole.
  { pose proof (take_drop_middle xs i xi Hxi) as Hsplit.
    assert (drop i xs = xi :: drop (S i) xs) as Hdrop.
    { by rewrite (drop_S _ _ _ Hxi). }
    rewrite Hdrop in Hlast. destruct mid as [|y mid']; cbn in Hlast |- *; congruence. }
  rewrite arena_split in Hcells by done.
  rewrite <- (take_drop i xs), Hlast in Hcells at 1.
  rewrite !fmap_app, <- !app_assoc in Hcells. cbn [fmap list_fmap app] in Hcells.
  eexists _, z. split; [done|]. split.
  - rewrite arena_insert by lia. unfold Insert_by_ref.
    exec by (by apply get_vector_ok).
    cbn [size_ Capacity RawMemory_Capacity data_ capacity_].
    rewrite (proj2 (Nat.eqb_neq _ _)) by lia.
    unfold InsertWithoutRealloc_by_ref.
    exec by (by apply get_vector_ok).
    unfold begin, end_, Vector_at, RawMemory_at. cbn [GetAddress data_ buffer_ size_ ptr_add].
    rewrite Hdist. cbn [of_option].
    exec by reflexivity.
    rewrite decide_False by (intros [[=]|[=]]; lia).
    assert (ptr_sub (Addr b (0 + length xs)) 1 = Some (Addr b (length xs - 1))) as ->.
    { cbn. destruct (length xs) eqn:Hlen; [lia|]. done. }
    cbn [of_option].
    exec by reflexivity.
    exec by (eapply (move_construct_at_next _ _ _ _ _ _ _ ((Live <$> take i xs) ++ (Live <$> mid)));
             [by right | rewrite <- app_assoc; done | len | lia]).
    unfold move_backward. cbn [data_ buffer_ ptr_add].
    assert (distance (Addr b (0 + i)) (Addr b (length xs - 1)) = Some (length mid)) as ->.
    { cbn. rewrite Nat.eqb_refl. cbn.
      rewrite (proj2 (Nat.leb_le _ _)) by lia. f_equal. lia. }
    cbn [of_option].
    exec by reflexivity.
    exec by (eapply (move_backward_loop_range mid _ _ _ _ _ _ _ (Live <$> take i xs));
             [by right | rewrite <- app_assoc; heap_lookup | len | lia]).
    rewrite Hhole. rewrite !list_insert_insert_eq.
    unfold assign_copy_of. rewrite ?bind_assoc.
    erewrite bind_Return; cycle 1.
    { eapply (read_middle _ _ _ _ _ _ (Live <$> take j zs) z
                (((Live <$> drop (S j) zs)) ++ replicate (cap - length xs - 1) Raw));
        [| len].
      rewrite list_lookup_insert_eq by done. do 2 f_equal.
      transitivity ((Live <$> zs) ++ replicate (cap - length xs - 1) Raw).
      - subst zs. rewrite Hlast, !fmap_app. cbn [fmap list_fmap app].
        rewrite fmap_app, <- !app_assoc. cbn [fmap list_fmap app].
        by rewrite <- !app_assoc.
      - rewrite <- (take_drop_middle zs j z Hz) at 1.
        by rewrite fmap_app, <- app_assoc. }
    cbv beta.
    exec by (eapply assign_temporary_middle; [heap_lookup | len]).
    exec by (by eapply set_size_ok).
    unfold ret. cbn. rewrite !list_insert_insert_eq.
    rewrite Hlast, fmap_app, <- app_assoc. cbn [fmap list_fmap app].
    reflexivity.
  - subst zs. split_and!.
    + intros Hji. rewrite lookup_app_l in Hz by lia.
      by rewrite lookup_take_lt in Hz by lia.
    + intros ->. rewrite list_lookup_middle in Hz by done. congruence.
    + intros Hij. rewrite lookup_app_r in Hz by lia.
      rewrite Hpre in Hz. destruct (j - i) as [|d] eqn:Hd; [lia|].
      change ((moved_from xi :: drop i xs) !! S d) with (drop i xs !! d) in Hz.
      rewrite lookup_drop in Hz.
      by replace (j - 1) with (i + d) by lia.
Qed.

End FurtherInsertion.

Section FurtherOwnership.
Context {T : Type} {E : Element T}.

Local Abbreviation cell := (cell T).
Local Abbreviation block := (block T).
Local Abbreviation M := (M T).

Implicit Types (h : list block) (vs : list Vector) (f : option nat).
Implicit Types (xs ys : list T) (r : Vector).
Implicit Types (b i j n w v k : nat).

(** X18.  Ownership of a block by [RawMemory].  A block allocated by
    [RawMemory(n)] and handed on by the move constructor is released
    exactly once when both objects are destroyed, the moved-from object
    releasing nothing; [RawMemory(0)] allocates nothing at all.  After a
    move assignment between two objects each of the two blocks is likewise
    released exactly once.  This is so for every [n], also one whose byte
    count wraps: the block then has fewer than [n] slots. *)
Theorem RawMemory_releases_once h vs f w n k :
  (do a <- RawMemory_new n;
   let '(c, a') := RawMemory_move a in
   RawMemory_dtor c;; RawMemory_dtor a') (Machine h vs f w)
  = Return () (Machine (if n =? 0 then h else h ++ [Block (replicate (allocated n) Raw) 1])
                       vs f w) ∧
  (n ≠ 0 → k ≠ 0 →
   (do a <- RawMemory_new n;
    do c <- RawMemory_new k;
    let '(a', c') := RawMemory_move_assign a c in
    RawMemory_dtor c';; RawMemory_dtor a') (Machine h vs f w)
   = Return () (Machine (h ++ [Block (replicate (allocated n) Raw) 1;
                               Block (replicate (allocated k) Raw) 1]) vs f w)) ∧
  (no_wrap n → allocated n = n).
Proof.
  split_and!.
  - destruct (decide (n = 0)) as [-> | Hn]; [done|].
    rewrite (proj2 (Nat.eqb_neq _ _)) by done.
    exec by (by apply RawMemory_new_allocated).
    cbn [RawMemory_move RawMemory_Swap RawMemory_default buffer_ capacity_].
    exec by (eapply RawMemory_dtor_block; heap_lookup).
    rewrite RawMemory_dtor_null. by rewrite (insert_middle h []).
  - intros Hn Hk.
    exec by (by apply RawMemory_new_allocated).
    exec by (by apply RawMemory_new_allocated).
    cbn [RawMemory_move_assign RawMemory_Swap buffer_ capacity_].
    rewrite length_app, <- app_assoc. cbn [length app].
    exec by (eapply (RawMemory_dtor_block _ _ _ _ (length h)); by apply list_lookup_middle).
    rewrite insert_middle.
    erewrite RawMemory_dtor_block; cycle 1.
    { rewrite lookup_app_r by lia.
      by replace (length h + 1 - length h) with 1 by lia. }
    do 2 f_equal. rewrite insert_app_r_alt by lia.
    by replace (length h + 1 - length h) with 1 by lia.
  - apply allocated_no_wrap.
Qed.

(** X19.  A vector that has been moved from can be destroyed like any
    other.  Move construction from [s] followed by the destruction of the
    new vector and of [s] destroys each element once and releases the
    block once; the destructor of the moved-from [s] does nothing. *)
Theorem moved_from_is_destructible h vs f w s rs xs :
  vs !! s = Some rs → holds h rs xs →
  (do d <- Vector_move s; Vector_dtor d;; Vector_dtor s) (Machine h vs f w)
  = Return () (Machine (released (buffer_ (data_ rs)) (capacity_ (data_ rs)) h)
                       (<[s := mkVector RawMemory_default 0]> vs ++ [rs]) f (length xs + w)).
Proof.
  intros Hs Hrs. assert (s < length vs) as Hlt by eauto using lookup_lt_Some.
  assert (Vector_move s (Machine h vs f w)
          = Return (length vs)
              (Machine h (<[s := mkVector RawMemory_default 0]> vs ++ [rs]) f w)) as Hmove.
  { unfold Vector_move.
    exec by reflexivity.
    exec by (eapply Swap_ok; heap_lookup).
    unfold ret. do 2 f_equal.
    rewrite (insert_middle vs []). by rewrite insert_app_l. }
  exec by exact Hmove.
  exec by (eapply (Vector_dtor_ok _ _ _ _ _ rs xs); [|exact Hrs];
           rewrite lookup_app_r by len; by rewrite length_insert, Nat.sub_diag).
  erewrite (Vector_dtor_ok _ _ _ _ _ (mkVector RawMemory_default 0) []);
    [| rewrite lookup_app_l by len; heap_lookup | done].
  done.
Qed.

End FurtherOwnership.

Section FurtherResize.
Context {T : Type} {E : Element T}.

Local Abbreviation cell := (cell T).
Local Abbreviation block := (block T).

Implicit Types (h : list block) (vs : list Vector) (f : option nat).
Implicit Types (pre post : list cell) (xs ys : list T) (x y z : T) (r : Vector).
Implicit Types (b i j n w v k : nat).

(* What [uninitialized_default_construct_n] comes to for each state of the
   fuse. *)
Lemma uninitialized_default_construct_n_fuse n : ∀ h vs f w b i pre post,
  h !! b = Some (Block (pre ++ replicate n Raw ++ post) 0) → i = length pre →
  uninitialized_default_construct_n (Addr b i) n (Machine h vs f w)
  = let h' := <[b := Block (pre ++ (Live <$> replicate n default_init) ++ post) 0]> h in
    match f with
    | None => Return () (Machine h' vs None (n + w))
    | Some k =>
        if decide (k < n)
        then Throw (Machine h vs None (2 * k + w))
        else Return () (Machine h' vs (Some (k - n)) (n + w))
    end.
Proof.
  induction n as [|n IH]; intros h vs f w b i pre post Hb Hi;
    cbn [uninitialized_default_construct_n replicate ptr_add fmap list_fmap app]; cbn zeta.
  - unfold ret. rewrite list_insert_id by done.
    destruct f as [k|]; [|done].
    rewrite decide_False by lia. do 3 f_equal. lia.
  - cbn in Hb.
    pose proof (construct_at_tick h vs f w b i pre default_init _ Hb Hi) as Hc.
    destruct f as [[|k]|]; cbn [tick] in Hc.
    + rewrite decide_True by lia.
      erewrite bind_Throw; [|exact Hc]. done.
    + exec by exact Hc.
      unfold unwinding, try_catch.
      rewrite (IH _ _ (Some k) _ _ _ (pre ++ [Live default_init]) post);
        [| rewrite <- snoc_middle; heap_lookup | len ].
      cbn zeta. destruct (decide (k < n)).
      * rewrite decide_True by lia.
        erewrite bind_Return; [| eapply destroy_at_middle; [heap_lookup | done] ].
        rewrite list_insert_insert_eq, list_insert_id by done.
        unfold throw. do 2 f_equal. lia.
      * rewrite decide_False by lia.
        rewrite list_insert_insert_eq, <- snoc_middle.
        do 2 f_equal. lia.
    + exec by exact Hc.
      unfold unwinding, try_catch.
      rewrite (IH _ _ None _ _ _ (pre ++ [Live default_init]) post);
        [| rewrite <- snoc_middle; heap_lookup | len ].
      cbn zeta.
      rewrite list_insert_insert_eq, <- snoc_middle.
      do 2 f_equal. lia.
Qed.

(** X20.  [Resize] within the capacity.  [Resize(Size())] does nothing at
    all.  When [Resize(n)] with [Size() < n <= Capacity()] ends with an
    exception, because one of the [n - Size()] default constructions
    throws, the elements built so far have been destroyed again: every
    Vector and every block is exactly as before the call. *)
Theorem Resize_within_capacity_rolls_back h vs f w v r xs :
  vs !! v = Some r → holds h r xs →
  Resize v (Size r) (Machine h vs f w) = Return () (Machine h vs f w) ∧
  (∀ n k, Size r < n → n ≤ Capacity r → k < n - Size r →
     Resize v n (Machine h vs (Some k) w) = Throw (Machine h vs None (2 * k + w))).
Proof.
  intros Hv Hr. destruct r as [[buf cap] sz].
  pose proof Hr as Hinv.
  apply holds_inv in Hinv as (-> & Hle & Hbuf).
  unfold Size, Capacity, RawMemory_Capacity. cbn [size_ data_ capacity_].
  split.
  - unfold Resize.
    exec by (eapply Reserve_noop; [done | cbn; lia]).
    exec by (by apply get_vector_ok).
    cbn [size_ data_]. rewrite Nat.ltb_irrefl.
    exec by reflexivity.
    erewrite set_size_ok by done. cbn [data_].
    by rewrite list_insert_id.
  - intros n k Hlt Hn Hk.
    destruct Hbuf as [(-> & -> & ->) | (b & -> & Hb & Hcells)]; [cbn in Hlt; lia|].
    unfold Resize.
    exec by (eapply Reserve_noop; [done | cbn; lia]).
    exec by (by apply get_vector_ok).
    cbn [size_ data_].
    rewrite (proj2 (Nat.ltb_ge _ _)) by lia. rewrite (proj2 (Nat.ltb_lt _ _)) by done.
    unfold RawMemory_plus. cbn [buffer_ ptr_add].
    unfold arena in Hcells.
    replace (cap - length xs) with ((n - length xs) + (cap - length xs - (n - length xs)))
      in Hcells by lia.
    rewrite replicate_add in Hcells.
    rewrite ?bind_assoc.
    erewrite bind_Throw; [done|].
    rewrite (uninitialized_default_construct_n_fuse _ _ _ _ _ _ _ (Live <$> xs) _ Hcells) by len.
    cbn zeta. by rewrite decide_True.
Qed.

End FurtherResize.

Section FurtherWrapping.
Context {T : Type} {E : Element T}.

Local Abbreviation cell := (cell T).
Local Abbreviation block := (block T).

Implicit Types (h : list block) (vs : list Vector) (f : option nat).
Implicit Types (xs ys : list T) (x y z : T) (r : Vector).
Implicit Types (b i j n w v k : nat).

(** X22.  [Reserve(n)] on an empty vector, for a request above the
    capacity whose byte count wraps to less than one element.  Nothing is
    transferred, so the call returns: the vector records the capacity [n]
    over a block that has no slot at all.  The vector is then not well
    formed, and the next append, finding the size below the capacity,
    constructs its element outside the block: undefined behaviour. *)
Theorem Reserve_of_wrapping_request_overstates_capacity h vs w v r n x :
  vs !! v = Some r → holds h r [] →
  Capacity r < n → allocated n = 0 →
  ∃ h',
    let r' := mkVector (mkRawMemory (Addr (length h) 0) n) 0 in
    Reserve v n (Machine h vs None w) = Return () (Machine h' (<[v := r']> vs) None w) ∧
    h' !! length h = Some (Block [] 0) ∧ length h' = S (length h) ∧
    Capacity r' = n ∧
    EmplaceBack v x (Machine h' (<[v := r']> vs) None w) = Fault.
Proof.
  intros Hv Hr Hn Hzero. destruct r as [[buf cap] sz].
  unfold Capacity, RawMemory_Capacity in Hn. cbn in Hn.
  assert (v < length vs) as Hvlt by eauto using lookup_lt_Some.
  pose proof Hr as Hinv.
  apply holds_inv in Hinv as (-> & Hle & Hbuf).
  set (h' := released buf cap (h ++ [Block [] 0])).
  assert (h' !! length h = Some (Block [] 0)) as Hnew.
  { subst h'. apply released_lookup_new. intros b i ->.
    destruct Hbuf as [([=] & _) | (b' & [= <- <-] & Hb & _)]. done. }
  assert (length h' = S (length h)) as Hlen.
  { subst h'. unfold released. destruct buf; len. }
  exists h'. cbn zeta. split_and!; [| done | done | done |].
  - unfold Reserve.
    exec by (by apply get_vector_ok).
    cbn [data_ RawMemory_Capacity capacity_ size_ Size buffer_ GetAddress length].
    rewrite (proj2 (Nat.leb_gt _ _)) by lia.
    exec by (apply RawMemory_new_allocated; lia).
    rewrite Hzero. cbn [replicate GetAddress buffer_].
    exec by (apply MoveData_zero).
    cbn [destroy_n].
    exec by reflexivity.
    cbn [RawMemory_Swap buffer_ capacity_].
    exec by (by eapply set_data_ok).
    cbn [size_].
    destruct Hbuf as [(-> & -> & _) | (b & -> & Hb & Hcells)].
    + by rewrite RawMemory_dtor_null.
    + erewrite RawMemory_dtor_block by (rewrite lookup_app_l by done; exact Hcells).
      subst h'. unfold released, arena. cbn [length fmap list_fmap app].
      by rewrite Nat.sub_0_r.
  - unfold EmplaceBack.
    exec by (apply get_vector_ok; heap_lookup).
    cbn [data_ RawMemory_Capacity capacity_ size_ Size buffer_ GetAddress ptr_add].
    rewrite (proj2 (Nat.eqb_neq 0 n)) by lia.
    apply bind_Fault.
    unfold construct_at.
    exec by apply may_throw_calm.
    unfold emplace_at. apply bind_Fault.
    unfold load. cbn [heap]. rewrite Nat.add_0_r, Hnew. done.
Qed.

End FurtherWrapping.

(** * The further properties at concrete vectors *)

Lemma Swap_twice_is_identity_witness :
  (Swap 0 1;; Swap 0 1) two_vectors = Return () two_vectors.
Proof.
  exact (proj2 (Swap_twice_is_identity
                  (heap two_vectors) (vecs two_vectors) None 0 0 1
                  (vector_in 0 1 1) (vector_in 1 2 2) [1] [2; 3]
                  eq_refl eq_refl ltac:(holds_here) ltac:(holds_here))).
Defined.

Lemma PopBack_removes_last_witness :
  (∃ h',
     PopBack 0 roomy_triple = Return () (Machine h' [vector_in 0 4 2] None 1) ∧
     holds h' (vector_in 0 4 2) [1; 2] ∧ length h' = 1) ∧
  PopBack 0 empty_vector = Fault.
Proof.
  split.
  - exact (proj1 (PopBack_removes_last
                    (heap roomy_triple) (vecs roomy_triple) None 0 0 (vector_in 0 4 3) eq_refl)
                 [1; 2] 3 ltac:(holds_here)).
  - exact (proj2 (PopBack_removes_last
                    (heap empty_vector) (vecs empty_vector) None 0 0
                    (mkVector RawMemory_default 0) eq_refl)
                 eq_refl).
Defined.

Lemma destructor_releases_once_witness :
  ∃ h',
    Vector_dtor 1 two_vectors = Return () (Machine h' (vecs two_vectors) None 2) ∧
    h' !! 1 = Some (Block [Raw; Raw] 1) ∧
    h' !! 0 = Some (Block [Live 1] 0).
Proof.
  destruct (destructor_releases_once
              (heap two_vectors) (vecs two_vectors) None 0 1 (vector_in 1 2 2) [2; 3]
              eq_refl ltac:(holds_here)) as (h' & Hrun & _ & Hown & Hother & _).
  exists h'. split_and!.
  - exact Hrun.
  - exact (Hown 1 0 eq_refl).
  - exact (Hother 0 ltac:(intros i; discriminate)).
Defined.

Lemma indexing_designates_elements_witness :
  read (Vector_at (vector_in 0 4 3) 1) roomy_triple = Return 2 roomy_triple ∧
  read (Vector_at (vector_in 0 4 3) 3) roomy_triple = Fault.
Proof.
  pose proof (indexing_designates_elements
                (heap roomy_triple) (vecs roomy_triple) None 0 (vector_in 0 4 3) [1; 2; 3]
                ltac:(holds_here)) as (Hin & Hout & _).
  split.
  - exact (Hin 1 2 eq_refl).
  - exact (Hout 3 ltac:(cbn; lia)).
Defined.

Lemma EmplaceBack_then_PopBack_witness :
  ∃ r1 h1 w1 h2,
    let m1 := Machine h1 (<[0 := r1]> (vecs roomy_triple)) None w1 in
    EmplaceBack (E := int_element) 0 9 roomy_triple = Return (Vector_at r1 (Size r1 - 1)) m1 ∧
    read (Vector_at r1 (Size r1 - 1)) m1 = Return 9 m1 ∧
    PopBack 0 m1
    = Return () (Machine h2 (<[0 := mkVector (data_ r1) 3]> (vecs roomy_triple)) None (S w1)) ∧
    holds h2 (mkVector (data_ r1) 3) [1; 2; 3].
Proof.
  exact (EmplaceBack_then_PopBack (E := int_element)
           (heap roomy_triple) (vecs roomy_triple) 0 0 (vector_in 0 4 3) [1; 2; 3] 9
           eq_refl ltac:(holds_here)).
Defined.

Lemma Insert_then_Erase_witness :
  ∃ r' h' w',
    (do p <- Insert (E := int_element) 0 (Addr 0 1) 10; Erase (E := int_element) 0 p)
      roomy_triple
    = Return (ptr_add (begin r') 1) (Machine h' [r'] None w') ∧
    holds h' r' [1; 2; 3] ∧ Size r' = 3.
Proof.
  exact (Insert_then_Erase (E := int_element)
           (heap roomy_triple) (vecs roomy_triple) 0 0 (vector_in 0 4 3) [1; 2; 3] 1 10
           eq_refl ltac:(holds_here) ltac:(cbn; lia)).
Defined.

Lemma Emplace_growth_witness :
  ∃ r' h' w',
    Emplace (E := int_element) 1 (Addr 1 1) 10 two_vectors
    = Return (ptr_add (begin r') 1)
        (Machine h' (<[1 := r']> (vecs two_vectors)) None w') ∧
    buffer_ (data_ r') = Addr 2 0 ∧ length h' = 3 ∧ Capacity r' = 4.
Proof.
  destruct (Emplace_growth (E := int_element)
              (heap two_vectors) (vecs two_vectors) 0 1 (vector_in 1 2 2) [2; 3] 1 10
              eq_refl ltac:(holds_here) ltac:(cbn; lia))
    as (r' & h' & w' & Hrun & _ & Hfull).
  exists r', h', w'. split; [exact Hrun|]. exact (Hfull eq_refl).
Defined.

Lemma Emplace_at_end_is_EmplaceBack_witness :
  ∃ p r' h' w1 w2,
    Emplace (E := int_element) 0 (Addr 0 3) 4 roomy_triple
    = Return p (Machine h' [r'] None w1) ∧
    EmplaceBack (E := int_element) 0 4 roomy_triple
    = Return p (Machine h' [r'] None w2) ∧
    holds h' r' [1; 2; 3; 4] ∧ p = Vector_at r' 3.
Proof.
  exact (Emplace_at_end_is_EmplaceBack (E := int_element)
           (heap roomy_triple) (vecs roomy_triple) 0 0 (vector_in 0 4 3) [1; 2; 3] 4
           eq_refl ltac:(holds_here)).
Defined.

Lemma Erase_last_never_throws_witness :
  ∃ h',
    Erase (E := move_only_element) 0 (Addr 0 2)
          (Machine (heap roomy_triple) (vecs roomy_triple) (Some 0) 0)
    = Return (Addr 0 2) (Machine h' [vector_in 0 4 2] (Some 0) 1) ∧
    holds h' (vector_in 0 4 2) [1; 2].
Proof.
  exact (Erase_last_never_throws (E := move_only_element)
           (heap roomy_triple) (vecs roomy_triple) (Some 0) 0 0 (vector_in 0 4 3) [1; 2] 3
           eq_refl ltac:(holds_here)).
Defined.

Lemma appends_within_capacity_keep_storage_witness :
  ∃ h' w',
    push_all (E := int_element) 0 [5; 6] roomy_four
    = Return () (Machine h' [vector_in 0 6 6] None w') ∧
    holds h' (vector_in 0 6 6) [1; 2; 3; 4; 5; 6] ∧
    length h' = 1.
Proof.
  exact (appends_within_capacity_keep_storage (E := int_element)
           (heap roomy_four) (vecs roomy_four) 0 0 (vector_in 0 6 4) [1; 2; 3; 4] [5; 6]
           eq_refl ltac:(holds_here) ltac:(cbn; lia)).
Defined.

Lemma Reserve_then_appends_witness :
  ∃ h' w',
    (Reserve (E := int_element) 0 8;; push_all (E := int_element) 0 [4; 5]) roomy_triple
    = Return () (Machine h' [vector_in 1 8 5] None w') ∧
    holds h' (vector_in 1 8 5) [1; 2; 3; 4; 5] ∧
    length h' = 2.
Proof.
  exact (Reserve_then_appends (E := int_element)
           (heap roomy_triple) (vecs roomy_triple) 0 0 (vector_in 0 4 3) [1; 2; 3] [4; 5] 8
           eq_refl ltac:(holds_here) ltac:(cbn; lia) eq_refl ltac:(cbn; lia)).
Defined.

Lemma Vector_sized_all_or_nothing_witness :
  (∃ r h' f',
     Vector_sized (E := int_element) 3 (Machine [] [] (Some 5) 0)
     = Return 0 (Machine h' [r] f' 3) ∧
     holds h' r [0; 0; 0] ∧ Size r = 3 ∧ Capacity r = 3) ∧
  (∃ m', Vector_sized (E := int_element) 3 (Machine [] [] (Some 1) 0) = Throw m').
Proof.
  split.
  - destruct (proj1 (Vector_sized_all_or_nothing (E := int_element) [] [] (Some 5) 0 3 eq_refl)
                     ltac:(intros k [= <-]; lia))
      as (r & h' & f' & Hrun & Hr & Hsize & Hcap & _).
    exists r, h', f'. split_and!; [exact Hrun | exact Hr | exact Hsize | exact Hcap].
  - exact (proj2 (proj2 (Vector_sized_all_or_nothing (E := int_element) [] [] None 0 3 eq_refl))
                 1 ltac:(lia)).
Defined.

Lemma Vector_copy_failure_leaves_nothing_witness :
  ∃ m', Vector_copy 1 (Machine (heap two_vectors) (vecs two_vectors) (Some 1) 0) = Throw m' ∧
        vecs m' = vecs two_vectors ∧
        heap m' = heap two_vectors ++ [Block [Raw; Raw] 1].
Proof.
  pose proof (Vector_copy_failure_leaves_nothing
                (heap two_vectors) (vecs two_vectors) 0 1 (vector_in 1 2 2) [2; 3]
                eq_refl ltac:(holds_here)) as [Hstate Hthrows].
  destruct (Hthrows 1 ltac:(cbn; lia)) as [m' Hrun].
  destruct (Hstate (Some 1) m' Hrun) as (Hvecs & _ & Hheap).
  exists m'. split_and!; [exact Hrun | exact Hvecs | exact Hheap].
Defined.

Lemma self_assignment_changes_nothing_witness :
  ∃ f', copy_assignment 1 1 two_vectors
        = Return () (Machine (heap two_vectors) (vecs two_vectors) f' 2).
Proof.
  exact (proj2 (self_assignment_changes_nothing
                  (heap two_vectors) (vecs two_vectors) None 0 1 (vector_in 1 2 2) [2; 3]
                  eq_refl ltac:(holds_here))
               ltac:(intros k [=])).
Defined.

Lemma copy_assignment_reuses_storage_witness :
  (∃ h' f',
     copy_assignment 0 1 roomy_and_pair
     = Return () (Machine h' [vector_in 0 4 2; vector_in 1 2 2] f' 3) ∧
     holds h' (vector_in 0 4 2) [7; 8] ∧ holds h' (vector_in 1 2 2) [7; 8] ∧
     length h' = 2) ∧
  (∃ h' w',
     copy_assignment 0 1 (Machine (heap roomy_and_pair) (vecs roomy_and_pair) (Some 1) 0)
     = Throw (Machine h' (vecs roomy_and_pair) None w') ∧
     holds h' (vector_in 0 4 3) [7; 2; 3] ∧ holds h' (vector_in 1 2 2) [7; 8] ∧
     length h' = 2).
Proof.
  split.
  - exact (proj1 (copy_assignment_reuses_storage
                    (heap roomy_and_pair) (vecs roomy_and_pair) None 0 0 1
                    (vector_in 0 4 3) (vector_in 1 2 2) [1; 2; 3] [7; 8]
                    eq_refl ltac:(holds_here) eq_refl ltac:(holds_here)
                    ltac:(lia) ltac:(intros b i j [= <- <-]; discriminate) ltac:(cbn; lia))
                 ltac:(intros k [=])).
  - exact (proj2 (copy_assignment_reuses_storage
                    (heap roomy_and_pair) (vecs roomy_and_pair) (Some 1) 0 0 1
                    (vector_in 0 4 3) (vector_in 1 2 2) [1; 2; 3] [7; 8]
                    eq_refl ltac:(holds_here) eq_refl ltac:(holds_here)
                    ltac:(lia) ltac:(intros b i j [= <- <-]; discriminate) ltac:(cbn; lia))
                 1 eq_refl ltac:(cbn; lia)).
Defined.

Lemma Insert_by_ref_reads_first_witness :
  Insert_by_ref (E := int_element) 1 (Addr 1 0) (Addr 1 1) two_vectors
  = Insert (E := int_element) 1 (Addr 1 0) 3 two_vectors.
Proof.
  exact (Insert_by_ref_reads_first (E := int_element)
           (heap two_vectors) (vecs two_vectors) None 0 1 (vector_in 1 2 2) 1 1
           [Live 2] [] 3 (Addr 1 0) eq_refl eq_refl eq_refl (or_introl eq_refl)).
Defined.

Lemma Insert_by_ref_of_own_element_witness :
  ∃ w' z,
    Insert_by_ref (E := int_element) 0 (Addr 0 1) (Addr 0 2) roomy_four
    = Return (Addr 0 1)
        (Machine [Block (arena 6 ([1] ++ z :: [2; 3; 4])) 0] [vector_in 0 6 5] None w') ∧
    z = 2.
Proof.
  destruct (Insert_by_ref_of_own_element (E := int_element)
              (heap roomy_four) (vecs roomy_four) 0 0 (vector_in 0 6 4) [1; 2; 3; 4] 1 2 2
              eq_refl ltac:(holds_here) ltac:(cbn; lia) eq_refl ltac:(cbn; lia))
    as (b & w' & z & Hbuf & Hrun & _ & _ & Hbehind).
  injection Hbuf as <-.
  exists w', z. split; [exact Hrun|].
  specialize (Hbehind ltac:(lia)). by injection Hbehind.
Defined.

Lemma RawMemory_releases_once_witness :
  (do a <- RawMemory_new (E := int_element) 2;
   do c <- RawMemory_new (E := int_element) 3;
   let '(a', c') := RawMemory_move_assign a c in
   RawMemory_dtor c';; RawMemory_dtor a') (Machine [] [] None 0)
  = Return () (Machine [Block [Raw; Raw] 1; Block [Raw; Raw; Raw] 1] [] None 0).
Proof.
  exact (proj1 (proj2 (RawMemory_releases_once (E := int_element) [] [] None 0 2 3))
               ltac:(lia) ltac:(lia)).
Defined.

Lemma moved_from_is_destructible_witness :
  (do d <- Vector_move 1; Vector_dtor d;; Vector_dtor 1) two_vectors
  = Return () (Machine [Block [Live 1] 0; Block [Raw; Raw] 1]
                       [vector_in 0 1 1; mkVector RawMemory_default 0; vector_in 1 2 2]
                       None 2).
Proof.
  exact (moved_from_is_destructible
           (heap two_vectors) (vecs two_vectors) None 0 1 (vector_in 1 2 2) [2; 3]
           eq_refl ltac:(holds_here)).
Defined.

Lemma Resize_within_capacity_rolls_back_witness :
  Resize (E := int_element) 0 6 (Machine (heap roomy_four) (vecs roomy_four) (Some 1) 0)
  = Throw (Machine (heap roomy_four) (vecs roomy_four) None 2).
Proof.
  exact (proj2 (Resize_within_capacity_rolls_back (E := int_element)
                  (heap roomy_four) (vecs roomy_four) (Some 1) 0 0 (vector_in 0 6 4)
                  [1; 2; 3; 4] eq_refl ltac:(holds_here))
               6 1 ltac:(cbn; lia) ltac:(cbn; lia) ltac:(cbn; lia)).
Defined.

Lemma Reserve_of_wrapping_request_overstates_capacity_witness :
  ∃ h',
    let r' := mkVector (mkRawMemory (Addr 0 0) (N.to_nat 4611686018427387904)) 0 in
    Reserve (E := int_element) 0 (N.to_nat 4611686018427387904) empty_vector
    = Return () (Machine h' [r'] None 0) ∧
    h' !! 0 = Some (Block [] 0) ∧
    EmplaceBack (E := int_element) 0 7 (Machine h' [r'] None 0) = Fault.
Proof.
  destruct (Reserve_of_wrapping_request_overstates_capacity (E := int_element)
              (heap empty_vector) (vecs empty_vector) 0 0 (mkVector RawMemory_default 0)
              (N.to_nat 4611686018427387904) 7
              eq_refl ltac:(holds_here)
              ltac:(change (0 < N.to_nat 4611686018427387904); lia)
              (allocated_for_2_62 (E := int_element) eq_refl))
    as (h' & Hrun & Hnew & _ & _ & Hpush).
  exists h'. split_and!; [exact Hrun | exact Hnew | exact Hpush].
Defined.
